(** * Sioux: Bayeux session engine and pub/sub node store

    A shallow embedding of the node store ([pubsub/node.cpp]), of the
    session connector ([bayeux/bayeux.cpp]) and of the session and
    subscription registry the Bayeux dispatcher drives, together with the
    properties of their behaviour.

    Layout: the data model and the operations come first (modules [json],
    [pubsub], [bayeux]); the lemmas and theorems follow. *)

From Stdlib Require Import ZArith String Ascii Bool Lia DecimalString.
From Stdlib Require OrderedTypeEx.
From stdpp Require Import base list sorting strings gmap.

Set Warnings "-register-all".
Local Open Scope Z_scope.

(* ===================================================================== *)
(** * JSON values ([json/json.h]) *)
(* ===================================================================== *)

Module json.

(** [json::value] and its seven concrete classes, as [json/json.h]
    declares them.  A [json::string] is kept as its character sequence
    ([to_std_string()]), an object as its name/value pairs ordered by name,
    an array as the sequence of its elements. *)
Inductive value : Type :=
| jstring (text : string)
| number (n : Z)
| object (members : list (string * value))
| array (elements : list value)
| true_val
| false_val
| null.

(** Modelled from the spec: [json/json.cpp] is not among the sources (the
    JSON library is an external collaborator).  [bool operator==(const
    value&, const value&)]: two values are equal when they are of the same
    class and have the same content. *)
Fixpoint value_eqb (a b : value) {struct a} : bool :=
  match a, b with
  | jstring s, jstring t => String.eqb s t
  | number n, number m => Z.eqb n m
  | object ms, object ns =>
      (fix members_eqb (ms : list (string * value)) (ns : list (string * value)) : bool :=
         match ms, ns with
         | [], [] => true
         | (k, v) :: ms', (k', v') :: ns' =>
             String.eqb k k' && value_eqb v v' && members_eqb ms' ns'
         | _, _ => false
         end) ms ns
  | array xs, array ys =>
      (fix elements_eqb (xs : list value) (ys : list value) : bool :=
         match xs, ys with
         | [], [] => true
         | x :: xs', y :: ys' => value_eqb x y && elements_eqb xs' ys'
         | _, _ => false
         end) xs ys
  | true_val, true_val => true
  | false_val, false_val => true
  | null, null => true
  | _, _ => false
  end.

(** Modelled from the spec: [json/json.cpp] is not among the sources.
    [json::from_bool]: "an instance of true_val or false_val depending on
    value". *)
Definition from_bool (b : bool) : value := if b then true_val else false_val.

(** ** Objects *)

(** Modelled from the spec: [json/json.cpp] is not among the sources.
    [object::add], "adds a new property to the object": the pair takes its
    place in the order of the names; a pair with the same name is
    replaced. *)
Fixpoint add (name : string) (val : value) (members : list (string * value))
  : list (string * value) :=
  match members with
  | [] => [(name, val)]
  | (k, v) :: rest =>
      if String.eqb name k then (name, val) :: rest
      else if String.ltb name k then (name, val) :: (k, v) :: rest
      else (k, v) :: add name val rest
  end.

(** Modelled from the spec: [json/json.cpp] is not among the sources.
    [object::find]: "looks up the given key"; no result "if no value with
    the given key is given". *)
Fixpoint find (key : string) (members : list (string * value)) : option value :=
  match members with
  | [] => None
  | (k, v) :: rest => if String.eqb key k then Some v else find key rest
  end.

(** Modelled from the spec: [json/json.cpp] is not among the sources.
    [object::at]: "returns the element with the given key"; the exception
    [std::out_of_range] of a key that "is not in keys()" is the result
    [None]. *)
Definition at_key (key : string) (members : list (string * value)) : option value :=
  find key members.

(** Modelled from the spec: [json/json.cpp] is not among the sources.
    [object::keys]: "returns a list of all keys.  The keys will be ordered
    in descent order". *)
Definition keys (members : list (string * value)) : list string :=
  reverse (members.*1).

(** ** Arrays *)

(** Modelled from the spec: [json/json.cpp] is not among the sources.
    [array::array(const array& other, number_to_copy, start_idx)]:
    "constructs an array by copying the first references starting at
    start_idx from an other array". *)
Definition array_copy (other : list value) (number_to_copy start_idx : nat) : list value :=
  take number_to_copy (drop start_idx other).

(** Modelled from the spec: [json/json.cpp] is not among the sources.
    [array::erase(index, size)]: "erases size elements starting with the
    element at index". *)
Definition erase (elements : list value) (index size : nat) : list value :=
  take index elements ++ drop (index + size) elements.

(** Modelled from the spec: [json/json.cpp] is not among the sources.
    [array::insert(index, v)]: "inserts a new element at index". *)
Definition insert (elements : list value) (index : nat) (v : value) : list value :=
  take index elements ++ v :: drop index elements.

(** ** The serializer and the delta computation

    The serializer ([json/json.cpp]) and the computation of deltas
    ([json/delta.cpp]) are not among the sources; the code that uses them
    is verified for every implementation of this interface. *)
Class implementation := {
  (** [value::size()]: "size in bytes of the serialized form". *)
  size : value -> nat;
  (** [value::to_json()]: "converts the content to json", the text that
      [tools::as_string] and [operator<<] give for a value. *)
  to_json : value -> string;
  (** [json::delta(a, b, max_size)]: an update instruction that leads from
      [a] to [b], if one of at most [max_size] bytes exists. *)
  delta : value -> value -> Z -> bool * value
}.

(** [a.size() > b] for a [std::size_t] bound [b]. *)
Definition size_exceeds `{implementation} (a : value) (bound : Z) : bool :=
  Z.of_nat (size a) >? bound.

(** The double quote. *)
Definition quote : ascii := "034"%char.

(** A string between double quotes: the serialized form of a
    [json::string] none of whose characters needs an escape. *)
Definition quoted (s : string) : string :=
  String quote (s +:+ String quote EmptyString).

End json.

(* ===================================================================== *)
(** * Integer conversions of the C++ code *)
(* ===================================================================== *)

Module cxx.

(** Conversion to an unsigned type of [bits] bits. *)
Definition wrap_unsigned (bits x : Z) : Z := x mod 2 ^ bits.

(** Conversion to a signed two's complement type of [bits] bits. *)
Definition wrap_signed (bits x : Z) : Z :=
  (x + 2 ^ (bits - 1)) mod 2 ^ bits - 2 ^ (bits - 1).

(** [std::numeric_limits<int>::max()] and [min()], for the 32 bit [int]. *)
Definition int_max : Z := 2 ^ 31 - 1.
Definition int_min : Z := - 2 ^ 31.

(** [static_cast<int>(x)]. *)
Definition static_cast_int (x : Z) : Z := wrap_signed 32 x.

(** [static_cast<boost::int_fast64_t>(x)]. *)
Definition static_cast_int_fast64 (x : Z) : Z := wrap_signed 64 x.

(** Conversion to [unsigned]. *)
Definition to_unsigned (x : Z) : Z := wrap_unsigned 32 x.

(** The widths the sources leave to the platform: of
    [boost::uint_fast32_t], the type of a version counter, and of
    [std::size_t]. *)
Class platform := {
  version_bits : Z;
  size_t_bits : Z
}.

(** [std::string::c_str()] read back as a C string: the characters before
    the first NUL. *)
Fixpoint c_str (s : string) : string :=
  match s with
  | EmptyString => EmptyString
  | String c rest => if Ascii.eqb c "000"%char then EmptyString else String c (c_str rest)
  end.

End cxx.

(* ===================================================================== *)
(** * The node store ([pubsub/node.cpp]) *)
(* ===================================================================== *)

Module pubsub.
Import cxx.

(** ** [class node_version] *)
Module node_version.

(** A version is its counter [version_], of type [boost::uint_fast32_t]:
    a number in the range [0 .. 2 ^ version_bits - 1]. *)
Definition t : Type := Z.

Definition in_range `{platform} (v : t) : Prop := 0 <= v < 2 ^ version_bits.

(** [node_version::node_version( const json::number& n )]: [n.to_int()]
    converted to the counter's type. *)
Definition from_number `{platform} (n : Z) : t :=
  wrap_unsigned version_bits (static_cast_int n).

(** [bool node_version::operator==]. *)
Definition eqb (lhs rhs : t) : bool := Z.eqb lhs rhs.

(** [int node_version::operator-(const node_version& rhs) const]. *)
Definition distance (version_ rhs : t) : Z :=
  let distance :=
    static_cast_int_fast64
      (static_cast_int_fast64 version_ - static_cast_int_fast64 rhs) in
  if (distance >? 0) && (distance >? int_max) then int_max
  else if (distance <? 0) && (distance <? int_min) then int_min
  else static_cast_int distance.

(** [void node_version::operator-=(unsigned dec)]. *)
Definition decrement `{platform} (version_ : t) (dec : Z) : t :=
  wrap_unsigned version_bits (version_ - to_unsigned dec).

(** [node_version& node_version::operator++()]. *)
Definition increment `{platform} (version_ : t) : t :=
  wrap_unsigned version_bits (version_ + 1).

(** [node_version operator-(node_version start_version, unsigned
    decrement)]: [start_version -= decrement]. *)
Definition minus `{platform} (start_version : t) (decrement_ : Z) : t :=
  decrement start_version decrement_.

(** [node_version operator+(node_version start_version, unsigned
    increment)]: [start_version - ( -increment )], where the negation is
    the one of [unsigned]. *)
Definition plus `{platform} (start_version : t) (increment_ : Z) : t :=
  minus start_version (to_unsigned (- increment_)).

End node_version.

(** ** [class node] *)
Module node.
Import json.

Record t : Type := {
  data_ : value;
  version_ : node_version.t;
  updates_ : list value
}.

(** [node::node(first_version, first_versions_data)]. *)
Definition create (first_version : node_version.t) (first_versions_data : value) : t :=
  {| data_ := first_versions_data; version_ := first_version; updates_ := [] |}.

Definition current_version (n : t) : node_version.t := version_ n.

(** [node::oldest_version]: [version_ - updates_.length()]. *)
Definition oldest_version `{platform} (n : t) : node_version.t :=
  node_version.decrement (version_ n) (Z.of_nat (length (updates_ n))).

Definition data (n : t) : value := data_ n.

(** [node::get_update_from]. *)
Definition get_update_from (n : t) (known_version : node_version.t) : bool * value :=
  let distance := node_version.distance (version_ n) known_version in
  if (distance <=? 0)
     || (distance >? static_cast_int (Z.of_nat (length (updates_ n))))
  then (false, data_ n)
  else (true,
        array (array_copy (updates_ n) (Z.to_nat distance)
                 (length (updates_ n) - Z.to_nat distance))).

(** [node::remove_old_versions]: the loop erases the first update as
    long as the serialized updates exceed [max_size]. *)
Fixpoint remove_old_versions `{implementation} (max_size : Z) (updates_ : list value)
  : list value :=
  match updates_ with
  | [] => []
  | _ :: rest =>
      if size_exceeds (array updates_) max_size
      then remove_old_versions max_size rest
      else updates_
  end.

(** [node::update]: the result and the node after the call. *)
Definition update `{implementation} `{platform}
    (n : t) (new_data : value) (keep_update_size_percent : Z) : bool * t :=
  if value_eqb new_data (data_ n) then (false, n)
  else
    let max_size :=
      wrap_unsigned size_t_bits (Z.of_nat (size new_data) * keep_update_size_percent)
      / 100 in
    let updates :=
      if negb (max_size =? 0) then
        let update_instruction := delta (data_ n) new_data max_size in
        if update_instruction.1
        then insert (updates_ n) (length (updates_ n)) update_instruction.2
        else updates_ n
      else updates_ n in
    (true,
     {| data_ := new_data;
        version_ := node_version.increment (version_ n);
        updates_ := remove_old_versions max_size updates |}).

End node.

(** ** [class key] and [class key_domain] *)
Module key.

(** Modelled from the spec: [pubsub/key.h] is not among the sources.  A
    node name is "a set of (domain, value) key pairs with unique
    domains, ordered canonically by domain"; a [key_domain] is its
    name, and the order of two domains is the order of their names. *)
Record t : Type := { domain : string; value : string }.

(** Modelled from the spec: [pubsub/key.h] is not among the sources.
    [key_domain::operator<], the order "by domain". *)
Definition domain_ltb (lhs rhs : string) : bool := String.ltb lhs rhs.

(** The order in which [std::sort] puts two domains: [rhs] is not less
    than [lhs]. *)
Definition domain_le (lhs rhs : string) : Prop := String.leb lhs rhs = true.

#[global] Instance domain_le_dec : RelDecision domain_le.
Proof. intros lhs rhs. unfold domain_le. apply _. Defined.

(** Modelled from the spec: [pubsub/key.h] is not among the sources.
    [key::operator==]: the same domain and the same value. *)
Definition eqb (lhs rhs : t) : bool :=
  String.eqb (domain lhs) (domain rhs) && String.eqb (value lhs) (value rhs).

(** Modelled from the spec: [pubsub/key.h] is not among the sources.
    [key::key()]: the key without domain and value. *)
Definition default_key : t := {| domain := EmptyString; value := EmptyString |}.

(** Modelled from the spec: [pubsub/key.h] is not among the sources.
    [key::operator<]: "ordering by the canonical sequence", the domains
    first, then the values. *)
Definition ltb (lhs rhs : t) : bool :=
  String.ltb (domain lhs) (domain rhs)
  || (String.eqb (domain lhs) (domain rhs) && String.ltb (value lhs) (value rhs)).

End key.

(** ** [class node_name] *)
Module node_name.
Import json.

(** The list [keys_]. *)
Definition t : Type := list key.t.

(** [node_name::node_name()]. *)
Definition empty_name : t := [].

(** The functor [to_domain]: the serialized form of the key name without
    its first and its last character. *)
Definition to_domain `{implementation} (s : string) : string :=
  let text := json.to_json (jstring s) in
  String.substring 1 (String.length text - 2) text.

(** [convert_to_str]. *)
Definition convert_to_str `{implementation} (val : value) : string :=
  match val with
  | jstring text => text
  | _ => json.to_json val
  end.

(** [node_name::node_name(const json::object& keys)]; [None] stands for
    the exception of [keys.at]. *)
Definition from_object `{implementation} (keys : list (string * value)) : option t :=
  let json_key_names := json.keys keys in
  let domains := merge_sort key.domain_le (to_domain <$> json_key_names) in
  mapM (fun k : string =>
          val ← at_key (c_str k) keys;
          Some {| key.domain := k; key.value := convert_to_str val |})
       domains.

(** The loop of [node_name::operator==]: it runs while the keys at the
    two positions are equal, and the names are equal when it reaches the
    end of [keys_]. *)
Fixpoint keys_match (lhs rhs : list key.t) : bool :=
  match lhs with
  | [] => true
  | l :: lhs' =>
      match rhs with
      | r :: rhs' => key.eqb l r && keys_match lhs' rhs'
      | [] => false
      end
  end.

(** [node_name::operator==]. *)
Definition eqb (lhs rhs : t) : bool :=
  if negb (length lhs =? length rhs)%nat then false
  else keys_match lhs rhs.

(** [node_name::add]: [std::lower_bound] finds the first key whose
    domain is not less than the domain of [k]; a key of that very domain
    is overwritten, otherwise [k] is inserted in front of it. *)
Fixpoint add (k : key.t) (keys_ : t) : t :=
  match keys_ with
  | [] => [k]
  | pos :: rest =>
      if key.domain_ltb (key.domain pos) (key.domain k) then pos :: add k rest
      else if negb (key.domain_ltb (key.domain k) (key.domain pos)) then k :: rest
      else k :: pos :: rest
  end.

(** [node_name::to_json]. *)
Definition to_json (keys_ : t) : list (string * value) :=
  foldl (fun result k => json.add (key.domain k) (jstring (key.value k)) result)
        [] keys_.

(** [node_name::operator!=]. *)
Definition neqb (lhs rhs : t) : bool := negb (eqb lhs rhs).

(** The loop of [node_name::operator<], over the keys at the same
    positions; [key_ltb] is [key::operator<]. *)
Fixpoint keys_less (key_ltb : key.t -> key.t -> bool) (lhs rhs : list key.t) : bool :=
  match lhs with
  | [] => false
  | l :: lhs' =>
      match rhs with
      | r :: rhs' =>
          if key_ltb l r then true
          else if key_ltb r l then false
          else keys_less key_ltb lhs' rhs'
      | [] => false
      end
  end.

(** [node_name::operator<]. *)
Definition ltb (key_ltb : key.t -> key.t -> bool) (lhs rhs : t) : bool :=
  if negb (length lhs =? length rhs)%nat then (length lhs <? length rhs)%nat
  else keys_less key_ltb lhs rhs.

(** [std::lower_bound( keys_.begin(), keys_.end(), key(domain, ...),
    sort_by_domain() )] on keys in their canonical order: the keys from the
    first one on whose domain is not less than [domain]. *)
Fixpoint lower_bound (domain : string) (keys_ : t) : t :=
  match keys_ with
  | [] => []
  | pos :: rest =>
      if key.domain_ltb (key.domain pos) domain then lower_bound domain rest
      else keys_
  end.

(** [node_name::find_key]. *)
Definition find_key (domain : string) (keys_ : t) : bool * key.t :=
  match lower_bound domain keys_ with
  | pos :: _ =>
      if negb (key.domain_ltb domain (key.domain pos)) then (true, pos)
      else (false, key.default_key)
  | [] => (false, key.default_key)
  end.

(** [node_name::empty]. *)
Definition empty (keys_ : t) : bool := bool_decide (keys_ = []).

(** The member of the object that [to_json] adds for a key. *)
Definition member_of (k : key.t) : string * value :=
  (key.domain k, jstring (key.value k)).

(** A domain is plain when the serialized form of its name is the name
    between two quotes (none of its characters is escaped), and when no
    NUL character stands in it. *)
Definition plain `{implementation} (d : string) : Prop :=
  json.to_json (jstring d) = quoted d /\ c_str d = d.

(** The invariant of [keys_]: the domains are unique and in their
    canonical order. *)
Definition canonical (keys_ : t) : Prop :=
  StronglySorted (fun a b => key.domain_ltb (key.domain a) (key.domain b) = true) keys_.

End node_name.

(** ** The subscription handshake of the registry ([pubsub::root]) *)
Module root.
Import json.

(** Modelled from the spec: [pubsub/root.cpp] is not among the sources.
    "[subscribe(subscriber, node_name)] asynchronously drives three
    adapter callbacks in this order: validate, authorize, initialize.
    Any of the three may answer synchronously or later."  The state of
    one subscription is the request the registry waits for, and an
    answer of the adapter moves it on. *)
Inductive request : Type := validation | authorization | initialization.

(** Modelled from the spec: [pubsub/root.cpp] is not among the sources.
    The state of one subscription. *)
Inductive subscription : Type :=
| awaiting (r : request)
| established
| refused.

(** Modelled from the spec: [pubsub/root.cpp] is not among the sources.
    What the adapter does with a request (the calls of
    [pubsub::test::adapter]); skipping the initialization is
    "deferred-and-dropped", and [adapter_error] is a callback that ends
    with an error instead of an answer ("adapter errors map to one of
    the three failure reasons"). *)
Inductive answer : Type :=
| answer_validation_request (is_valid : bool)
| answer_authorization_request (is_authorized : bool)
| answer_initialization_request (initial_value : value)
| skip_initialization_request
| adapter_error.

(** Modelled from the spec: [pubsub/root.cpp] is not among the sources.
    What the subscriber receives: one of the three failures, the success,
    or the value of a node. *)
Inductive notification : Type :=
| on_invalid_node_subscription
| on_unauthorized_node_subscription
| on_failed_node_subscription
| on_subscribed
| on_update (data : value).

(** Modelled from the spec: [pubsub/root.cpp] is not among the sources.
    "validate=false: failure with reason invalid subscription;
    authorize=false: failure with authorization failed; initialize
    skipped: failure with initialization failed; all ok: subscriber
    receives a success event; if the initial value is non-null it is
    delivered as an update event on the same channel immediately
    after."  "Adapter errors map to one of the three failure reasons
    above and never throw across the registry boundary": the error of a
    callback is the failure of the request it was to answer.  An answer
    to a request that is not outstanding changes nothing. *)
Definition step (s : subscription) (a : answer) : subscription * list notification :=
  match s, a with
  | awaiting validation, answer_validation_request true => (awaiting authorization, [])
  | awaiting validation, answer_validation_request false =>
      (refused, [on_invalid_node_subscription])
  | awaiting validation, adapter_error => (refused, [on_invalid_node_subscription])
  | awaiting authorization, answer_authorization_request true =>
      (awaiting initialization, [])
  | awaiting authorization, answer_authorization_request false =>
      (refused, [on_unauthorized_node_subscription])
  | awaiting authorization, adapter_error => (refused, [on_unauthorized_node_subscription])
  | awaiting initialization, answer_initialization_request initial_value =>
      (established,
       on_subscribed :: (if value_eqb initial_value null then [] else [on_update initial_value]))
  | awaiting initialization, skip_initialization_request =>
      (refused, [on_failed_node_subscription])
  | awaiting initialization, adapter_error => (refused, [on_failed_node_subscription])
  | _, _ => (s, [])
  end.

(** Modelled from the spec: [pubsub/root.cpp] is not among the sources.
    [subscribe]: the handshake from the first request on, through the
    answers of the adapter in the order in which they arrive. *)
Fixpoint run (s : subscription) (answers : list answer) : subscription * list notification :=
  match answers with
  | [] => (s, [])
  | a :: rest =>
      let '(s', out) := step s a in
      let '(s'', out') := run s' rest in
      (s'', out ++ out')
  end.

(** Modelled from the spec: [pubsub/root.cpp] is not among the sources.
    "[subscribe(subscriber, node_name)]": the handshake starts with the
    validation. *)
Definition subscribe (answers : list answer) : subscription * list notification :=
  run (awaiting validation) answers.

End root.

End pubsub.

(* ===================================================================== *)
(** * The Bayeux session engine *)
(* ===================================================================== *)

Module bayeux.
Import cxx json.

(** ** Channels of nodes *)

(** Modelled from the spec: [bayeux/node_channel.cpp] is not among the
    sources.  A node name is "encoded in wire form as a channel path
    /d1/v1/d2/v2/... (alternating segments)". *)
Definition node_channel_from_name (name : pubsub.node_name.t) : string :=
  foldr (fun k path =>
           "/" +:+ pubsub.key.domain k +:+ "/" +:+ pubsub.key.value k +:+ path)
        EmptyString name.

(** ** [class session] *)
Module session.

(** Modelled from the spec: [bayeux/configuration.h] is not among the
    sources.  "Two caps enforced jointly: [max_messages_per_client]
    (count) and [max_messages_size_per_client] (sum of serialized
    sizes)." *)
Record configuration : Type := {
  max_messages_per_client : nat;
  max_messages_size_per_client : nat
}.

(** Modelled from the spec: the declaration of [response_interface] is not
    among the sources.  A response object is known by its identity. *)
Definition response : Type := nat.

(** Modelled from the spec: the declaration of [response_interface] is not
    among the sources.  A session calls a response in two ways: it notifies
    it with [second_connection_detected], or it wakes it with events. *)
Inductive call : Type :=
| second_connection_detected
| messages (events : list value).

(** Modelled from the spec: [bayeux/session.cpp] is not among the
    sources.  A session is "(session_id, config, subscriptions,
    queue<event>, waiting_response?, ...)"; [calls_] records, in their
    order, the calls the session has made to response objects, and
    [enqueued_] the events that were handed to the session. *)
Record t : Type := {
  session_id_ : string;
  config_ : configuration;
  messages_ : list value;
  http_connection_ : option response;
  calls_ : list (response * call);
  enqueued_ : list value
}.

(** Modelled from the spec: [bayeux/session.cpp] is not among the
    sources.  [session::session(session_id, data, config)]: a session with
    an empty queue on which no response waits. *)
Definition create (session_id : string) (config : configuration) : t :=
  {| session_id_ := session_id; config_ := config; messages_ := [];
     http_connection_ := None; calls_ := []; enqueued_ := [] |}.

(** Modelled from the spec: [bayeux/session.cpp] is not among the
    sources.  The "sum of serialized sizes" of the events of a queue. *)
Definition total_size `{implementation} (events : list value) : nat :=
  sum_list_with size events.

(** Modelled from the spec: [bayeux/session.cpp] is not among the
    sources.  Both caps hold. *)
Definition within_caps `{implementation} (config : configuration) (events : list value)
  : bool :=
  (length events <=? max_messages_per_client config)%nat
  && (total_size events <=? max_messages_size_per_client config)%nat.

(** Modelled from the spec: [bayeux/session.cpp] is not among the
    sources.  "On enqueue, if either cap would be exceeded, drop from the head
    until both hold." *)
Fixpoint drop_oldest `{implementation} (config : configuration) (events : list value)
  : list value :=
  match events with
  | [] => []
  | _ :: rest =>
      if within_caps config events then events else drop_oldest config rest
  end.

(** Modelled from the spec: [bayeux/session.cpp] is not among the
    sources.  One event is appended to the queue, and the caps are
    enforced. *)
Definition add_message `{implementation} (s : t) (event : value) : t :=
  {| session_id_ := session_id_ s; config_ := config_ s;
     messages_ := drop_oldest (config_ s) (messages_ s ++ [event]);
     http_connection_ := http_connection_ s; calls_ := calls_ s;
     enqueued_ := enqueued_ s ++ [event] |}.

(** Modelled from the spec: [bayeux/session.cpp] is not among the
    sources.  The waiting response, if there is one, is woken with the queued
    events; the session keeps neither the events nor the response. *)
Definition wake `{implementation} (s : t) : t :=
  match http_connection_ s with
  | Some waiting =>
      {| session_id_ := session_id_ s; config_ := config_ s;
         messages_ := [];
         http_connection_ := None;
         calls_ := calls_ s ++ [(waiting, messages (messages_ s))];
         enqueued_ := enqueued_ s |}
  | None => s
  end.

(** Modelled from the spec: [bayeux/session.cpp] is not among the
    sources.  "Any enqueue with a non-null [waiting_response] atomically hands the
    batch to that response and clears it." *)
Definition enqueue `{implementation} (s : t) (batch : list value) : t :=
  match batch with
  | [] => s
  | _ => wake (foldl add_message s batch)
  end.

(** Modelled from the spec: [bayeux/session.cpp] is not among the
    sources.  "[events() -> array]: drains and returns all pending events
    atomically." *)
Definition events (s : t) : list value * t :=
  (messages_ s,
   {| session_id_ := session_id_ s; config_ := config_ s; messages_ := [];
      http_connection_ := http_connection_ s; calls_ := calls_ s;
      enqueued_ := enqueued_ s |}).

(** Modelled from the spec: [bayeux/session.cpp] is not among the
    sources.  "[wait_for_events(response)]: if queue non-empty, returns its
    contents and keeps no reference to response; otherwise stores
    response as [waiting_response].  If a prior [waiting_response] was
    already present, that prior response is notified with
    [second_connection_detected] and dropped; the new one replaces
    it." *)
Definition wait_for_events (s : t) (r : response) : list value * t :=
  match messages_ s with
  | _ :: _ => events s
  | [] =>
      ([],
       {| session_id_ := session_id_ s; config_ := config_ s; messages_ := [];
          http_connection_ := Some r;
          calls_ := calls_ s ++
                    match http_connection_ s with
                    | Some prior => [(prior, second_connection_detected)]
                    | None => []
                    end;
          enqueued_ := enqueued_ s |})
  end.

(** Modelled from the spec: [bayeux/session.cpp] is not among the
    sources.  "[hurry()]: if a waiting response exists, wake it with whatever
    events are queued (possibly empty)." *)
Definition hurry `{implementation} (s : t) : t := wake s.

(** Modelled from the spec: [bayeux/session.cpp] is not among the
    sources.  "[timeout()]: wake the waiting response with an empty event
    set." *)
Definition timeout (s : t) : t :=
  match http_connection_ s with
  | Some waiting =>
      {| session_id_ := session_id_ s; config_ := config_ s;
         messages_ := messages_ s;
         http_connection_ := None;
         calls_ := calls_ s ++ [(waiting, messages [])];
         enqueued_ := enqueued_ s |}
  | None => s
  end.

(** Modelled from the spec: [bayeux/session.cpp] is not among the
    sources.  "[close()]: cancel all subscriptions through the registry, wake any
    waiting response with an empty set, clear state." *)
Definition close (s : t) : t :=
  let s' := timeout s in
  {| session_id_ := session_id_ s'; config_ := config_ s'; messages_ := [];
     http_connection_ := None; calls_ := calls_ s'; enqueued_ := enqueued_ s' |}.

(** ** The events of a session *)

(** Modelled from the spec: [bayeux/session.cpp] is not among the
    sources.  "Each carries the original [id] field verbatim if the client
    supplied one." *)
Definition add_id (id : option value) (message : list (string * value))
  : list (string * value) :=
  match id with
  | Some i => add "id" i message
  | None => message
  end.

(** Modelled from the spec: [bayeux/session.cpp] is not among the
    sources.  The reply to a [/meta/subscribe]: "each carries the original id
    field verbatim if the client supplied one"; a failure carries its
    reason in the field [error]. *)
Definition subscribe_reply (s : t) (name : pubsub.node_name.t) (id : option value)
    (error : option string) : value :=
  let message :=
    add "successful" (from_bool (bool_decide (error = None)))
      (add "subscription" (jstring (node_channel_from_name name))
         (add "clientId" (jstring (session_id_ s))
            (add "channel" (jstring "/meta/subscribe") []))) in
  let message :=
    match error with
    | Some reason => add "error" (jstring reason) message
    | None => message
    end in
  object (add_id id message).

(** Modelled from the spec: [bayeux/session.cpp] is not among the
    sources.  The update event "{channel, data [,id-if-present-in-data]}": the
    fields [data] and [id] of the node's value, as the tests of
    [session_test.cpp] show them.  (For a value that is not an object,
    which [update_events] does not pass on, the value itself.) *)
Definition update_message (name : pubsub.node_name.t) (data : value) : value :=
  let message := add "channel" (jstring (node_channel_from_name name)) [] in
  match data with
  | object members =>
      let message :=
        match find "data" members with
        | Some d => add "data" d message
        | None => message
        end in
      object (add_id (find "id" members) message)
  | _ => object (add "data" data message)
  end.

(** Modelled from the spec: [bayeux/session.cpp] is not among the
    sources.  The events of an update of a node: the update event for a
    value that is an object, the form [{data: ... [, id: ...]}] in which
    the tests of [session_test.cpp] and [update_node] hand values to the
    session, and no event for any other value.  The test
    [unsubscribe_after_subscription] of [bayeux_test.cpp] initializes a
    node with the number 41 and expects no data event for it. *)
Definition update_events (name : pubsub.node_name.t) (data : value) : list value :=
  match data with
  | object _ => [update_message name data]
  | _ => []
  end.

(** Modelled from the spec: [bayeux/session.cpp] is not among the
    sources.  The events a notification of the registry becomes: the
    three failures carry the reasons "invalid subscription",
    "authorization failed" and "initialization failed". *)
Definition events_of (s : t) (name : pubsub.node_name.t) (id : option value)
    (n : pubsub.root.notification) : list value :=
  match n with
  | pubsub.root.on_invalid_node_subscription =>
      [subscribe_reply s name id (Some "invalid subscription")]
  | pubsub.root.on_unauthorized_node_subscription =>
      [subscribe_reply s name id (Some "authorization failed")]
  | pubsub.root.on_failed_node_subscription =>
      [subscribe_reply s name id (Some "initialization failed")]
  | pubsub.root.on_subscribed => [subscribe_reply s name id None]
  | pubsub.root.on_update data => update_events name data
  end.

(** Modelled from the spec: [bayeux/session.cpp] is not among the
    sources.  "[on_update(node_name, node)]: enqueues {channel, data
    [,id-if-present-in-data]}." *)
Definition on_update `{implementation} (s : t) (name : pubsub.node_name.t)
    (n : pubsub.node.t) : t :=
  enqueue s (update_events name (pubsub.node.data n)).

(** Modelled from the spec: [bayeux/session.cpp] is not among the
    sources.  "[subscribe(node_name, optional id)]: enqueue the acknowledgment
    through the registry": the notifications of one step of the
    handshake are enqueued as one batch. *)
Definition notify `{implementation} (s : t) (name : pubsub.node_name.t)
    (id : option value) (notifications : list pubsub.root.notification) : t :=
  enqueue s (concat (events_of s name id <$> notifications)).

(** Modelled from the spec: [bayeux/session.cpp] is not among the
    sources.  The subscription of [name] whose requests the adapter answers with
    [answers], one after the other. *)
Fixpoint answer_requests `{implementation} (s : t) (name : pubsub.node_name.t)
    (id : option value) (state : pubsub.root.subscription)
    (answers : list pubsub.root.answer) : pubsub.root.subscription * t :=
  match answers with
  | [] => (state, s)
  | a :: rest =>
      let '(state', notifications) := pubsub.root.step state a in
      answer_requests (notify s name id notifications) name id state' rest
  end.

(** Modelled from the spec: [bayeux/session.cpp] is not among the
    sources.  "[subscribe(node_name, optional id)]", with the answers the
    adapter gives to the requests of the registry. *)
Definition subscribe `{implementation} (s : t) (name : pubsub.node_name.t)
    (id : option value) (answers : list pubsub.root.answer)
  : pubsub.root.subscription * t :=
  answer_requests s name id (pubsub.root.awaiting pubsub.root.validation) answers.

(** The invariant of the spec: "[waiting_response] non-null implies
    [queue] is empty." *)
Definition parked_on_empty_queue (s : t) : Prop :=
  http_connection_ s <> None -> messages_ s = [].

(** ** The calls a session receives *)

(** The operations of a session, with their arguments. *)
Inductive operation : Type :=
| call_events
| call_wait_for_events (r : response)
| call_hurry
| call_timeout
| call_close
| call_on_update (name : pubsub.node_name.t) (n : pubsub.node.t)
| call_notify (name : pubsub.node_name.t) (id : option value)
    (notifications : list pubsub.root.notification).

(** The session after one call. *)
Definition perform `{implementation} (s : t) (o : operation) : t :=
  match o with
  | call_events => (events s).2
  | call_wait_for_events r => (wait_for_events s r).2
  | call_hurry => hurry s
  | call_timeout => timeout s
  | call_close => close s
  | call_on_update name n => on_update s name n
  | call_notify name id notifications => notify s name id notifications
  end.

(** The session after a history of calls. *)
Definition after `{implementation} (s : t) (history : list operation) : t :=
  foldl perform s history.

End session.

(** ** [class connector] ([bayeux/bayeux.cpp]) *)
Module connector.

(** A [session*]: the address of a session object. *)
Definition session_ptr : Type := nat.

(** [connector::session_data]; [timer_] is the state of the session's
    timer: whether a wait for its expiry is pending. *)
Record session_data : Type := {
  use_count_ : Z;
  remove_ : bool;
  session_ : session_ptr;
  timer_ : bool
}.

(** The maps of the connector.  An entry of [index_] holds the position
    of the session in [sessions_], which is its key there; [allocated_]
    counts the session objects created so far and gives the next one its
    address. *)
Record t : Type := {
  sessions_ : gmap string session_data;
  index_ : gmap session_ptr string;
  allocated_ : nat
}.

(** [connector::connector]. *)
Definition create : t := {| sessions_ := ∅; index_ := ∅; allocated_ := 0 |}.

Definition with_use_count (d : session_data) (use_count : Z) : session_data :=
  {| use_count_ := use_count; remove_ := remove_ d; session_ := session_ d;
     timer_ := timer_ d |}.

Definition with_timer (d : session_data) (pending : bool) : session_data :=
  {| use_count_ := use_count_ d; remove_ := remove_ d; session_ := session_ d;
     timer_ := pending |}.

(** [connector::find_session]. *)
Definition find_session (c : t) (session_id : string) : option session_ptr * t :=
  match sessions_ c !! session_id with
  | Some d =>
      (Some (session_ d),
       {| sessions_ := <[session_id := with_use_count d (to_unsigned (use_count_ d + 1))]>
                         (sessions_ c);
          index_ := index_ c; allocated_ := allocated_ c |})
  | None => (None, c)
  end.

(** [session_data::session_data]. *)
Definition new_session_data (session : session_ptr) : session_data :=
  {| use_count_ := 1; remove_ := false; session_ := session; timer_ := false |}.

(** [connector::create_session].  [generated] are the ids the session
    generator returns, call after call; the loop takes the first one
    that no session has, and goes on ([None]) as long as there is
    none. *)
Fixpoint create_session (c : t) (generated : list string) : option (session_ptr * t) :=
  match generated with
  | [] => None
  | session_id :: later =>
      match sessions_ c !! session_id with
      | Some _ => create_session c later
      | None =>
          let result := allocated_ c in
          Some (result,
                {| sessions_ := <[session_id := new_session_data result]> (sessions_ c);
                   index_ := <[result := session_id]> (index_ c);
                   allocated_ := S (allocated_ c) |})
      end
  end.

(** [connector::idle_session]; [None] is a failed assertion. *)
Definition idle_session (c : t) (session : session_ptr) : option t :=
  pos ← index_ c !! session;
  d ← sessions_ c !! pos;
  if use_count_ d >? 0 then
    let use_count := to_unsigned (use_count_ d - 1) in
    let d' := with_use_count d use_count in
    let d'' := if use_count =? 0 then with_timer d' true else d' in
    Some {| sessions_ := <[pos := d'']> (sessions_ c);
            index_ := index_ c; allocated_ := allocated_ c |}
  else None.

(** [connector::drop_session]. *)
Definition drop_session (c : t) (session_id : string) : t :=
  match sessions_ c !! session_id with
  | Some d =>
      if use_count_ d =? 0 then
        {| sessions_ := delete session_id (sessions_ c);
           index_ := delete (session_ d) (index_ c);
           allocated_ := allocated_ c |}
      else c
  | None => c
  end.

(** [connector::session_timeout_reached]; [ec] tells whether the wait
    ended with an error (it was cancelled). *)
Definition session_timeout_reached (c : t) (s : session_ptr) (ec : bool) : t :=
  if ec then c
  else
    match index_ c !! s with
    | Some pos =>
        match sessions_ c !! pos with
        | Some d =>
            if use_count_ d =? 0 then
              {| sessions_ := delete pos (sessions_ c);
                 index_ := delete s (index_ c);
                 allocated_ := allocated_ c |}
            else c
        | None => c
        end
    | None => c
    end.

(** The invariant of the two maps: every session of [sessions_] is indexed
    under its address, every entry of [index_] leads to the session with
    that address, and the addresses in use have been allocated. *)
Definition consistent (c : t) : Prop :=
  (forall session_id d, sessions_ c !! session_id = Some d ->
     index_ c !! session_ d = Some session_id)
  /\ (forall s session_id, index_ c !! s = Some session_id ->
        exists d, sessions_ c !! session_id = Some d /\ session_ d = s)
  /\ (forall s session_id, index_ c !! s = Some session_id -> (s < allocated_ c)%nat).

(** The calls a connector receives; [wait_completed] is the completion of
    the wait for a session's timer. *)
Inductive operation : Type :=
| call_find_session (session_id : string)
| call_create_session (generated : list string)
| call_idle_session (session : session_ptr)
| call_drop_session (session_id : string)
| wait_completed (s : session_ptr) (ec : bool).

(** The connector after one call; [None] when an assertion of
    [idle_session] fails or [create_session] finds no free id. *)
Definition perform (c : t) (o : operation) : option t :=
  match o with
  | call_find_session session_id => Some (find_session c session_id).2
  | call_create_session generated => snd <$> create_session c generated
  | call_idle_session session => idle_session c session
  | call_drop_session session_id => Some (drop_session c session_id)
  | wait_completed s ec => Some (session_timeout_reached c s ec)
  end.

(** The connector after a history of calls. *)
Fixpoint run (c : t) (history : list operation) : option t :=
  match history with
  | [] => Some c
  | o :: later => c' ← perform c o; run c' later
  end.

End connector.

End bayeux.

(* ===================================================================== *)
(** * Substrings ([tools/substring.h]) *)
(* ===================================================================== *)

Module tools.
Module substring.

(** The character [value_type()]. *)
Definition nul : ascii := "000"%char.

(** [basic_substring<const char*>]: two iterators, [begin_] and [end_],
    into a foreign buffer; an iterator is its position in the buffer. *)
Record t : Type := {
  buffer : list ascii;
  begin_ : nat;
  end_ : nat
}.

(** The iterators of a substring denote a range of its buffer. *)
Definition valid (s : t) : Prop :=
  (begin_ s <= end_ s)%nat /\ (end_ s <= length (buffer s))%nat.

(** The characters of the range. *)
Definition chars (s : t) : list ascii :=
  take (end_ s - begin_ s) (drop (begin_ s) (buffer s)).

(** [*i] for an iterator [i]. *)
Definition at_ (s : t) (i : nat) : ascii := default nul (buffer s !! i).

(** [basic_substring::basic_substring()]. *)
Definition empty_substring : t := {| buffer := []; begin_ := 0; end_ := 0 |}.

(** [basic_substring::basic_substring(begin, end)]. *)
Definition create (buffer : list ascii) (begin_ end_ : nat) : t :=
  {| buffer := buffer; begin_ := begin_; end_ := end_ |}.

(** [basic_substring::empty]. *)
Definition empty (s : t) : bool := (begin_ s =? end_ s)%nat.

(** [basic_substring::size]: [std::distance(begin_, end_)]. *)
Definition size (s : t) : nat := (end_ s - begin_ s)%nat.

(** The loop of [operator==(const basic_substring<Other>& rhs)]; it takes
    at most as many steps as the left range has characters, and gives the
    two iterators at which it stops. *)
Fixpoint equal_loop (steps : nat) (lhs : t) (lbegin : nat) (rhs : t) (rbegin : nat)
  : nat * nat :=
  match steps with
  | O => (lbegin, rbegin)
  | S steps' =>
      if negb (lbegin =? end_ lhs)%nat && negb (rbegin =? end_ rhs)%nat
         && Ascii.eqb (at_ lhs lbegin) (at_ rhs rbegin)
      then equal_loop steps' lhs (S lbegin) rhs (S rbegin)
      else (lbegin, rbegin)
  end.

(** [basic_substring::operator==(const basic_substring<Other>& rhs)]. *)
Definition equal (lhs rhs : t) : bool :=
  let '(lbegin, rbegin) :=
    equal_loop (end_ lhs - begin_ lhs) lhs (begin_ lhs) rhs (begin_ rhs) in
  (lbegin =? end_ lhs)%nat && (rbegin =? end_ rhs)%nat.

(** [basic_substring::operator!=(const basic_substring<Other>& rhs)]. *)
Definition not_equal (lhs rhs : t) : bool := negb (equal lhs rhs).

(** A [const value_type* rhs] is the memory it points to; [*rhs] is its
    first character, and the terminator where the memory ends. *)
Definition deref (rhs : list ascii) : ascii := default nul (head rhs).

(** The characters of a C string: those in front of the first [nul]. *)
Fixpoint c_string (rhs : list ascii) : list ascii :=
  match rhs with
  | [] => []
  | c :: rest => if Ascii.eqb c nul then [] else c :: c_string rest
  end.

(** The loop of [operator==(const value_type* rhs)]. *)
Fixpoint equal_c_loop (steps : nat) (s : t) (i : nat) (rhs : list ascii)
  : nat * list ascii :=
  match steps with
  | O => (i, rhs)
  | S steps' =>
      if negb (i =? end_ s)%nat && negb (Ascii.eqb (deref rhs) nul)
         && Ascii.eqb (at_ s i) (deref rhs)
      then equal_c_loop steps' s (S i) (tail rhs)
      else (i, rhs)
  end.

(** [basic_substring::operator==(const value_type* rhs)]. *)
Definition equal_c_str (s : t) (rhs : list ascii) : bool :=
  let '(i, rhs') := equal_c_loop (end_ s - begin_ s) s (begin_ s) rhs in
  (i =? end_ s)%nat && Ascii.eqb (deref rhs') nul.

(** [basic_substring::operator!=(const value_type* rhs)]. *)
Definition not_equal_c_str (s : t) (rhs : list ascii) : bool := negb (equal_c_str s rhs).

End substring.
End tools.

(* ===================================================================== *)
(** * The helpers of the Bayeux tests ([bayeux/bayeux_test.cpp]) *)
(* ===================================================================== *)

Module bayeux_test.
Import cxx json.

(** [count_fields]: the number of elements of [list] that are objects in
    which [field_name] has the value [value]; the counter is an
    [unsigned]. *)
Fixpoint count_fields_from (result : Z) (list : list json.value) (field_name : string)
    (value : json.value) : Z :=
  match list with
  | [] => result
  | element :: later =>
      let result :=
        match element with
        | object members =>
            match find field_name members with
            | Some value_found =>
                if value_eqb value_found value then to_unsigned (result + 1) else result
            | None => result
            end
        | _ => result
        end in
      count_fields_from result later field_name value
  end.

Definition count_fields (list : list json.value) (field_name : string) (value : json.value)
  : Z :=
  count_fields_from 0 list field_name value.

(** The loop of [occurences_in_range]: it goes on as long as [result] is
    true.  A response is the array of its messages ([i->second]);
    [field_value] is the value [json::parse_single_quoted] gives for the
    text of the caller. *)
Fixpoint occurences_loop (response : list (list json.value)) (field_name : string)
    (field_value : json.value) (min max : Z) (result : bool) : bool :=
  match response with
  | [] => result
  | i :: later =>
      if result then
        let count := count_fields i field_name field_value in
        occurences_loop later field_name field_value min max
          ((count >=? min) && (count <=? max))
      else result
  end.

(** [occurences_in_range]. *)
Definition occurences_in_range (response : list (list json.value)) (field_name : string)
    (field_value : json.value) (min max : Z) : bool :=
  occurences_loop response field_name field_value min max true.

(** [contains_at_least_once]. *)
Definition contains_at_least_once (response : list (list json.value))
    (field_name : string) (field_value : json.value) : bool :=
  occurences_in_range response field_name field_value 1 100000000.

(** [contains_not]. *)
Definition contains_not (response : list (list json.value)) (field_name : string)
    (field_value : json.value) : bool :=
  occurences_in_range response field_name field_value 0 0.

End bayeux_test.

(* ===================================================================== *)
(** * An implementation of the JSON interface and a platform *)
(* ===================================================================== *)

Module reference.
Import json.

(** The characters of a string as they stand in JSON text: the double
    quote and the backslash are escaped. *)
Definition backslash : ascii := "092"%char.

Fixpoint escape (s : string) : string :=
  match s with
  | EmptyString => EmptyString
  | String c rest =>
      if Ascii.eqb c quote || Ascii.eqb c backslash
      then String backslash (String c (escape rest))
      else String c (escape rest)
  end.

Definition text_of_number (n : Z) : string :=
  NilZero.string_of_int (Z.to_int n).

(** The compact JSON text of a value. *)
Fixpoint text (v : value) : string :=
  match v with
  | jstring s => quoted (escape s)
  | number n => text_of_number n
  | object members =>
      "{" +:+
      (fix members_text (ms : list (string * value)) : string :=
         match ms with
         | [] => EmptyString
         | [(k, x)] => quoted (escape k) +:+ ":" +:+ text x
         | (k, x) :: rest => quoted (escape k) +:+ ":" +:+ text x +:+ "," +:+ members_text rest
         end) members +:+ "}"
  | array elements =>
      "[" +:+
      (fix elements_text (xs : list value) : string :=
         match xs with
         | [] => EmptyString
         | [x] => text x
         | x :: rest => text x +:+ "," +:+ elements_text rest
         end) elements +:+ "]"
  | true_val => "true"
  | false_val => "false"
  | null => "null"
  end.

(** The update instruction is the new value, where it fits. *)
Definition replace_all (a b : value) (max_size : Z) : bool * value :=
  if Z.of_nat (String.length (text b)) <=? max_size then (true, b) else (false, null).

Definition compact : implementation :=
  {| size := fun v => String.length (text v);
     to_json := text;
     delta := replace_all |}.

(** A platform whose version counters have 32 bits, and one on which
    [boost::uint_fast32_t] has 64. *)
Definition ilp32 : cxx.platform := {| cxx.version_bits := 32; cxx.size_t_bits := 32 |}.
Definition lp64 : cxx.platform := {| cxx.version_bits := 64; cxx.size_t_bits := 64 |}.

End reference.

(* ===================================================================== *)
(** * Properties of the integer conversions *)
(* ===================================================================== *)

Section conversions.
Import cxx.

Lemma wrap_signed_small (bits x : Z) :
  0 < bits -> - 2 ^ (bits - 1) <= x < 2 ^ (bits - 1) -> wrap_signed bits x = x.
Proof.
  intros Hbits Hx. unfold wrap_signed.
  assert (Hpow : 2 ^ bits = 2 * 2 ^ (bits - 1)).
  { rewrite <- Z.pow_succ_r by lia. f_equal. lia. }
  rewrite Z.mod_small by lia. lia.
Qed.

Lemma static_cast_int_small (x : Z) :
  int_min <= x <= int_max -> static_cast_int x = x.
Proof.
  unfold int_min, int_max, static_cast_int. intros Hx.
  apply wrap_signed_small; [lia|]. change (32 - 1) with 31. lia.
Qed.

Lemma static_cast_int_fast64_small (x : Z) :
  - 2 ^ 63 <= x < 2 ^ 63 -> static_cast_int_fast64 x = x.
Proof.
  unfold static_cast_int_fast64. intros Hx.
  apply wrap_signed_small; [lia|]. change (64 - 1) with 63. lia.
Qed.

End conversions.

(* ===================================================================== *)
(** * Node versions *)
(* ===================================================================== *)

Section node_version_properties.
Import cxx pubsub.

(** The difference of two counters that the signed 64 bit type holds. *)
Lemma distance_cases (a b : node_version.t) :
  0 <= a < 2 ^ 63 -> 0 <= b < 2 ^ 63 ->
  node_version.distance a b =
    if a - b >? int_max then int_max
    else if a - b <? int_min then int_min
    else a - b.
Proof.
  intros Ha Hb. unfold node_version.distance.
  rewrite (static_cast_int_fast64_small a), (static_cast_int_fast64_small b) by lia.
  rewrite (static_cast_int_fast64_small (a - b)) by lia.
  unfold int_max, int_min.
  destruct (Z.gtb_spec (a - b) 0), (Z.gtb_spec (a - b) (2 ^ 31 - 1)),
    (Z.ltb_spec (a - b) 0), (Z.ltb_spec (a - b) (- 2 ^ 31));
    simpl; try reflexivity; try lia;
    apply static_cast_int_small; unfold int_max, int_min; lia.
Qed.

(** C9, as the code has it.  For two versions whose counters the signed
    64 bit type of the computation holds (all counters of a 32 bit
    [uint_fast32_t], and the counters below 2^63 of a wider one), [a - b]
    is the mathematical difference of the counters, saturated to the
    range of [int]: above [INT_MAX] it is [INT_MAX], below [INT_MIN] it is
    [INT_MIN]. *)
Theorem version_difference_saturates (a b : node_version.t) :
  0 <= a < 2 ^ 63 -> 0 <= b < 2 ^ 63 ->
  node_version.distance a b = Z.max int_min (Z.min int_max (a - b)).
Proof.
  intros Ha Hb. rewrite distance_cases by assumption.
  unfold int_max, int_min.
  destruct (Z.gtb_spec (a - b) (2 ^ 31 - 1)), (Z.ltb_spec (a - b) (- 2 ^ 31)); lia.
Qed.

Lemma version_difference_saturates_witness :
  node_version.distance (2 ^ 32 - 1) 0 = int_max
  /\ node_version.distance 0 (2 ^ 32 - 1) = int_min
  /\ node_version.distance 12 5 = 7.
Proof.
  split; [|split].
  - rewrite (version_difference_saturates (2 ^ 32 - 1) 0); [reflexivity|lia|lia].
  - rewrite (version_difference_saturates 0 (2 ^ 32 - 1)); [reflexivity|lia|lia].
  - rewrite (version_difference_saturates 12 5); [reflexivity|lia|lia].
Defined.

(** Every counter of a platform whose [uint_fast32_t] has at most 63 bits
    is in that range. *)
Lemma in_range_fits `{platform} (v : node_version.t) :
  version_bits <= 63 -> node_version.in_range v -> 0 <= v < 2 ^ 63.
Proof.
  unfold node_version.in_range. intros Hbits [Hlo Hhi]. split; [assumption|].
  eapply Z.lt_le_trans; [exact Hhi|].
  apply Z.pow_le_mono_r; lia.
Qed.

(** Where [uint_fast32_t] has 64 bits, a counter from 2^63 on is read as a
    negative number: the version before version 0 is one step behind
    it. *)
Example distance_of_a_wrapped_counter :
  node_version.decrement (H := reference.lp64) 0 1 = 2 ^ 64 - 1
  /\ node_version.distance (2 ^ 64 - 1) 0 = -1.
Proof. split; reflexivity. Qed.

(** C9, as it is stated, fails.  Where [boost::uint_fast32_t] has 64
    bits, [node_version(json::number(-1))] is the version with the
    counter 2^64 - 1.  The difference of this counter and of the counter
    0 is 2^64 - 1, which saturates to [INT_MAX]; [operator-] reads the
    counter as the signed number -1 and returns -1. *)
Lemma version_difference_of_a_large_counter :
  let a := node_version.from_number (H := reference.lp64) (-1) in
  let b := node_version.from_number (H := reference.lp64) 0 in
  a = 2 ^ 64 - 1 /\ b = 0
  /\ node_version.in_range (H := reference.lp64) a
  /\ node_version.in_range (H := reference.lp64) b
  /\ Z.max int_min (Z.min int_max (a - b)) = int_max
  /\ node_version.distance a b = -1
  /\ node_version.distance a b <> Z.max int_min (Z.min int_max (a - b)).
Proof.
  cbv zeta. split; [reflexivity|]. split; [reflexivity|].
  split; [split; [vm_compute; discriminate|vm_compute; reflexivity]|].
  split; [split; [vm_compute; discriminate|vm_compute; reflexivity]|].
  split; [reflexivity|]. split; [reflexivity|].
  vm_compute. discriminate.
Qed.

End node_version_properties.

(* ===================================================================== *)
(** * Nodes *)
(* ===================================================================== *)

Section node_properties.
Import cxx json pubsub.
Context `{implementation} `{platform}.

(** [operator==] holds between a value and itself. *)
Lemma value_eqb_refl (v : value) : value_eqb v v = true.
Proof.
  revert v. fix IH 1. intros [s|n|members|elements| | |]; simpl; try reflexivity.
  - apply String.eqb_refl.
  - apply Z.eqb_refl.
  - induction members as [|[k x] rest IHrest]; [reflexivity|].
    rewrite String.eqb_refl, IH, IHrest. reflexivity.
  - induction elements as [|x rest IHrest]; [reflexivity|].
    rewrite IH, IHrest. reflexivity.
Qed.

(** The copy of the last [d] elements of an array. *)
Lemma array_copy_last (elements : list value) (d : nat) :
  (d <= length elements)%nat ->
  array_copy elements d (length elements - d) = drop (length elements - d) elements
  /\ length (drop (length elements - d) elements) = d.
Proof.
  intros Hd. unfold array_copy. split.
  - apply take_ge. rewrite length_drop. lia.
  - rewrite length_drop. lia.
Qed.

(** What [get_update_from] returns, for a node whose ring has a length
    that [int] holds: if [known_version] lies within the ring, that is
    [0 < current_version - known_version <= ring length], then
    [get_update_from] returns [true] and the array of the last
    [current_version - known_version] deltas of the ring, in their order;
    otherwise it returns [false] and the current value. *)
Theorem get_update_from_ring (n : node.t) (known_version : node_version.t) :
  Z.of_nat (length (node.updates_ n)) <= int_max ->
  let distance := node_version.distance (node.current_version n) known_version in
  let ring := node.updates_ n in
  (0 < distance <= Z.of_nat (length ring) ->
     node.get_update_from n known_version
     = (true, array (drop (length ring - Z.to_nat distance) ring))
     /\ length (drop (length ring - Z.to_nat distance) ring) = Z.to_nat distance)
  /\ (~ 0 < distance <= Z.of_nat (length ring) ->
        node.get_update_from n known_version = (false, node.data n)).
Proof.
  intros Hlen. cbv zeta.
  unfold node.get_update_from, node.current_version, node.data.
  set (distance := node_version.distance (node.version_ n) known_version).
  set (ring := node.updates_ n) in *.
  assert (Hcast : static_cast_int (Z.of_nat (length ring)) = Z.of_nat (length ring)).
  { apply static_cast_int_small. unfold int_min. lia. }
  rewrite Hcast.
  split; intros Hd.
  - destruct (Z.leb_spec distance 0); [lia|].
    destruct (Z.gtb_spec distance (Z.of_nat (length ring))); [lia|]. cbn [orb].
    destruct (array_copy_last ring (Z.to_nat distance)) as [-> ->]; [lia|].
    split; reflexivity.
  - destruct (Z.leb_spec distance 0); [reflexivity|].
    destruct (Z.gtb_spec distance (Z.of_nat (length ring))); [reflexivity|lia].
Qed.

(** What [remove_old_versions] leaves of the ring is empty or within the
    budget. *)
Lemma remove_old_versions_budget (max_size : Z) (ring : list value) :
  node.remove_old_versions max_size ring = []
  \/ Z.of_nat (size (array (node.remove_old_versions max_size ring))) <= max_size.
Proof.
  induction ring as [|u ring IH]; simpl; [left; reflexivity|].
  unfold size_exceeds.
  destruct (Z.gtb_spec (Z.of_nat (size (array (u :: ring)))) max_size); [exact IH|].
  right. assumption.
Qed.

(** What [remove_old_versions] leaves is a suffix of the ring: the oldest
    updates go first. *)
Lemma remove_old_versions_suffix (max_size : Z) (ring : list value) :
  node.remove_old_versions max_size ring `suffix_of` ring.
Proof.
  induction ring as [|u ring IH]; simpl; [reflexivity|].
  destruct (size_exceeds (array (u :: ring)) max_size); [|reflexivity].
  apply suffix_cons_r, IH.
Qed.

(** C4.  An update with a value that is equal to the node's current value
    returns [false], and the node after the call is the node before it:
    value, version and ring are unchanged. *)
Theorem update_with_equal_value (n : node.t) (new_data : value) (percent : Z) :
  value_eqb new_data (node.data n) = true ->
  node.update n new_data percent = (false, n).
Proof.
  unfold node.update, node.data. intros ->. reflexivity.
Qed.

Corollary update_with_current_value (n : node.t) (percent : Z) :
  node.update n (node.data n) percent = (false, n).
Proof.
  unfold node.update, node.data. rewrite value_eqb_refl. reflexivity.
Qed.

(** C5, as the code has it.  The version of a node after an update: it is
    incremented when the new value differs from the current one, whether
    or not a delta is stored, and it is the version before the update when
    the two values are equal. *)
Theorem update_version (n : node.t) (new_data : value) (percent : Z) :
  node.current_version (node.update n new_data percent).2
  = if value_eqb new_data (node.data n)
    then node.current_version n
    else node_version.increment (node.current_version n).
Proof.
  unfold node.update, node.data, node.current_version.
  destruct (value_eqb new_data (node.data_ n)); reflexivity.
Qed.

(** An update with a different value returns [true] and stores the value. *)
Lemma update_with_new_value (n : node.t) (new_data : value) (percent : Z) :
  value_eqb new_data (node.data n) = false ->
  (node.update n new_data percent).1 = true
  /\ node.data (node.update n new_data percent).2 = new_data.
Proof.
  unfold node.update, node.data. intros ->. split; reflexivity.
Qed.

End node_properties.

Lemma get_update_from_ring_witness :
  let n := {| pubsub.node.data_ := json.number 3; pubsub.node.version_ := 12;
              pubsub.node.updates_ := [json.number 1; json.number 2; json.number 3] |} in
  pubsub.node.get_update_from n 10 = (true, json.array [json.number 2; json.number 3])
  /\ pubsub.node.get_update_from n 5 = (false, json.number 3).
Proof.
  intros n.
  assert (Hlength : Z.of_nat (length (pubsub.node.updates_ n)) <= cxx.int_max).
  { unfold cxx.int_max. simpl. lia. }
  assert (Hnear : pubsub.node_version.distance (pubsub.node.current_version n) 10 = 2)
    by reflexivity.
  assert (Hfar : pubsub.node_version.distance (pubsub.node.current_version n) 5 = 7)
    by reflexivity.
  destruct (get_update_from_ring n 10 Hlength) as [Hin _].
  destruct (get_update_from_ring n 5 Hlength) as [_ Hout].
  split.
  - destruct Hin as [Hin _]; [rewrite Hnear; simpl; lia|]. exact Hin.
  - apply Hout. rewrite Hfar. simpl. lia.
Defined.

Lemma update_with_equal_value_witness :
  let n := pubsub.node.create 7 (json.object [("data", json.number 1)]) in
  pubsub.node.update (H := reference.compact) (H0 := reference.ilp32)
    n (json.object [("data", json.number 1)]) 100 = (false, n).
Proof.
  intros n.
  apply (update_with_equal_value (H := reference.compact) (H0 := reference.ilp32)).
  reflexivity.
Defined.

(** C5, as it is stated, fails: the version of a node is the same after an
    update with the value the node has. *)
Lemma equal_value_keeps_version :
  let n := pubsub.node.create 7 (json.number 1) in
  let after := (pubsub.node.update (H := reference.compact) (H0 := reference.ilp32)
                  n (json.number 1) 100).2 in
  pubsub.node.current_version after = 7
  /\ pubsub.node.current_version after
     <> pubsub.node_version.increment (H := reference.ilp32) (pubsub.node.current_version n).
Proof.
  split; [reflexivity|]. vm_compute. discriminate.
Qed.

(* ===================================================================== *)
(** * The session connector *)
(* ===================================================================== *)

Section connector_properties.
Import cxx bayeux bayeux.connector.

(** [drop_session] removes the session from both maps if its use count
    is 0 at the time of the call, and only then. *)
Lemma drop_session_removes_iff_unused (c : connector.t) (session_id : string)
    (d : session_data) :
  sessions_ c !! session_id = Some d ->
  (sessions_ (drop_session c session_id) !! session_id = None <-> use_count_ d = 0).
Proof.
  intros Hd. unfold drop_session. rewrite Hd.
  destruct (Z.eqb_spec (use_count_ d) 0) as [Hzero|Hused]; simpl.
  - rewrite lookup_delete_eq. tauto.
  - rewrite Hd. split; [discriminate|contradiction].
Qed.

Lemma drop_session_unused_index (c : connector.t) (session_id : string)
    (d : session_data) :
  sessions_ c !! session_id = Some d -> use_count_ d = 0 ->
  index_ (drop_session c session_id) !! session_ d = None.
Proof.
  intros Hd Hzero. unfold drop_session. rewrite Hd, Hzero. simpl.
  apply lookup_delete_eq.
Qed.

(** A session in use is not touched by [drop_session]: the connector is
    as it was, and nothing records that the session was to be removed. *)
Lemma drop_session_in_use (c : connector.t) (session_id : string) (d : session_data) :
  sessions_ c !! session_id = Some d -> use_count_ d <> 0 ->
  drop_session c session_id = c.
Proof.
  intros Hd Hused. unfold drop_session. rewrite Hd.
  destruct (Z.eqb_spec (use_count_ d) 0); [contradiction|reflexivity].
Qed.

(** The idle transition after such a call keeps the session and starts
    the wait for the session timeout. *)
Lemma idle_after_drop_keeps_session (c : connector.t) (session_id : string)
    (d : session_data) :
  sessions_ c !! session_id = Some d ->
  index_ c !! session_ d = Some session_id ->
  use_count_ d = 1 ->
  exists c',
    idle_session (drop_session c session_id) (session_ d) = Some c'
    /\ sessions_ c' !! session_id
       = Some {| use_count_ := 0; remove_ := remove_ d; session_ := session_ d;
                 timer_ := true |}
    /\ index_ c' !! session_ d = Some session_id.
Proof.
  intros Hd Hindex Hcount.
  rewrite (drop_session_in_use c session_id d) by (assumption || lia).
  unfold idle_session. rewrite Hindex. simpl. rewrite Hd. simpl.
  rewrite Hcount. simpl. eexists. split; [reflexivity|]. simpl. split.
  - rewrite lookup_insert_eq. reflexivity.
  - assumption.
Qed.

(** The expiry of the timer is what removes an unused session. *)
Lemma session_timeout_removes_unused (c : connector.t) (s : session_ptr)
    (session_id : string) (d : session_data) :
  index_ c !! s = Some session_id ->
  sessions_ c !! session_id = Some d ->
  use_count_ d = 0 ->
  sessions_ (session_timeout_reached c s false) !! session_id = None
  /\ index_ (session_timeout_reached c s false) !! s = None.
Proof.
  intros Hindex Hd Hzero. unfold session_timeout_reached.
  rewrite Hindex, Hd, Hzero. simpl. split; apply lookup_delete_eq.
Qed.

(** ** The two maps stay consistent *)

Lemma create_consistent : consistent connector.create.
Proof.
  unfold consistent, connector.create. simpl.
  repeat split; intros; simplify_map_eq.
Qed.

Lemma update_session_consistent (c : connector.t) (session_id : string)
    (d d' : session_data) :
  consistent c -> sessions_ c !! session_id = Some d -> session_ d' = session_ d ->
  consistent {| sessions_ := <[session_id := d']> (sessions_ c);
                index_ := index_ c; allocated_ := allocated_ c |}.
Proof.
  intros (Hsessions & Hindex & Halloc) Hd Hsame.
  unfold consistent. simpl. split; [|split].
  - intros id' e He. destruct (decide (session_id = id')) as [<-|Hne].
    + rewrite lookup_insert_eq in He. injection He as <-. rewrite Hsame.
      apply Hsessions, Hd.
    + rewrite lookup_insert_ne in He by exact Hne. apply Hsessions, He.
  - intros s id' Hs. destruct (Hindex s id' Hs) as (e & He & Hes).
    destruct (decide (session_id = id')) as [<-|Hne].
    + exists d'. rewrite lookup_insert_eq. split; [reflexivity|]. congruence.
    + exists e. rewrite lookup_insert_ne by exact Hne. tauto.
  - exact Halloc.
Qed.

Lemma find_session_consistent (c : connector.t) (session_id : string) :
  consistent c -> consistent (find_session c session_id).2.
Proof.
  intros Hc. unfold find_session.
  destruct (sessions_ c !! session_id) as [d|] eqn:Hd; simpl; [|exact Hc].
  apply (update_session_consistent c session_id d); [exact Hc|exact Hd|reflexivity].
Qed.

Lemma idle_session_consistent (c c' : connector.t) (s : session_ptr) :
  consistent c -> idle_session c s = Some c' -> consistent c'.
Proof.
  intros Hc. unfold idle_session.
  destruct (index_ c !! s) as [pos|]; simpl; [|discriminate].
  destruct (sessions_ c !! pos) as [d|] eqn:Hd; simpl; [|discriminate].
  destruct (use_count_ d >? 0); [|discriminate]. intros Hc'. injection Hc' as <-.
  apply (update_session_consistent c pos d); [exact Hc|exact Hd|].
  destruct (to_unsigned (use_count_ d - 1) =? 0); reflexivity.
Qed.

Lemma remove_session_consistent (c : connector.t) (session_id : string)
    (d : session_data) :
  consistent c -> sessions_ c !! session_id = Some d ->
  consistent {| sessions_ := delete session_id (sessions_ c);
                index_ := delete (session_ d) (index_ c);
                allocated_ := allocated_ c |}.
Proof.
  intros (Hsessions & Hindex & Halloc) Hd.
  unfold consistent. simpl. split; [|split].
  - intros id' e He.
    apply lookup_delete_Some in He as [Hne He].
    rewrite lookup_delete_ne; [apply Hsessions, He|].
    intros Hsame. apply Hne.
    pose proof (Hsessions _ _ Hd) as H1. pose proof (Hsessions _ _ He) as H2.
    congruence.
  - intros s id' Hs. apply lookup_delete_Some in Hs as [Hne Hs].
    destruct (Hindex s id' Hs) as (e & He & Hes). exists e.
    rewrite lookup_delete_ne; [tauto|]. intros <-. congruence.
  - intros s id' Hs. apply lookup_delete_Some in Hs as [_ Hs]. eapply Halloc, Hs.
Qed.

Lemma drop_session_consistent (c : connector.t) (session_id : string) :
  consistent c -> consistent (drop_session c session_id).
Proof.
  intros Hc. unfold drop_session.
  destruct (sessions_ c !! session_id) as [d|] eqn:Hd; [|exact Hc].
  destruct (use_count_ d =? 0); [|exact Hc].
  apply remove_session_consistent; assumption.
Qed.

Lemma session_timeout_reached_consistent (c : connector.t) (s : session_ptr) (ec : bool) :
  consistent c -> consistent (session_timeout_reached c s ec).
Proof.
  intros Hc. unfold session_timeout_reached. destruct ec; [exact Hc|].
  destruct (index_ c !! s) as [pos|] eqn:Hs; [|exact Hc].
  destruct (sessions_ c !! pos) as [d|] eqn:Hd; [|exact Hc].
  destruct (use_count_ d =? 0); [|exact Hc].
  assert (Hsame : session_ d = s).
  { destruct Hc as (_ & Hindex & _). destruct (Hindex s pos Hs) as (e & He & <-).
    congruence. }
  rewrite <- Hsame. apply remove_session_consistent; assumption.
Qed.

Lemma create_session_consistent (generated : list string) (c c' : connector.t)
    (s : session_ptr) :
  consistent c -> create_session c generated = Some (s, c') -> consistent c'.
Proof.
  intros Hc. induction generated as [|session_id later IH]; simpl; [discriminate|].
  destruct (sessions_ c !! session_id) as [d|] eqn:Hd; [exact IH|].
  intros Hcreated. injection Hcreated as <- <-.
  destruct Hc as (Hsessions & Hindex & Halloc).
  unfold consistent. simpl. split; [|split].
  - intros id' e He. destruct (decide (session_id = id')) as [<-|Hne].
    + rewrite lookup_insert_eq in He. injection He as <-. simpl.
      apply lookup_insert_eq.
    + rewrite lookup_insert_ne in He by exact Hne.
      pose proof (Hsessions _ _ He) as Hi. pose proof (Halloc _ _ Hi) as Hlt.
      rewrite lookup_insert_ne by lia. exact Hi.
  - intros p id' Hp. destruct (decide (allocated_ c = p)) as [<-|Hne].
    + rewrite lookup_insert_eq in Hp. injection Hp as <-.
      eexists. rewrite lookup_insert_eq. split; reflexivity.
    + rewrite lookup_insert_ne in Hp by exact Hne.
      destruct (Hindex p id' Hp) as (e & He & Hes). exists e.
      rewrite lookup_insert_ne; [tauto|]. intros <-. congruence.
  - intros p id' Hp. destruct (decide (allocated_ c = p)) as [<-|Hne]; [lia|].
    rewrite lookup_insert_ne in Hp by exact Hne.
    pose proof (Halloc _ _ Hp). lia.
Qed.

End connector_properties.

(** C8, on a session in use.  A session is created (its use count is 1),
    dropped while still in use, and given back by its only user: after the
    idle transition the session is still in both maps, with use count 0 and
    with the wait for the session timeout pending; it is the expiry of the
    timer that removes it. *)
Theorem drop_session_in_use_waits_for_timeout :
  let session_id := "192.168.210.1:9999/0" in
  exists (s : bayeux.connector.session_ptr) (created idle : bayeux.connector.t),
    bayeux.connector.create_session bayeux.connector.create [session_id]
    = Some (s, created)
    /\ bayeux.connector.drop_session created session_id = created
    /\ bayeux.connector.idle_session
         (bayeux.connector.drop_session created session_id) s = Some idle
    /\ bayeux.connector.sessions_ idle !! session_id
       = Some {| bayeux.connector.use_count_ := 0; bayeux.connector.remove_ := false;
                 bayeux.connector.session_ := s; bayeux.connector.timer_ := true |}
    /\ bayeux.connector.index_ idle !! s = Some session_id
    /\ bayeux.connector.sessions_
         (bayeux.connector.session_timeout_reached idle s false) !! session_id = None.
Proof.
  intros session_id. eexists _, _, _.
  split; [reflexivity|].
  split; [vm_compute; reflexivity|].
  split; [vm_compute; reflexivity|].
  split; [vm_compute; reflexivity|].
  split; vm_compute; reflexivity.
Qed.

(* ===================================================================== *)
(** * Sessions *)
(* ===================================================================== *)

Section session_properties.
Import json bayeux bayeux.session.
Context `{implementation}.

(** ** The session and its waiting response *)

Lemma add_message_fields (s : session.t) (event : value) :
  http_connection_ (add_message s event) = http_connection_ s
  /\ calls_ (add_message s event) = calls_ s
  /\ config_ (add_message s event) = config_ s
  /\ session_id_ (add_message s event) = session_id_ s.
Proof. repeat split. Qed.

Lemma add_messages_fields (batch : list value) (s : session.t) :
  http_connection_ (foldl add_message s batch) = http_connection_ s
  /\ calls_ (foldl add_message s batch) = calls_ s
  /\ config_ (foldl add_message s batch) = config_ s
  /\ session_id_ (foldl add_message s batch) = session_id_ s
  /\ enqueued_ (foldl add_message s batch) = enqueued_ s ++ batch.
Proof.
  revert s. induction batch as [|event batch IH]; intros s; simpl.
  - rewrite app_nil_r. repeat split.
  - destruct (IH (add_message s event)) as (-> & -> & -> & -> & ->). simpl.
    rewrite <- app_assoc. repeat split.
Qed.

Lemma wake_parked (s : session.t) : parked_on_empty_queue (wake s).
Proof.
  unfold wake, parked_on_empty_queue.
  destruct (http_connection_ s) eqn:Hwaiting; simpl; [reflexivity|].
  rewrite Hwaiting. contradiction.
Qed.

Lemma enqueue_parked (s : session.t) (batch : list value) :
  parked_on_empty_queue s -> parked_on_empty_queue (enqueue s batch).
Proof.
  intros Hs. destruct batch as [|event batch]; [exact Hs|]. apply wake_parked.
Qed.

Lemma perform_parked (s : session.t) (o : operation) :
  parked_on_empty_queue s -> parked_on_empty_queue (perform s o).
Proof.
  intros Hs. destruct o as [|r| | | |name n|name id notifications]; simpl.
  - intros _. reflexivity.
  - unfold wait_for_events. destruct (messages_ s) eqn:Hqueue; simpl.
    + intros _. reflexivity.
    + intros _. reflexivity.
  - apply wake_parked.
  - unfold timeout, parked_on_empty_queue.
    destruct (http_connection_ s) eqn:Hwaiting; simpl; [contradiction|].
    rewrite Hwaiting. contradiction.
  - intros _. reflexivity.
  - apply enqueue_parked, Hs.
  - apply enqueue_parked, Hs.
Qed.

(** The invariant holds whatever the history of a session is. *)
Lemma after_parked (history : list operation) (s : session.t) :
  parked_on_empty_queue s -> parked_on_empty_queue (after s history).
Proof.
  revert s. induction history as [|o history IH]; intros s Hs; simpl.
  - exact Hs.
  - apply IH, perform_parked, Hs.
Qed.

Lemma create_parked (session_id : string) (config : configuration) :
  parked_on_empty_queue (create session_id config).
Proof. intros _. reflexivity. Qed.

(** C1.  At any time of a session's life there is at most one waiting
    response, the one in [http_connection_].  When [wait_for_events] is
    called while a prior response is waiting, the call returns no events,
    the prior response is notified with [second_connection_detected], it
    is the one call the session makes, and the new response is the waiting
    response from then on. *)
Theorem second_connection_detected_once (session_id : string) (config : configuration)
    (history : list operation) (prior r : response) :
  let s := after (create session_id config) history in
  http_connection_ s = Some prior ->
  (wait_for_events s r).1 = []
  /\ http_connection_ (wait_for_events s r).2 = Some r
  /\ calls_ (wait_for_events s r).2 = calls_ s ++ [(prior, second_connection_detected)]
  /\ messages_ (wait_for_events s r).2 = [].
Proof.
  intros s Hprior.
  assert (Hqueue : messages_ s = []).
  { apply (after_parked history (create session_id config)).
    - apply create_parked.
    - fold s. rewrite Hprior. discriminate. }
  unfold wait_for_events. rewrite Hqueue, Hprior. repeat split.
Qed.

(** ** The caps of the queue *)

Lemma total_size_app (l k : list value) :
  total_size (l ++ k) = (total_size l + total_size k)%nat.
Proof. unfold total_size. apply sum_list_with_app. Qed.

Lemma within_caps_spec (config : configuration) (q : list value) :
  within_caps config q = true
  <-> (length q <= max_messages_per_client config)%nat
      /\ (total_size q <= max_messages_size_per_client config)%nat.
Proof.
  unfold within_caps. rewrite andb_true_iff, !Nat.leb_le. reflexivity.
Qed.

Lemma within_caps_app_l (config : configuration) (l k : list value) :
  within_caps config (l ++ k) = true -> within_caps config l = true.
Proof.
  rewrite !within_caps_spec, length_app, total_size_app. lia.
Qed.

Lemma within_caps_app_r (config : configuration) (l k : list value) :
  within_caps config (l ++ k) = true -> within_caps config k = true.
Proof.
  rewrite !within_caps_spec, length_app, total_size_app. lia.
Qed.

Lemma within_caps_nil (config : configuration) : within_caps config [] = true.
Proof. apply within_caps_spec. simpl. unfold total_size. simpl. lia. Qed.

(** What [drop_oldest] keeps is a suffix of the queue, ... *)
Lemma drop_oldest_suffix (config : configuration) (q : list value) :
  drop_oldest config q `suffix_of` q.
Proof.
  induction q as [|x q IH]; simpl; [reflexivity|].
  destruct (within_caps config (x :: q)); [reflexivity|].
  apply suffix_cons_r, IH.
Qed.

(** ... it is within both caps, ... *)
Lemma drop_oldest_within (config : configuration) (q : list value) :
  within_caps config (drop_oldest config q) = true.
Proof.
  induction q as [|x q IH]; simpl; [apply within_caps_nil|].
  destruct (within_caps config (x :: q)) eqn:Hq; [exact Hq|exact IH].
Qed.

(** ... and no longer suffix of the queue is. *)
Lemma drop_oldest_longest (config : configuration) (q kept : list value) :
  kept `suffix_of` q -> within_caps config kept = true ->
  kept `suffix_of` drop_oldest config q.
Proof.
  induction q as [|x q IH]; intros Hsuffix Hkept; simpl; [exact Hsuffix|].
  destruct (within_caps config (x :: q)) eqn:Hq; [exact Hsuffix|].
  destruct kept as [|k kept]; [apply suffix_nil|].
  apply suffix_cons_inv in Hsuffix as [Heq|Hsuffix]; [congruence|].
  apply IH; assumption.
Qed.

Lemma drop_oldest_fixed (config : configuration) (q : list value) :
  within_caps config q = true -> drop_oldest config q = q.
Proof.
  destruct q as [|x q]; simpl; [reflexivity|]. intros ->. reflexivity.
Qed.

(** Dropping on every enqueue keeps what dropping once at the end keeps. *)
Lemma drop_oldest_app (config : configuration) (q later : list value) :
  drop_oldest config (drop_oldest config q ++ later) = drop_oldest config (q ++ later).
Proof.
  induction q as [|x q IH]; [reflexivity|].
  cbn [drop_oldest].
  destruct (within_caps config (x :: q)) eqn:Hq; [reflexivity|].
  rewrite IH. change ((x :: q) ++ later) with (x :: (q ++ later)).
  cbn [drop_oldest].
  destruct (within_caps config (x :: q ++ later)) eqn:Hall; [|reflexivity].
  apply (within_caps_app_l config (x :: q) later) in Hall. congruence.
Qed.

Lemma messages_add_messages (batch : list value) (s : session.t) :
  batch <> [] ->
  messages_ (foldl add_message s batch)
  = drop_oldest (config_ s) (messages_ s ++ batch).
Proof.
  revert s. induction batch as [|event batch IH]; intros s Hbatch; [contradiction|].
  simpl. destruct batch as [|next batch]; [reflexivity|].
  rewrite IH by discriminate. simpl.
  rewrite drop_oldest_app, <- app_assoc. reflexivity.
Qed.

(** Without a waiting response, an enqueue only appends to the queue. *)
Lemma enqueue_unparked (s : session.t) (batch : list value) :
  http_connection_ s = None -> enqueue s batch = foldl add_message s batch.
Proof.
  intros Hnone. destruct batch as [|event batch]; [reflexivity|].
  unfold enqueue, wake.
  destruct (add_messages_fields (event :: batch) s) as (-> & _).
  rewrite Hnone. reflexivity.
Qed.

Lemma enqueue_each_unparked (events : list value) (s : session.t) :
  http_connection_ s = None ->
  foldl (fun s e => enqueue s [e]) s events = foldl add_message s events.
Proof.
  revert s. induction events as [|e events IH]; intros s Hnone; [reflexivity|].
  cbn [foldl]. rewrite (enqueue_unparked s [e] Hnone). apply IH. exact Hnone.
Qed.

(** The queue of a session is within both caps, whatever calls the
    session has received. *)
Lemma perform_config (s : session.t) (o : operation) :
  config_ (perform s o) = config_ s.
Proof.
  assert (Hwake : forall s', config_ (wake s') = config_ s').
  { intros s'. unfold wake. destruct (http_connection_ s'); reflexivity. }
  assert (Henqueue : forall batch, config_ (enqueue s batch) = config_ s).
  { intros [|e batch]; [reflexivity|]. unfold enqueue. rewrite Hwake.
    apply add_messages_fields. }
  destruct o; simpl; try reflexivity; try apply Hwake; try apply Henqueue.
  - unfold wait_for_events. destruct (messages_ s); reflexivity.
  - unfold timeout. destruct (http_connection_ s); reflexivity.
  - unfold close, timeout. destruct (http_connection_ s); reflexivity.
Qed.

Lemma wake_within_caps (s : session.t) :
  within_caps (config_ s) (messages_ s) = true ->
  within_caps (config_ (wake s)) (messages_ (wake s)) = true.
Proof.
  unfold wake. destruct (http_connection_ s); simpl; [|tauto].
  intros _. apply within_caps_nil.
Qed.

Lemma enqueue_within_caps (s : session.t) (batch : list value) :
  within_caps (config_ s) (messages_ s) = true ->
  within_caps (config_ (enqueue s batch)) (messages_ (enqueue s batch)) = true.
Proof.
  intros Hs. destruct batch as [|e batch]; [exact Hs|].
  unfold enqueue. apply wake_within_caps.
  rewrite messages_add_messages by discriminate.
  destruct (add_messages_fields (e :: batch) s) as (_ & _ & -> & _).
  apply drop_oldest_within.
Qed.

Lemma perform_within_caps (s : session.t) (o : operation) :
  within_caps (config_ s) (messages_ s) = true ->
  within_caps (config_ (perform s o)) (messages_ (perform s o)) = true.
Proof.
  intros Hs. destruct o; simpl.
  - apply within_caps_nil.
  - unfold wait_for_events. destruct (messages_ s); apply within_caps_nil.
  - apply wake_within_caps, Hs.
  - unfold timeout. destruct (http_connection_ s); exact Hs.
  - apply within_caps_nil.
  - apply enqueue_within_caps, Hs.
  - apply enqueue_within_caps, Hs.
Qed.

Lemma after_within_caps (history : list operation) (session_id : string)
    (config : configuration) :
  let s := after (create session_id config) history in
  (length (messages_ s) <= max_messages_per_client config)%nat
  /\ (total_size (messages_ s) <= max_messages_size_per_client config)%nat.
Proof.
  intros s. apply within_caps_spec.
  assert (Hgen : forall s0, within_caps (config_ s0) (messages_ s0) = true ->
                   within_caps (config_ s0) (messages_ (after s0 history)) = true
                   /\ config_ (after s0 history) = config_ s0).
  { induction history as [|o history IH]; intros s0 Hs0; simpl; [tauto|].
    destruct (IH (perform s0 o)) as [Hcaps Hconfig].
    - apply perform_within_caps, Hs0.
    - rewrite perform_config in *. tauto. }
  apply (Hgen (create session_id config)). apply within_caps_nil.
Qed.

(** C2.  Events are enqueued, one after the other, on a session with an
    empty queue on which no response waits.  Then the queue holds at most
    [max_messages_per_client] events, their summed size is at most
    [max_messages_size_per_client], and the queue is the longest suffix of
    the enqueued events that is within both caps: the oldest events were
    dropped.  In particular, with [max_messages_per_client = 2] and a
    size cap that admits the last two of three events, draining the queue
    yields exactly the second and the third event, in that order. *)
Theorem queue_is_capped (s : session.t) (enqueued : list value) :
  http_connection_ s = None -> messages_ s = [] ->
  let s' := foldl (fun s e => enqueue s [e]) s enqueued in
  let K := max_messages_per_client (config_ s) in
  let S := max_messages_size_per_client (config_ s) in
  (length (messages_ s') <= K)%nat
  /\ (total_size (messages_ s') <= S)%nat
  /\ messages_ s' `suffix_of` enqueued
  /\ (forall kept, kept `suffix_of` enqueued ->
        (length kept <= K)%nat -> (total_size kept <= S)%nat ->
        kept `suffix_of` messages_ s')
  /\ (forall e1 e2 e3, enqueued = [e1; e2; e3] -> K = 2%nat ->
        (size e2 + size e3 <= S)%nat -> (events s').1 = [e2; e3]).
Proof.
  intros Hnone Hempty. cbv zeta.
  rewrite enqueue_each_unparked by exact Hnone.
  assert (Hqueue : messages_ (foldl add_message s enqueued)
                   = drop_oldest (config_ s) enqueued).
  { destruct enqueued as [|e enqueued]; [exact Hempty|].
    rewrite messages_add_messages by discriminate. rewrite Hempty. reflexivity. }
  rewrite Hqueue.
  pose proof (drop_oldest_within (config_ s) enqueued) as Hwithin.
  apply within_caps_spec in Hwithin as [Hcount Hsize].
  split; [exact Hcount|]. split; [exact Hsize|].
  split; [apply drop_oldest_suffix|].
  split.
  - intros kept Hsuffix Hk Hs. apply drop_oldest_longest; [exact Hsuffix|].
    apply within_caps_spec. split; assumption.
  - intros e1 e2 e3 -> HK HS. unfold events. cbn [fst]. rewrite Hqueue.
    cbn [drop_oldest].
    assert (Hthree : within_caps (config_ s) [e1; e2; e3] = false).
    { apply not_true_iff_false. rewrite within_caps_spec. simpl. lia. }
    assert (Htwo : within_caps (config_ s) [e2; e3] = true).
    { apply within_caps_spec. unfold total_size. simpl. lia. }
    rewrite Hthree, Htwo. reflexivity.
Qed.

End session_properties.

Lemma second_connection_detected_once_witness :
  let s := bayeux.session.after (H := reference.compact)
             (bayeux.session.create "sss"
                {| bayeux.session.max_messages_per_client := 10%nat;
                   bayeux.session.max_messages_size_per_client := 1000%nat |})
             [bayeux.session.call_wait_for_events 1%nat] in
  bayeux.session.http_connection_ s = Some 1%nat
  /\ bayeux.session.http_connection_ (bayeux.session.wait_for_events s 2%nat).2 = Some 2%nat
  /\ bayeux.session.calls_ (bayeux.session.wait_for_events s 2%nat).2
     = [(1%nat, bayeux.session.second_connection_detected)].
Proof.
  intros s. split; [reflexivity|].
  destruct (second_connection_detected_once (H := reference.compact) "sss"
              {| bayeux.session.max_messages_per_client := 10%nat;
                 bayeux.session.max_messages_size_per_client := 1000%nat |}
              [bayeux.session.call_wait_for_events 1%nat] 1%nat 2%nat)
    as (_ & Hwaiting & Hcalls & _); [reflexivity|].
  split; [exact Hwaiting|exact Hcalls].
Defined.

Lemma queue_is_capped_witness :
  let config := {| bayeux.session.max_messages_per_client := 2%nat;
                   bayeux.session.max_messages_size_per_client := 1000%nat |} in
  let node_1 := [{| pubsub.key.domain := "a"; pubsub.key.value := "b" |}] in
  let update (n : Z) :=
    bayeux.session.update_message node_1 (json.object [("data", json.number n)]) in
  let s := foldl (fun s e => bayeux.session.enqueue (H := reference.compact) s [e])
             (bayeux.session.create "sss" config) [update 1; update 2; update 3] in
  (bayeux.session.events s).1
  = [json.object [("channel", json.jstring "/a/b"); ("data", json.number 2)];
     json.object [("channel", json.jstring "/a/b"); ("data", json.number 3)]].
Proof.
  intros config node_1 update s.
  destruct (queue_is_capped (H := reference.compact)
              (bayeux.session.create "sss" config) [update 1; update 2; update 3])
    as (_ & _ & _ & _ & Hlast); [reflexivity|reflexivity|].
  apply (Hlast (update 1) (update 2) (update 3)).
  - reflexivity.
  - reflexivity.
  - vm_compute. lia.
Defined.

(* ===================================================================== *)
(** * Subscriptions of a session *)
(* ===================================================================== *)

Section subscription_properties.
Import json pubsub.root bayeux bayeux.session.
Context `{implementation}.

Lemma find_add_eq (name : string) (val : value) (members : list (string * value)) :
  find name (add name val members) = Some val.
Proof.
  induction members as [|[k v] rest IH]; simpl.
  - rewrite String.eqb_refl. reflexivity.
  - destruct (String.eqb_spec name k) as [->|Hne]; simpl.
    + rewrite String.eqb_refl. reflexivity.
    + destruct (String.ltb name k); simpl.
      * rewrite String.eqb_refl. reflexivity.
      * destruct (String.eqb_spec name k); [contradiction|exact IH].
Qed.

Lemma find_add_ne (key name : string) (val : value) (members : list (string * value)) :
  key <> name -> find key (add name val members) = find key members.
Proof.
  intros Hne. induction members as [|[k v] rest IH]; simpl.
  - destruct (String.eqb_spec key name); [contradiction|reflexivity].
  - destruct (String.eqb_spec name k) as [->|Hk]; simpl.
    + destruct (String.eqb_spec key k); [contradiction|reflexivity].
    + destruct (String.ltb name k); simpl.
      * destruct (String.eqb_spec key name); [contradiction|reflexivity].
      * destruct (String.eqb_spec key k); [reflexivity|exact IH].
Qed.


(** The fields of the acknowledgment of a subscription. *)
Lemma success_reply_fields (s : session.t) (name : pubsub.node_name.t) (id : option value) :
  exists message,
    subscribe_reply s name id None = object message
    /\ find "channel" message = Some (jstring "/meta/subscribe")
    /\ find "clientId" message = Some (jstring (session_id_ s))
    /\ find "subscription" message = Some (jstring (node_channel_from_name name))
    /\ find "successful" message = Some true_val
    /\ find "error" message = None.
Proof.
  unfold subscribe_reply. eexists. split; [reflexivity|].
  destruct id as [i|]; unfold add_id;
    repeat split;
    repeat first [ rewrite find_add_eq; reflexivity
                 | rewrite find_add_ne by discriminate
                 | reflexivity ].
Qed.

(** The fields of the update event of a value that carries [data]. *)
Lemma update_message_fields (name : pubsub.node_name.t) (members : list (string * value))
    (data : value) :
  find "data" members = Some data ->
  exists message,
    update_message name (object members) = object message
    /\ find "channel" message = Some (jstring (node_channel_from_name name))
    /\ find "data" message = Some data.
Proof.
  intros Hdata. unfold update_message. rewrite Hdata. eexists. split; [reflexivity|].
  unfold add_id. destruct (find "id" members);
    repeat split;
    repeat first [ rewrite find_add_eq; reflexivity
                 | rewrite find_add_ne by discriminate ].
Qed.

(** What a waiting response is handed when a batch is enqueued. *)
Lemma enqueue_parked_calls (s : session.t) (batch : list value) (waiting : response) :
  http_connection_ s = Some waiting -> messages_ s = [] -> batch <> [] ->
  calls_ (enqueue s batch)
  = calls_ s ++ [(waiting, messages (drop_oldest (config_ s) batch))]
  /\ http_connection_ (enqueue s batch) = None
  /\ messages_ (enqueue s batch) = [].
Proof.
  intros Hwaiting Hempty Hbatch.
  destruct batch as [|e batch]; [contradiction|].
  unfold enqueue, wake.
  destruct (add_messages_fields (e :: batch) s) as (Hconnection & Hcalls & _).
  rewrite Hconnection, Hwaiting. cbn [calls_ http_connection_ messages_].
  rewrite Hcalls.
  rewrite (messages_add_messages (e :: batch) s) by discriminate.
  rewrite Hempty. repeat split.
Qed.

(** ** What the subscriber is delivered *)

(** A batch that the caps admit stays whole at the end of the queue; in
    front of it are the youngest of the events that were queued. *)
Lemma drop_oldest_keeps (config : configuration) (queue batch : list value) :
  within_caps config batch = true ->
  exists earlier,
    drop_oldest config (queue ++ batch) = earlier ++ batch
    /\ earlier `suffix_of` queue.
Proof.
  intros Hbatch. induction queue as [|x queue IH].
  - exists []. split; [apply drop_oldest_fixed, Hbatch|reflexivity].
  - change ((x :: queue) ++ batch) with (x :: (queue ++ batch)). cbn [drop_oldest].
    destruct (within_caps config (x :: queue ++ batch)).
    + exists (x :: queue). split; reflexivity.
    + destruct IH as (earlier & Hkept & Hsuffix).
      exists earlier. split; [exact Hkept|]. apply suffix_cons_r, Hsuffix.
Qed.

(** A batch that the caps admit reaches the subscriber whole and in its
    order: it ends what [events] and [wait_for_events] return next, or it
    is what the waiting response is woken with. *)
Lemma enqueue_delivers (s : session.t) (batch : list value) :
  batch <> [] -> within_caps (config_ s) batch = true -> parked_on_empty_queue s ->
  (http_connection_ s = None ->
     exists earlier,
       (events (enqueue s batch)).1 = earlier ++ batch
       /\ earlier `suffix_of` messages_ s
       /\ forall r, (wait_for_events (enqueue s batch) r).1 = earlier ++ batch)
  /\ (forall waiting, http_connection_ s = Some waiting ->
        calls_ (enqueue s batch) = calls_ s ++ [(waiting, messages batch)]
        /\ messages_ (enqueue s batch) = []).
Proof.
  intros Hbatch Hcaps Hparked. split.
  - intros Hnone. rewrite (enqueue_unparked s batch Hnone).
    destruct (drop_oldest_keeps (config_ s) (messages_ s) batch Hcaps)
      as (earlier & Hkept & Hsuffix).
    exists earlier. unfold wait_for_events, events. cbn [fst].
    rewrite (messages_add_messages batch s Hbatch), Hkept.
    split; [reflexivity|]. split; [exact Hsuffix|].
    intros r. destruct (earlier ++ batch) as [|e rest] eqn:Hqueue; [|reflexivity].
    apply app_eq_nil in Hqueue as [_ Hnil]. contradiction.
  - intros waiting Hwaiting.
    assert (Hempty : messages_ s = []).
    { apply Hparked. rewrite Hwaiting. discriminate. }
    destruct (enqueue_parked_calls s batch waiting Hwaiting Hempty Hbatch)
      as (Hcalls & _ & Hqueue).
    rewrite Hcalls, (drop_oldest_fixed _ _ Hcaps). split; [reflexivity|exact Hqueue].
Qed.

Lemma after_config (history : list operation) (s : session.t) :
  config_ (after s history) = config_ s.
Proof.
  revert s. induction history as [|o history IH]; intros s; simpl; [reflexivity|].
  rewrite IH. apply perform_config.
Qed.

(** ** The handshake with the adapter *)

(** A request is outstanding only after steps that notify nobody. *)
Lemma step_awaiting (state : subscription) (a : answer) (r : request) :
  (step state a).1 = awaiting r -> (step state a).2 = [].
Proof.
  destruct state as [[| |]| |], a as [[|]|[|]|initial_value| |]; simpl;
    try discriminate; reflexivity.
Qed.

(** A handshake that has ended takes no further answer. *)
Lemma step_settled (state : subscription) (a : answer) :
  state = established \/ state = refused -> step state a = (state, []).
Proof. intros [->| ->]; destruct a as [[|]|[|]|initial_value| |]; reflexivity. Qed.

Lemma step_settles (state : subscription) (a : answer) :
  (exists r, (step state a).1 = awaiting r)
  \/ (step state a).1 = established \/ (step state a).1 = refused.
Proof. destruct (step state a).1 as [r| |]; eauto. Qed.

Lemma run_settled (answers : list answer) (state : subscription) :
  state = established \/ state = refused -> (run state answers).1 = state.
Proof.
  intros Hstate. induction answers as [|a answers IH]; [reflexivity|].
  cbn [run]. rewrite (step_settled state a Hstate).
  destruct (run state answers) as [state' out]. exact IH.
Qed.

Lemma run_cons (state : subscription) (a : answer) (answers : list answer) :
  (run state (a :: answers)).1 = (run (step state a).1 answers).1.
Proof.
  cbn [run]. destruct (step state a) as [state' out]. cbn [fst].
  destruct (run state' answers) as [state'' out']. reflexivity.
Qed.

(** As long as a request is outstanding the session has been handed
    nothing. *)
Lemma answer_requests_awaiting (name : pubsub.node_name.t) (id : option value)
    (answers : list answer) :
  forall (state : subscription) (s : session.t) (r : request),
    (run state answers).1 = awaiting r ->
    answer_requests s name id state answers = (awaiting r, s).
Proof.
  induction answers as [|a answers IH]; intros state s r Hrun.
  - simpl in Hrun. rewrite Hrun. reflexivity.
  - rewrite run_cons in Hrun. cbn [answer_requests].
    destruct (step_settles state a) as [[r0 Hnext]|Hsettled].
    + pose proof (step_awaiting state a r0 Hnext) as Hout.
      destruct (step state a) as [state' out]. simpl in Hnext, Hout. subst.
      apply IH. exact Hrun.
    + rewrite (run_settled answers _ Hsettled) in Hrun.
      destruct Hsettled as [Hsettled|Hsettled]; rewrite Hsettled in Hrun; discriminate.
Qed.

(** After the handshake has ended the session is handed nothing more. *)
Lemma answer_requests_settled (name : pubsub.node_name.t) (id : option value)
    (answers : list answer) (state : subscription) (s : session.t) :
  state = established \/ state = refused ->
  answer_requests s name id state answers = (state, s).
Proof.
  intros Hstate. induction answers as [|a answers IH]; [reflexivity|].
  cbn [answer_requests]. rewrite (step_settled state a Hstate). exact IH.
Qed.

Lemma answer_requests_app (name : pubsub.node_name.t) (id : option value)
    (before later : list answer) :
  forall (state : subscription) (s : session.t),
    answer_requests s name id state (before ++ later)
    = answer_requests (answer_requests s name id state before).2 name id
        (answer_requests s name id state before).1 later.
Proof.
  induction before as [|a before IH]; intros state s; [reflexivity|].
  cbn [app answer_requests]. destruct (step state a) as [state' out]. apply IH.
Qed.

(** The answer that ends a handshake: the session is handed the events of
    that step, as one batch, and nothing before or after it. *)
Lemma subscribe_settles (s : session.t) (name : pubsub.node_name.t) (id : option value)
    (before later : list answer) (r : request) (a : answer) :
  (pubsub.root.subscribe before).1 = awaiting r ->
  (step (awaiting r) a).1 = established \/ (step (awaiting r) a).1 = refused ->
  subscribe s name id (before ++ a :: later)
  = ((step (awaiting r) a).1, notify s name id (step (awaiting r) a).2).
Proof.
  intros Hbefore Hsettled. unfold subscribe.
  rewrite answer_requests_app.
  rewrite (answer_requests_awaiting name id before _ s r Hbefore).
  cbn [fst snd answer_requests].
  destruct (step (awaiting r) a) as [state' out]. cbn [fst snd] in *.
  apply answer_requests_settled, Hsettled.
Qed.


(** C6, as the model has it.  A session in any state it reaches, and a
    subscription whose handshake waits for the initialization, after
    whatever answers came before.  When the adapter answers with an
    initial value that is an object with the field [data], the handshake
    ends established and the session is handed one batch: the
    acknowledgment and the update event of that value, on the channel of
    the subscription.  Where the caps of the session admit the two
    events, they are delivered next to each other, the acknowledgment
    first: they are the last two events of what [events] and
    [wait_for_events] return next, or they are the events with which the
    waiting response is woken. *)
Theorem subscription_ack_precedes_initial_data (session_id : string)
    (config : configuration) (history : list operation) (name : pubsub.node_name.t)
    (id : option value) (before later : list answer) (members : list (string * value))
    (data : value) :
  let s := after (create session_id config) history in
  let ack := subscribe_reply s name id None in
  let update := update_message name (object members) in
  let outcome :=
    subscribe s name id
      (before ++ answer_initialization_request (object members) :: later) in
  (pubsub.root.subscribe before).1 = awaiting initialization ->
  find "data" members = Some data ->
  within_caps config [ack; update] = true ->
  outcome.1 = established
  /\ (exists message,
        ack = object message
        /\ find "channel" message = Some (jstring "/meta/subscribe")
        /\ find "subscription" message = Some (jstring (node_channel_from_name name))
        /\ find "successful" message = Some true_val)
  /\ (exists message,
        update = object message
        /\ find "channel" message = Some (jstring (node_channel_from_name name))
        /\ find "data" message = Some data)
  /\ (http_connection_ s = None ->
      exists earlier,
        (events outcome.2).1 = earlier ++ [ack; update]
        /\ earlier `suffix_of` messages_ s
        /\ forall response,
             (wait_for_events outcome.2 response).1 = earlier ++ [ack; update])
  /\ (forall waiting, http_connection_ s = Some waiting ->
        calls_ outcome.2 = calls_ s ++ [(waiting, messages [ack; update])]
        /\ messages_ outcome.2 = []).
Proof.
  intros s ack update outcome Hbefore Hdata Hcaps.
  assert (Houtcome : outcome = (established, enqueue s [ack; update])).
  { unfold outcome.
    rewrite (subscribe_settles s name id before later initialization _ Hbefore)
      by (left; reflexivity).
    reflexivity. }
  rewrite Houtcome. cbn [fst snd].
  split; [reflexivity|].
  split.
  { destruct (success_reply_fields s name id) as (message & Hack & Hchannel & _ & Hsub & Hok & _).
    exists message. repeat split; assumption. }
  split; [apply update_message_fields, Hdata|].
  apply enqueue_delivers.
  - discriminate.
  - unfold s. rewrite after_config. exact Hcaps.
  - apply after_parked, create_parked.
Qed.

End subscription_properties.

(* ===================================================================== *)
(** * Node names *)
(* ===================================================================== *)

Section domain_order.
Import pubsub.

Lemma compare_refl (s : string) : String.compare s s = Eq.
Proof. apply OrderedTypeEx.String_as_OT.cmp_eq. reflexivity. Qed.

Lemma domain_ltb_irrefl (d : string) : key.domain_ltb d d = false.
Proof. unfold key.domain_ltb, String.ltb. rewrite compare_refl. reflexivity. Qed.

Lemma domain_ltb_asym (a b : string) :
  key.domain_ltb a b = true -> key.domain_ltb b a = false.
Proof.
  unfold key.domain_ltb, String.ltb. rewrite (String.compare_antisym b a).
  destruct (String.compare a b); simpl; congruence.
Qed.

Lemma domain_ltb_neq (a b : string) : key.domain_ltb a b = true -> a <> b.
Proof. intros Hlt ->. rewrite domain_ltb_irrefl in Hlt. discriminate. Qed.

Lemma domain_ltb_le (a b : string) : key.domain_ltb a b = true -> key.domain_le a b.
Proof.
  unfold key.domain_ltb, key.domain_le, String.ltb, String.leb.
  destruct (String.compare a b); congruence.
Qed.

#[local] Instance domain_le_trans : Transitive key.domain_le.
Proof.
  intros a b c. unfold key.domain_le, String.leb.
  destruct (String.compare a b) eqn:Hab; [| |discriminate].
  - apply OrderedTypeEx.String_as_OT.cmp_eq in Hab as ->. tauto.
  - destruct (String.compare b c) eqn:Hbc; [| |discriminate]; intros _ _.
    + apply OrderedTypeEx.String_as_OT.cmp_eq in Hbc as <-. rewrite Hab. reflexivity.
    + apply OrderedTypeEx.String_as_OT.cmp_lt in Hab, Hbc.
      pose proof (OrderedTypeEx.String_as_OT.lt_trans _ _ _ Hab Hbc) as Hac.
      apply OrderedTypeEx.String_as_OT.cmp_lt in Hac.
      unfold OrderedTypeEx.String_as_OT.cmp in Hac. rewrite Hac. reflexivity.
Qed.

#[local] Instance domain_le_total : Total key.domain_le.
Proof. intros a b. apply String.leb_total. Qed.

#[local] Instance domain_le_antisym : AntiSymm (=) key.domain_le.
Proof. intros a b. apply String.leb_antisym. Qed.

(** Sorting the domains of a canonical name, in whatever order they come,
    gives them in the order of the name. *)
Lemma sort_domains (domains : list string) (unordered : list string) :
  StronglySorted (fun a b => key.domain_ltb a b = true) domains ->
  unordered ≡ₚ domains ->
  merge_sort key.domain_le unordered = domains.
Proof.
  intros Hsorted Hperm.
  apply (StronglySorted_unique key.domain_le).
  - apply StronglySorted_merge_sort; apply _.
  - clear Hperm. induction Hsorted as [|d rest Hrest IH Hd]; constructor.
    + apply IH.
    + eapply Forall_impl; [exact Hd|]. intros b. apply domain_ltb_le.
  - rewrite merge_sort_Permutation. exact Hperm.
Qed.

Lemma domain_ltb_trans (a b c : string) :
  key.domain_ltb a b = true -> key.domain_ltb b c = true -> key.domain_ltb a c = true.
Proof.
  unfold key.domain_ltb, String.ltb.
  destruct (String.compare a b) eqn:Hab; try discriminate.
  destruct (String.compare b c) eqn:Hbc; try discriminate. intros _ _.
  apply OrderedTypeEx.String_as_OT.cmp_lt in Hab, Hbc.
  pose proof (OrderedTypeEx.String_as_OT.lt_trans _ _ _ Hab Hbc) as Hac.
  apply OrderedTypeEx.String_as_OT.cmp_lt in Hac.
  unfold OrderedTypeEx.String_as_OT.cmp in Hac. rewrite Hac. reflexivity.
Qed.

Lemma domain_ltb_total (a b : string) :
  key.domain_ltb a b = false -> key.domain_ltb b a = false -> a = b.
Proof.
  unfold key.domain_ltb, String.ltb. rewrite (String.compare_antisym b a).
  destruct (String.compare a b) eqn:Hab; simpl; try discriminate.
  intros _ _. apply OrderedTypeEx.String_as_OT.cmp_eq. exact Hab.
Qed.

Lemma elem_of_add (k x : key.t) (keys_ : node_name.t) :
  x ∈ node_name.add k keys_ -> x = k \/ x ∈ keys_.
Proof.
  induction keys_ as [|pos rest IH]; simpl.
  - intros Hx. apply list_elem_of_singleton in Hx. tauto.
  - destruct (key.domain_ltb (key.domain pos) (key.domain k)).
    + intros Hx. apply elem_of_cons in Hx as [->|Hx].
      * right. apply elem_of_cons. tauto.
      * destruct (IH Hx) as [->|Hrest]; [tauto|]. right. apply elem_of_cons. tauto.
    + destruct (negb (key.domain_ltb (key.domain k) (key.domain pos))).
      * intros Hx. apply elem_of_cons in Hx as [->|Hx]; [tauto|].
        right. apply elem_of_cons. tauto.
      * intros Hx. apply elem_of_cons in Hx as [->|Hx]; tauto.
Qed.

(** [node_name::add] keeps the keys of a name in their canonical order,
    with unique domains. *)
Lemma add_canonical (k : key.t) (keys_ : node_name.t) :
  node_name.canonical keys_ -> node_name.canonical (node_name.add k keys_).
Proof.
  unfold node_name.canonical.
  induction 1 as [|pos rest Hrest IH Hpos]; simpl.
  - repeat constructor.
  - destruct (key.domain_ltb (key.domain pos) (key.domain k)) eqn:Hlt.
    + constructor; [exact IH|].
      apply Forall_forall. intros x Hx. apply elem_of_add in Hx as [->|Hx].
      * exact Hlt.
      * rewrite Forall_forall in Hpos. apply Hpos, Hx.
    + destruct (key.domain_ltb (key.domain k) (key.domain pos)) eqn:Hgt; simpl.
      * constructor; [constructor; assumption|].
        constructor; [exact Hgt|].
        eapply Forall_impl; [exact Hpos|]. intros x Hx. simpl in Hx.
        eapply domain_ltb_trans; [exact Hgt|exact Hx].
      * constructor; [exact Hrest|].
        rewrite (domain_ltb_total _ _ Hgt Hlt). exact Hpos.
Qed.

End domain_order.

Section node_name_properties.
Import cxx json pubsub.
Context `{implementation}.

Lemma add_after (name : string) (val : value) (members : list (string * value)) :
  Forall (fun m => key.domain_ltb m.1 name = true) members ->
  add name val members = members ++ [(name, val)].
Proof.
  induction 1 as [|[k v] rest Hk Hrest IH]; [reflexivity|]. simpl in *.
  destruct (String.eqb_spec name k) as [->|Hne].
  - rewrite domain_ltb_irrefl in Hk. discriminate.
  - apply domain_ltb_asym in Hk. unfold key.domain_ltb in Hk. rewrite Hk, IH.
    reflexivity.
Qed.

(** The object of a canonical name has the keys of the name, in their
    order. *)
Lemma to_json_canonical (n : node_name.t) :
  node_name.canonical n -> node_name.to_json n = node_name.member_of <$> n.
Proof.
  unfold node_name.to_json, node_name.canonical.
  induction n as [|k n IH] using rev_ind; intros Hn; [reflexivity|].
  rewrite foldl_snoc, fmap_app, IH by (eapply StronglySorted_app_1_l; exact Hn).
  apply add_after. apply Forall_fmap, Forall_forall. intros k' Hk'. simpl.
  assert (Hlast : k ∈ [k]) by (apply list_elem_of_singleton; reflexivity).
  exact (StronglySorted_app_1_elem_of _ n [k] k' k Hn Hk' Hlast).
Qed.

Lemma substring_all (s rest : string) :
  String.substring 0 (String.length s) (s +:+ rest) = s.
Proof.
  induction s as [|c s IH]; simpl.
  - destruct rest; reflexivity.
  - rewrite IH. reflexivity.
Qed.

Lemma length_append (s rest : string) :
  String.length (s +:+ rest) = (String.length s + String.length rest)%nat.
Proof. induction s as [|c s IH]; simpl; [reflexivity|]. rewrite IH. reflexivity. Qed.

(** [to_domain] gives back the name of a plain key. *)
Lemma to_domain_plain (d : string) : node_name.plain d -> node_name.to_domain d = d.
Proof.
  intros [Htext _]. unfold node_name.to_domain. rewrite Htext. unfold quoted.
  cbn [String.length String.substring]. rewrite length_append. simpl String.length.
  replace (S (String.length d + 1) - 2)%nat with (String.length d) by lia.
  apply substring_all.
Qed.

Lemma find_member (n : node_name.t) (k : key.t) :
  node_name.canonical n -> k ∈ n ->
  find (key.domain k) (node_name.member_of <$> n) = Some (jstring (key.value k)).
Proof.
  unfold node_name.canonical.
  induction 1 as [|k0 n Hn IH Hk0]; intros Hk; [inversion Hk|].
  simpl. apply elem_of_cons in Hk as [->|Hk].
  - rewrite String.eqb_refl. reflexivity.
  - rewrite Forall_forall in Hk0. specialize (Hk0 k Hk).
    apply domain_ltb_neq in Hk0.
    destruct (String.eqb_spec (key.domain k) (key.domain k0)); [congruence|].
    apply IH, Hk.
Qed.

Lemma keys_match_refl (n : node_name.t) : node_name.keys_match n n = true.
Proof.
  induction n as [|k n IH]; [reflexivity|]. simpl.
  unfold key.eqb. rewrite !String.eqb_refl, IH. reflexivity.
Qed.

Lemma node_name_eqb_refl (n : node_name.t) : node_name.eqb n n = true.
Proof.
  unfold node_name.eqb. rewrite Nat.eqb_refl. simpl. apply keys_match_refl.
Qed.

(** The round trip of the names of which every domain is plain: the
    constructor gives back the name [to_json] was called on. *)
Theorem node_name_round_trip (n : node_name.t) :
  node_name.canonical n ->
  Forall (fun k => node_name.plain (key.domain k)) n ->
  node_name.from_object (node_name.to_json n) = Some n
  /\ (forall n', node_name.from_object (node_name.to_json n) = Some n' ->
        node_name.eqb n' n = true).
Proof.
  intros Hn Hplain.
  assert (Hround : node_name.from_object (node_name.to_json n) = Some n).
  { unfold node_name.from_object. rewrite to_json_canonical by exact Hn.
    unfold keys.
    assert (Hdomains : node_name.to_domain <$> reverse ((node_name.member_of <$> n).*1)
                       = reverse (key.domain <$> n)).
    { rewrite <- list_fmap_compose, fmap_reverse. f_equal.
      rewrite <- list_fmap_compose. apply Forall_fmap_ext.
      eapply Forall_impl; [exact Hplain|]. intros k Hk. simpl.
      apply to_domain_plain, Hk. }
    rewrite Hdomains.
    rewrite (sort_domains (key.domain <$> n)).
    - apply mapM_Some, Forall2_fmap_l, Forall_Forall2_diag, Forall_forall.
      intros k Hk. simpl.
      rewrite Forall_forall in Hplain. destruct (Hplain k Hk) as [_ ->].
      unfold at_key. rewrite (find_member n k Hn Hk). simpl.
      destruct k; reflexivity.
    - eapply StronglySorted_fmap; [|exact Hn]. intros x y Hxy. exact Hxy.
    - apply reverse_Permutation. }
  split; [exact Hround|].
  intros n' Hn'. rewrite Hround in Hn'. injection Hn' as <-.
  apply node_name_eqb_refl.
Qed.

Lemma c_str_without_nul (s t : string) (c : ascii) :
  c_str s <> String c (String "000"%char t).
Proof.
  destruct s as [|c1 [|c2 s]]; simpl.
  - discriminate.
  - destruct (Ascii.eqb c1 "000"); discriminate.
  - destruct (Ascii.eqb c1 "000"); [discriminate|].
    destruct (Ascii.eqb_spec c2 "000"%char) as [->|Hc2]; [discriminate|].
    intros Heq. injection Heq as _ Hc _. contradiction.
Qed.

(** Whatever the serializer does, the constructor does not find the key
    of a domain in which a NUL character stands: [keys.at] is called with
    the characters in front of it. *)
Lemma from_object_domain_with_nul (c : ascii) (rest val : string) :
  let n := [{| key.domain := String c (String "000"%char rest); key.value := val |}] in
  node_name.from_object (node_name.to_json n) = None.
Proof.
  intros n. unfold node_name.from_object. simpl.
  unfold at_key. simpl.
  destruct (String.eqb_spec
              (c_str (node_name.to_domain (String c (String "000"%char rest))))
              (String c (String "000"%char rest))) as [Heq|_]; [|reflexivity].
  exfalso. exact (c_str_without_nul _ _ _ Heq).
Qed.

End node_name_properties.

Lemma node_name_round_trip_witness :
  let n := [{| pubsub.key.domain := "a"; pubsub.key.value := "b" |};
            {| pubsub.key.domain := "c"; pubsub.key.value := "d" |}] in
  pubsub.node_name.to_json n = [("a", json.jstring "b"); ("c", json.jstring "d")]
  /\ pubsub.node_name.from_object (H := reference.compact) (pubsub.node_name.to_json n)
     = Some n.
Proof.
  intros n. split; [reflexivity|].
  apply (node_name_round_trip (H := reference.compact) n).
  - repeat constructor.
  - repeat constructor.
Defined.

(** C10, on a name that is not plain.  The name has one key, whose domain
    is the three characters a, NUL, b.  [to_json] gives the object with
    that one member; the constructor looks the key up under the characters
    in front of the NUL, and [keys.at] throws: there is no name that could
    be compared with the one the object came from. *)
Theorem node_name_round_trip_breaks_on_nul :
  let n := [{| pubsub.key.domain := String "a" (String "000" "b"); pubsub.key.value := "v" |}] in
  pubsub.node_name.canonical n
  /\ pubsub.node_name.to_json n = [(String "a" (String "000" "b"), json.jstring "v")]
  /\ pubsub.node_name.from_object (H := reference.compact) (pubsub.node_name.to_json n)
     = None.
Proof.
  intros n. split; [repeat constructor|]. split; [reflexivity|].
  apply (from_object_domain_with_nul (H := reference.compact)).
Qed.

(** With a serializer that escapes the double quote, the same happens to a
    domain in which a double quote stands: the constructor takes the escaped
    text for the name of the domain. *)
Example node_name_round_trip_breaks_on_quote :
  let n := [{| pubsub.key.domain := String "a" (String json.quote "b");
               pubsub.key.value := "v" |}] in
  pubsub.node_name.to_domain (H := reference.compact) (String "a" (String json.quote "b"))
  = String "a" (String reference.backslash (String json.quote "b"))
  /\ pubsub.node_name.from_object (H := reference.compact) (pubsub.node_name.to_json n)
     = None.
Proof. split; reflexivity. Qed.

Lemma subscription_ack_precedes_initial_data_witness :
  let config := {| bayeux.session.max_messages_per_client := 10%nat;
                   bayeux.session.max_messages_size_per_client := 1000%nat |} in
  let foo_bar := [{| pubsub.key.domain := "foo"; pubsub.key.value := "bar" |}] in
  let answers := [pubsub.root.answer_validation_request true;
                  pubsub.root.answer_authorization_request true;
                  pubsub.root.answer_initialization_request
                    (json.object [("data", json.jstring "Hello World")])] in
  let ack := json.object [("channel", json.jstring "/meta/subscribe");
                          ("clientId", json.jstring "sss");
                          ("subscription", json.jstring "/foo/bar");
                          ("successful", json.true_val)] in
  let update := json.object [("channel", json.jstring "/foo/bar");
                             ("data", json.jstring "Hello World")] in
  (bayeux.session.wait_for_events
     (bayeux.session.subscribe (H := reference.compact)
        (bayeux.session.create "sss" config) foo_bar None answers).2 1%nat).1
  = [ack; update]
  /\ bayeux.session.calls_
       (bayeux.session.subscribe (H := reference.compact)
          (bayeux.session.after (H := reference.compact)
             (bayeux.session.create "sss" config)
             [bayeux.session.call_wait_for_events 1%nat])
          foo_bar None answers).2
     = [(1%nat, bayeux.session.messages [ack; update])].
Proof.
  intros config foo_bar answers ack update. split.
  - destruct (subscription_ack_precedes_initial_data (H := reference.compact)
                "sss" config [] foo_bar None
                [pubsub.root.answer_validation_request true;
                 pubsub.root.answer_authorization_request true] []
                [("data", json.jstring "Hello World")] (json.jstring "Hello World"))
      as (_ & _ & _ & Hqueue & _); [reflexivity|reflexivity|reflexivity|].
    destruct (Hqueue eq_refl) as (earlier & _ & Hsuffix & Hwait).
    apply suffix_nil_inv in Hsuffix. subst earlier.
    exact (Hwait 1%nat).
  - destruct (subscription_ack_precedes_initial_data (H := reference.compact)
                "sss" config [bayeux.session.call_wait_for_events 1%nat] foo_bar None
                [pubsub.root.answer_validation_request true;
                 pubsub.root.answer_authorization_request true] []
                [("data", json.jstring "Hello World")] (json.jstring "Hello World"))
      as (_ & _ & _ & _ & Hwoken); [reflexivity|reflexivity|reflexivity|].
    destruct (Hwoken 1%nat eq_refl) as [Hcalls _]. exact Hcalls.
Defined.

(** C6, as it is stated, fails.  The adapter initializes the node with
    the number 41, a value that is not null, as in the test
    [unsubscribe_after_subscription]: the subscriber is delivered the
    acknowledgment and no update event.  And on a session whose queue
    holds one message, the acknowledgment of a subscription with the
    initial value [{data: 42}] is dropped for the update event: the
    subscriber is delivered the update event without the
    acknowledgment. *)
Lemma acknowledgment_without_initial_data_event :
  let foo_bar := [{| pubsub.key.domain := "foo"; pubsub.key.value := "bar" |}] in
  let answers initial_value :=
    [pubsub.root.answer_validation_request true;
     pubsub.root.answer_authorization_request true;
     pubsub.root.answer_initialization_request initial_value] in
  let ack := json.object [("channel", json.jstring "/meta/subscribe");
                          ("clientId", json.jstring "192.168.210.1:9999/0");
                          ("subscription", json.jstring "/foo/bar");
                          ("successful", json.true_val)] in
  let subscribed (count : nat) (initial_value : json.value) :=
    bayeux.session.subscribe (H := reference.compact)
      (bayeux.session.create "192.168.210.1:9999/0"
         {| bayeux.session.max_messages_per_client := count;
            bayeux.session.max_messages_size_per_client := 1000%nat |})
      foo_bar None (answers initial_value) in
  json.value_eqb (json.number 41) json.null = false
  /\ (subscribed 10%nat (json.number 41)).1 = pubsub.root.established
  /\ (bayeux.session.events (subscribed 10%nat (json.number 41)).2).1 = [ack]
  /\ (subscribed 1%nat (json.object [("data", json.number 42)])).1
     = pubsub.root.established
  /\ (bayeux.session.events
        (subscribed 1%nat (json.object [("data", json.number 42)])).2).1
     = [json.object [("channel", json.jstring "/foo/bar"); ("data", json.number 42)]].
Proof. repeat split. Qed.



(* ===================================================================== *)
(** * Substrings *)
(* ===================================================================== *)

Section substring_properties.
Import tools tools.substring.

Lemma ascii_eqb_true (a b : ascii) : Ascii.eqb a b = true <-> a = b.
Proof. apply Ascii.eqb_eq. Qed.

(** The characters of a range that is not empty: the one at its start,
    then those of the rest. *)
Lemma range_cons (b : list ascii) (i e : nat) :
  (i < e)%nat -> (e <= length b)%nat ->
  take (e - i) (drop i b) = default nul (b !! i) :: take (e - S i) (drop (S i) b).
Proof.
  intros Hi He.
  destruct (lookup_lt_is_Some_2 b i) as [x Hx]; [lia|].
  rewrite Hx. simpl.
  rewrite (drop_S b x i Hx).
  replace (e - i)%nat with (S (e - S i)) by lia. reflexivity.
Qed.

Lemma range_nil (b : list ascii) (i e : nat) :
  (i <= e)%nat -> (e <= length b)%nat ->
  take (e - i) (drop i b) = [] <-> i = e.
Proof.
  intros Hi He. split.
  - intros Hnil. destruct (decide (i = e)) as [|Hne]; [assumption|].
    rewrite range_cons in Hnil by lia. discriminate.
  - intros ->. rewrite Nat.sub_diag. reflexivity.
Qed.

Lemma equal_loop_spec (lhs rhs : t) (steps lbegin rbegin : nat) :
  (end_ lhs <= length (buffer lhs))%nat -> (end_ rhs <= length (buffer rhs))%nat ->
  (lbegin <= end_ lhs)%nat -> (rbegin <= end_ rhs)%nat ->
  (end_ lhs - lbegin <= steps)%nat ->
  (let '(l, r) := equal_loop steps lhs lbegin rhs rbegin in
   (l =? end_ lhs)%nat && (r =? end_ rhs)%nat) = true
  <-> take (end_ lhs - lbegin) (drop lbegin (buffer lhs))
      = take (end_ rhs - rbegin) (drop rbegin (buffer rhs)).
Proof.
  intros Hl Hr. revert lbegin rbegin.
  induction steps as [|steps IH]; intros lbegin rbegin Hlb Hrb Hsteps.
  - simpl. assert (lbegin = end_ lhs) as -> by lia.
    rewrite Nat.eqb_refl, Nat.sub_diag. simpl.
    rewrite Nat.eqb_eq. split.
    + intros ->. rewrite Nat.sub_diag. reflexivity.
    + intros Hnil. symmetry in Hnil. apply range_nil in Hnil; assumption.
  - cbn [equal_loop].
    destruct (Nat.eqb_spec lbegin (end_ lhs)) as [->|Hlne]; cbn [negb andb].
    { rewrite Nat.eqb_refl, Nat.sub_diag. simpl. rewrite Nat.eqb_eq. split.
      - intros ->. rewrite Nat.sub_diag. reflexivity.
      - intros Hnil. symmetry in Hnil. apply range_nil in Hnil; assumption. }
    destruct (Nat.eqb_spec rbegin (end_ rhs)) as [->|Hrne]; cbn [negb andb].
    { destruct (Nat.eqb_spec lbegin (end_ lhs)); [contradiction|]. simpl.
      rewrite Nat.sub_diag. simpl. split; [discriminate|].
      intros Hnil. apply range_nil in Hnil; [contradiction|lia|assumption]. }
    rewrite (range_cons (buffer lhs) lbegin (end_ lhs)) by lia.
    rewrite (range_cons (buffer rhs) rbegin (end_ rhs)) by lia.
    fold (at_ lhs lbegin). fold (at_ rhs rbegin).
    destruct (Ascii.eqb_spec (at_ lhs lbegin) (at_ rhs rbegin)) as [Hc|Hc].
    + rewrite IH by lia. rewrite Hc. split; [intros ->; reflexivity|].
      intros Heq. injection Heq as Heq. exact Heq.
    + destruct (Nat.eqb_spec lbegin (end_ lhs)); [contradiction|]. simpl.
      split; [discriminate|]. intros Heq. injection Heq as Heq _. contradiction.
Qed.

(** X1.  [operator==] on two substrings: it holds exactly when the two ranges
    have the same characters, wherever the buffers are. *)
Theorem substring_equal_iff (lhs rhs : t) :
  valid lhs -> valid rhs ->
  equal lhs rhs = true <-> chars lhs = chars rhs.
Proof.
  intros [Hl1 Hl2] [Hr1 Hr2]. unfold equal, chars.
  apply equal_loop_spec; try assumption; lia.
Qed.

Lemma c_string_nil_iff (rhs : list ascii) : c_string rhs = [] <-> deref rhs = nul.
Proof.
  destruct rhs as [|c rest]; simpl; [tauto|]. unfold deref. simpl.
  destruct (Ascii.eqb_spec c nul); split; congruence.
Qed.

Lemma equal_c_loop_spec (s : t) (steps i : nat) (rhs : list ascii) :
  (end_ s <= length (buffer s))%nat -> (i <= end_ s)%nat -> (end_ s - i <= steps)%nat ->
  (let '(i', rhs') := equal_c_loop steps s i rhs in
   (i' =? end_ s)%nat && Ascii.eqb (deref rhs') nul) = true
  <-> take (end_ s - i) (drop i (buffer s)) = c_string rhs.
Proof.
  intros Hs. revert i rhs.
  assert (Hend : forall rhs, ((end_ s =? end_ s)%nat && Ascii.eqb (deref rhs) nul) = true
                        <-> take (end_ s - end_ s) (drop (end_ s) (buffer s)) = c_string rhs).
  { intros rhs. rewrite Nat.eqb_refl, Nat.sub_diag. simpl.
    rewrite ascii_eqb_true, <- c_string_nil_iff.
    split; intros Heq; [rewrite Heq; reflexivity|symmetry; exact Heq]. }
  induction steps as [|steps IH]; intros i rhs Hi Hsteps.
  - simpl. assert (i = end_ s) as -> by lia. apply Hend.
  - cbn [equal_c_loop].
    destruct (Nat.eqb_spec i (end_ s)) as [->|Hine]; cbn [negb andb]; [apply Hend|].
    rewrite (range_cons (buffer s) i (end_ s)) by lia. fold (at_ s i).
    destruct (Ascii.eqb_spec (deref rhs) nul) as [Hnul|Hnot]; cbn [negb andb].
    { destruct (Nat.eqb_spec i (end_ s)); [contradiction|]. simpl.
      apply c_string_nil_iff in Hnul. rewrite Hnul. split; discriminate. }
    destruct rhs as [|c rest]; [contradiction Hnot; reflexivity|].
    unfold deref in *. simpl in *.
    destruct (Ascii.eqb_spec c nul) as [|_]; [contradiction|].
    destruct (Ascii.eqb_spec (at_ s i) c) as [Hc|Hc].
    + rewrite IH by lia. rewrite Hc. split; [intros ->; reflexivity|].
      intros Heq. injection Heq as Heq. exact Heq.
    + destruct (Nat.eqb_spec i (end_ s)); [contradiction|]. simpl.
      split; [discriminate|]. intros Heq. injection Heq as Heq _. contradiction.
Qed.

(** X2.  [operator==] on a substring and a C string: it holds exactly when the
    characters of the range are the characters of the C string, those in
    front of its terminator. *)
Theorem substring_equal_c_str_iff (s : t) (rhs : list ascii) :
  valid s ->
  equal_c_str s rhs = true <-> chars s = c_string rhs.
Proof.
  intros [Hs1 Hs2]. unfold equal_c_str, chars.
  apply equal_c_loop_spec; try assumption; lia.
Qed.

Lemma c_string_without_nul (rhs : list ascii) : nul ∉ c_string rhs.
Proof.
  induction rhs as [|c rest IH]; simpl; [apply not_elem_of_nil|].
  destruct (Ascii.eqb_spec c nul) as [|Hc]; [apply not_elem_of_nil|].
  apply not_elem_of_cons. split; [congruence|exact IH].
Qed.

(** X3.  A substring in which the character [value_type()] stands is not equal
    to any C string, not even to one that holds the same characters. *)
Theorem substring_with_nul_never_equals_c_str (s : t) (rhs : list ascii) :
  valid s -> nul ∈ chars s -> equal_c_str s rhs = false.
Proof.
  intros [Hs1 Hs2] Hnul. apply not_true_iff_false. intros Heq.
  unfold equal_c_str in Heq.
  apply (equal_c_loop_spec s _ (begin_ s) rhs Hs2 Hs1) in Heq; [|lia].
  unfold chars in Hnul. rewrite Heq in Hnul. exact (c_string_without_nul rhs Hnul).
Qed.

(** X4.  [empty] and [size] agree, and the empty substrings are those that are
    equal to the empty C string and to the substring of the default
    constructor. *)
Theorem substring_empty_iff (s : t) :
  valid s ->
  (empty s = true <-> size s = 0%nat)
  /\ (empty s = true <-> equal_c_str s [] = true)
  /\ (empty s = true <-> equal s empty_substring = true).
Proof.
  intros Hs. pose proof Hs as [Hs1 Hs2].
  assert (Hchars : empty s = true <-> chars s = []).
  { unfold empty, chars. rewrite Nat.eqb_eq. symmetry. apply range_nil; assumption. }
  split; [|split].
  - unfold empty, size. rewrite Nat.eqb_eq. lia.
  - rewrite Hchars. unfold equal_c_str, chars. symmetry.
    apply (equal_c_loop_spec s _ (begin_ s) [] Hs2 Hs1). lia.
  - rewrite Hchars. unfold equal, chars. symmetry.
    apply (equal_loop_spec s empty_substring _ (begin_ s) 0%nat); simpl; lia.
Qed.

End substring_properties.

Lemma substring_equal_iff_witness :
  let host := tools.substring.create (list_ascii_of_string "GET /index.html") 4 15 in
  let path := tools.substring.create (list_ascii_of_string "/index.html?a") 0 11 in
  tools.substring.equal host path = true.
Proof.
  intros host path.
  apply (substring_equal_iff host path).
  - unfold tools.substring.valid. simpl. lia.
  - unfold tools.substring.valid. simpl. lia.
  - reflexivity.
Defined.

Lemma substring_equal_c_str_iff_witness :
  let method := tools.substring.create (list_ascii_of_string "GET /index.html") 0 3 in
  tools.substring.equal_c_str method (list_ascii_of_string "GET") = true
  /\ tools.substring.chars method = list_ascii_of_string "GET".
Proof.
  intros method.
  assert (Hvalid : tools.substring.valid method).
  { unfold tools.substring.valid. simpl. lia. }
  split.
  - apply (substring_equal_c_str_iff method (list_ascii_of_string "GET") Hvalid).
    reflexivity.
  - reflexivity.
Defined.

Lemma substring_with_nul_never_equals_c_str_witness :
  let s := tools.substring.create
             ["a"%char; tools.substring.nul; "b"%char] 0 3 in
  tools.substring.equal_c_str s ["a"%char; tools.substring.nul; "b"%char] = false.
Proof.
  intros s.
  apply (substring_with_nul_never_equals_c_str s).
  - unfold tools.substring.valid. simpl. lia.
  - simpl. apply list_elem_of_In. simpl. tauto.
Defined.

Lemma substring_empty_iff_witness :
  let s := tools.substring.create (list_ascii_of_string "abc") 2 2 in
  tools.substring.empty s = true /\ tools.substring.equal_c_str s [] = true.
Proof.
  intros s.
  destruct (substring_empty_iff s) as (_ & Hc & _).
  - unfold tools.substring.valid. simpl. lia.
  - split; [reflexivity|]. apply Hc. reflexivity.
Defined.

(* ===================================================================== *)
(** * Node names: comparison, [add] and [find_key] *)
(* ===================================================================== *)

Section node_name_operations.
Import cxx json pubsub.

Lemma key_eqb_iff (a b : key.t) : key.eqb a b = true <-> a = b.
Proof.
  unfold key.eqb. rewrite andb_true_iff, !String.eqb_eq.
  destruct a, b; simpl. split; [intros [-> ->]; reflexivity|].
  intros Heq. injection Heq as -> ->. tauto.
Qed.

Lemma keys_match_iff (lhs rhs : node_name.t) :
  length lhs = length rhs -> node_name.keys_match lhs rhs = true <-> lhs = rhs.
Proof.
  revert rhs. induction lhs as [|l lhs IH]; intros [|r rhs] Hlen; simpl in *;
    try discriminate; [tauto|].
  rewrite andb_true_iff, key_eqb_iff, IH by lia.
  split; [intros [-> ->]; reflexivity|]. intros Heq. injection Heq as -> ->. tauto.
Qed.

Lemma node_name_eqb_eq (lhs rhs : node_name.t) :
  node_name.eqb lhs rhs = true <-> lhs = rhs.
Proof.
  unfold node_name.eqb.
  destruct (Nat.eqb_spec (length lhs) (length rhs)) as [Hlen|Hlen]; simpl.
  - apply keys_match_iff, Hlen.
  - split; [discriminate|]. intros ->. contradiction.
Qed.

(** X5.  [operator==] on node names holds exactly for names with the same keys,
    and [operator!=] for all others. *)
Theorem node_name_eqb_iff (lhs rhs : node_name.t) :
  (node_name.eqb lhs rhs = true <-> lhs = rhs)
  /\ (node_name.neqb lhs rhs = true <-> lhs <> rhs).
Proof.
  pose proof (node_name_eqb_eq lhs rhs) as Heq.
  split; [exact Heq|].
  unfold node_name.neqb. rewrite negb_true_iff, <- Heq.
  destruct (node_name.eqb lhs rhs); split; congruence.
Qed.

(** ** [find_key] *)

Lemma find_key_cons (d : string) (pos : key.t) (rest : node_name.t) :
  node_name.find_key d (pos :: rest)
  = if key.domain_ltb (key.domain pos) d then node_name.find_key d rest
    else if negb (key.domain_ltb d (key.domain pos)) then (true, pos)
         else (false, key.default_key).
Proof.
  unfold node_name.find_key. simpl.
  destruct (key.domain_ltb (key.domain pos) d); reflexivity.
Qed.

Lemma find_key_found (n : node_name.t) (k : key.t) :
  node_name.canonical n -> k ∈ n -> node_name.find_key (key.domain k) n = (true, k).
Proof.
  unfold node_name.canonical.
  induction 1 as [|pos rest Hrest IH Hpos]; intros Hk; [inversion Hk|].
  rewrite find_key_cons. apply elem_of_cons in Hk as [->|Hk].
  - rewrite domain_ltb_irrefl. reflexivity.
  - rewrite Forall_forall in Hpos. rewrite (Hpos k Hk). apply IH, Hk.
Qed.

Lemma find_key_true_inv (n : node_name.t) (d : string) (k : key.t) :
  node_name.find_key d n = (true, k) -> k ∈ n /\ key.domain k = d.
Proof.
  induction n as [|pos rest IH]; [discriminate|].
  rewrite find_key_cons.
  destruct (key.domain_ltb (key.domain pos) d) eqn:Hlt.
  - intros Hfound. destruct (IH Hfound) as [Hin Hd]. split; [|exact Hd].
    apply elem_of_cons. tauto.
  - destruct (key.domain_ltb d (key.domain pos)) eqn:Hgt; simpl; [discriminate|].
    intros Hfound. injection Hfound as <-. split.
    + apply elem_of_cons. tauto.
    + apply domain_ltb_total; assumption.
Qed.

Lemma find_key_false (n : node_name.t) (d : string) :
  (node_name.find_key d n).1 = false -> node_name.find_key d n = (false, key.default_key).
Proof.
  induction n as [|pos rest IH]; [reflexivity|].
  rewrite find_key_cons.
  destruct (key.domain_ltb (key.domain pos) d); [exact IH|].
  destruct (negb (key.domain_ltb d (key.domain pos))); [discriminate|reflexivity].
Qed.

Lemma find_key_missing (n : node_name.t) (d : string) :
  (forall k, k ∈ n -> key.domain k <> d) ->
  node_name.find_key d n = (false, key.default_key).
Proof.
  intros Hmissing. apply find_key_false.
  destruct (node_name.find_key d n) as [[|] k] eqn:Hfind; [|reflexivity].
  destruct (find_key_true_inv n d k Hfind) as [Hin Hd].
  exfalso. exact (Hmissing k Hin Hd).
Qed.

(** X6.  [find_key] on a name in canonical order: it finds a key exactly when
    the name has a key of the domain, and then that key; for a domain the
    name does not have, the result is [false] with the default key. *)
Theorem find_key_spec (n : node_name.t) (d : string) :
  node_name.canonical n ->
  (forall k, node_name.find_key d n = (true, k) <-> k ∈ n /\ key.domain k = d)
  /\ ((forall k, k ∈ n -> key.domain k <> d) ->
      node_name.find_key d n = (false, key.default_key)).
Proof.
  intros Hn. split.
  - intros k. split; [apply find_key_true_inv|].
    intros [Hin <-]. apply find_key_found; assumption.
  - apply find_key_missing.
Qed.

(** ** [add] *)

Lemma elem_of_add_self (k : key.t) (n : node_name.t) : k ∈ node_name.add k n.
Proof.
  induction n as [|pos rest IH]; simpl.
  - apply list_elem_of_singleton. reflexivity.
  - destruct (key.domain_ltb (key.domain pos) (key.domain k)).
    + apply elem_of_cons. tauto.
    + destruct (negb (key.domain_ltb (key.domain k) (key.domain pos)));
        apply elem_of_cons; tauto.
Qed.

Lemma elem_of_add_other (k x : key.t) (n : node_name.t) :
  x ∈ n -> key.domain x <> key.domain k -> x ∈ node_name.add k n.
Proof.
  intros Hx Hne. induction n as [|pos rest IH]; [inversion Hx|]. simpl.
  apply elem_of_cons in Hx as [->|Hx].
  - destruct (key.domain_ltb (key.domain pos) (key.domain k)) eqn:Hlt.
    + apply elem_of_cons. tauto.
    + destruct (key.domain_ltb (key.domain k) (key.domain pos)) eqn:Hgt; simpl.
      * apply elem_of_cons. right. apply elem_of_cons. tauto.
      * exfalso. apply Hne. symmetry. apply domain_ltb_total; assumption.
  - destruct (key.domain_ltb (key.domain pos) (key.domain k)).
    + apply elem_of_cons. right. apply IH, Hx.
    + destruct (negb (key.domain_ltb (key.domain k) (key.domain pos))).
      * apply elem_of_cons. tauto.
      * apply elem_of_cons. right. apply elem_of_cons. tauto.
Qed.

(** X7.  [add] keeps the keys of a name in their canonical order with unique
    domains; the keys of the result are the added key and the keys of the
    name that have another domain. *)
Theorem add_spec (n : node_name.t) (k : key.t) :
  node_name.canonical n ->
  node_name.canonical (node_name.add k n)
  /\ (forall x, x ∈ node_name.add k n
             <-> x = k \/ (x ∈ n /\ key.domain x <> key.domain k)).
Proof.
  intros Hn. pose proof (add_canonical k n Hn) as Hadd.
  split; [exact Hadd|]. intros x. split.
  - intros Hx. destruct (key.eqb x k) eqn:Hxk; [apply key_eqb_iff in Hxk; tauto|].
    assert (Hne : x <> k).
    { intros ->. rewrite (proj2 (key_eqb_iff k k) eq_refl) in Hxk. discriminate. }
    right.
    pose proof Hx as Hx'. apply elem_of_add in Hx' as [|Hin]; [contradiction|].
    split; [exact Hin|]. intros Hd.
    pose proof (find_key_found _ x Hadd Hx) as Hfx.
    pose proof (find_key_found _ k Hadd (elem_of_add_self k n)) as Hfk.
    rewrite Hd in Hfx. congruence.
  - intros [->|[Hin Hd]]; [apply elem_of_add_self|].
    apply elem_of_add_other; assumption.
Qed.

(** X8.  A key that was added to a name is the key [find_key] finds for its
    domain, whether the name had a key of that domain or not. *)
Theorem find_key_add (n : node_name.t) (k : key.t) :
  node_name.canonical n ->
  node_name.find_key (key.domain k) (node_name.add k n) = (true, k).
Proof.
  intros Hn. apply find_key_found.
  - apply add_canonical, Hn.
  - apply elem_of_add_self.
Qed.

(** X9.  [add] changes what [find_key] finds for the domain of the added key
    only. *)
Theorem find_key_add_other (n : node_name.t) (k : key.t) (d : string) :
  node_name.canonical n -> d <> key.domain k ->
  node_name.find_key d (node_name.add k n) = node_name.find_key d n.
Proof.
  intros Hn Hd.
  destruct (node_name.find_key d n) as [[|] found] eqn:Hfind.
  - destruct (find_key_true_inv n d found Hfind) as [Hin <-].
    apply find_key_found; [apply add_canonical, Hn|].
    apply elem_of_add_other; assumption.
  - assert (Hnone : forall x, x ∈ n -> key.domain x <> d).
    { intros x Hx Hxd. rewrite <- Hxd in Hfind.
      rewrite (find_key_found n x Hn Hx) in Hfind. discriminate. }
    pose proof (find_key_missing n d Hnone) as Hdefault.
    rewrite Hfind in Hdefault. injection Hdefault as ->.
    apply find_key_missing. intros x Hx Hxd.
    apply elem_of_add in Hx as [->|Hx]; [congruence|].
    exact (Hnone x Hx Hxd).
Qed.

End node_name_operations.

Lemma add_spec_witness :
  let a := {| pubsub.key.domain := "a"; pubsub.key.value := "1" |} in
  let b := {| pubsub.key.domain := "b"; pubsub.key.value := "2" |} in
  let b' := {| pubsub.key.domain := "b"; pubsub.key.value := "3" |} in
  pubsub.node_name.add b' (pubsub.node_name.add a (pubsub.node_name.add b [])) = [a; b']
  /\ pubsub.node_name.canonical
       (pubsub.node_name.add b' (pubsub.node_name.add a (pubsub.node_name.add b []))).
Proof.
  intros a b b'. split; [reflexivity|].
  apply (add_spec (pubsub.node_name.add a (pubsub.node_name.add b [])) b').
  simpl. repeat constructor.
Defined.

Lemma find_key_spec_witness :
  let a := {| pubsub.key.domain := "a"; pubsub.key.value := "1" |} in
  let c := {| pubsub.key.domain := "c"; pubsub.key.value := "2" |} in
  pubsub.node_name.find_key "c" [a; c] = (true, c)
  /\ pubsub.node_name.find_key "b" [a; c] = (false, pubsub.key.default_key).
Proof.
  intros a c.
  assert (Hn : pubsub.node_name.canonical [a; c]) by (repeat constructor).
  destruct (find_key_spec [a; c] "c" Hn) as [Hfound _].
  destruct (find_key_spec [a; c] "b" Hn) as [_ Hmissing].
  split.
  - apply Hfound. split; [|reflexivity].
    apply list_elem_of_In. simpl. tauto.
  - apply Hmissing. intros k Hk. apply list_elem_of_In in Hk. simpl in Hk.
    destruct Hk as [<-|[<-|[]]]; discriminate.
Defined.

Lemma find_key_add_witness :
  let a := {| pubsub.key.domain := "a"; pubsub.key.value := "1" |} in
  let b := {| pubsub.key.domain := "b"; pubsub.key.value := "2" |} in
  pubsub.node_name.find_key "b" (pubsub.node_name.add b [a]) = (true, b).
Proof.
  intros a b. apply (find_key_add [a] b). repeat constructor.
Defined.

Lemma find_key_add_other_witness :
  let a := {| pubsub.key.domain := "a"; pubsub.key.value := "1" |} in
  let b := {| pubsub.key.domain := "b"; pubsub.key.value := "2" |} in
  pubsub.node_name.find_key "a" (pubsub.node_name.add b [a]) = (true, a).
Proof.
  intros a b. rewrite (find_key_add_other [a] b "a").
  - reflexivity.
  - repeat constructor.
  - discriminate.
Defined.

Section node_name_constructor.
Import cxx json pubsub.
Context `{implementation}.

(** X10.  The constructor from an object gives one key for each member, and it
    gives the keys sorted by their domains, in whatever order the object
    hands out its keys. *)
Theorem from_object_sorted (keys : list (string * value)) (n : node_name.t) :
  node_name.from_object keys = Some n ->
  length n = length keys
  /\ Sorted key.domain_le (key.domain <$> n)
  /\ key.domain <$> n ≡ₚ node_name.to_domain <$> json.keys keys.
Proof.
  unfold node_name.from_object. intros Hn. apply mapM_Some in Hn.
  assert (Hdomains : key.domain <$> n
                     = merge_sort key.domain_le (node_name.to_domain <$> json.keys keys)).
  { remember (merge_sort key.domain_le (node_name.to_domain <$> json.keys keys)) as ds.
    clear Heqds. induction Hn as [|d k ds n Hk Hn IH]; [reflexivity|].
    rewrite fmap_cons, IH. f_equal.
    destruct (at_key (c_str d) keys); simpl in Hk; [|discriminate].
    injection Hk as <-. reflexivity. }
  split; [|split].
  - rewrite <- (length_fmap key.domain n), Hdomains.
    rewrite (Permutation_length (merge_sort_Permutation _ _)).
    rewrite length_fmap. unfold json.keys. rewrite length_reverse, length_fmap.
    reflexivity.
  - rewrite Hdomains.
    exact (@Sorted_merge_sort _ key.domain_le _ domain_le_total _).
  - rewrite Hdomains. apply merge_sort_Permutation.
Qed.

End node_name_constructor.

Lemma from_object_sorted_witness :
  let keys := [("b", json.number 2); ("c", json.jstring "x"); ("a", json.number 4)] in
  pubsub.node_name.from_object (H := reference.compact) keys
  = Some [{| pubsub.key.domain := "a"; pubsub.key.value := "4" |};
          {| pubsub.key.domain := "b"; pubsub.key.value := "2" |};
          {| pubsub.key.domain := "c"; pubsub.key.value := "x" |}]
  /\ Sorted pubsub.key.domain_le ["a"; "b"; "c"].
Proof.
  intros keys. split; [reflexivity|].
  destruct (from_object_sorted (H := reference.compact) keys
              [{| pubsub.key.domain := "a"; pubsub.key.value := "4" |};
               {| pubsub.key.domain := "b"; pubsub.key.value := "2" |};
               {| pubsub.key.domain := "c"; pubsub.key.value := "x" |}])
    as (_ & Hsorted & _); [reflexivity|exact Hsorted].
Defined.

(* ===================================================================== *)
(** * Node names: [operator<] *)
(* ===================================================================== *)

Section node_name_order.
Import pubsub.

(** [key::operator<], of which the sources have the uses only: a strict
    total order of the keys. *)
Variable key_ltb : key.t -> key.t -> bool.
Hypothesis key_irrefl : forall k, key_ltb k k = false.
Hypothesis key_trans :
  forall a b c, key_ltb a b = true -> key_ltb b c = true -> key_ltb a c = true.
Hypothesis key_total : forall a b, key_ltb a b = false -> key_ltb b a = false -> a = b.

Lemma keys_less_irrefl (n : node_name.t) : node_name.keys_less key_ltb n n = false.
Proof.
  induction n as [|k n IH]; [reflexivity|]. simpl. rewrite key_irrefl. exact IH.
Qed.

Lemma keys_less_trans (a b c : node_name.t) :
  node_name.keys_less key_ltb a b = true -> node_name.keys_less key_ltb b c = true ->
  node_name.keys_less key_ltb a c = true.
Proof.
  revert b c. induction a as [|x a IH]; intros [|y b] [|z c]; simpl; try discriminate.
  destruct (key_ltb x y) eqn:Hxy.
  - intros _. destruct (key_ltb y z) eqn:Hyz.
    + intros _. rewrite (key_trans x y z Hxy Hyz). reflexivity.
    + destruct (key_ltb z y) eqn:Hzy; [discriminate|]. intros _.
      rewrite <- (key_total y z Hyz Hzy), Hxy. reflexivity.
  - destruct (key_ltb y x) eqn:Hyx; [discriminate|].
    rewrite (key_total x y Hxy Hyx). intros Hab.
    destruct (key_ltb y z); [reflexivity|].
    destruct (key_ltb z y); [discriminate|]. apply IH, Hab.
Qed.

Lemma keys_less_total (a b : node_name.t) :
  length a = length b ->
  node_name.keys_less key_ltb a b = false -> node_name.keys_less key_ltb b a = false ->
  a = b.
Proof.
  revert b. induction a as [|x a IH]; intros [|y b] Hlen; simpl in *; try discriminate;
    [reflexivity|].
  destruct (key_ltb x y) eqn:Hxy; [discriminate|].
  destruct (key_ltb y x) eqn:Hyx; [discriminate|].
  intros Hab Hba. rewrite (key_total x y Hxy Hyx). f_equal. apply IH; [lia|assumption..].
Qed.

(** X11.  [operator<] on node names is a strict order: no name is less than
    itself, and the relation is transitive; shorter names come first. *)
Theorem node_name_ltb_strict_order :
  (forall n, node_name.ltb key_ltb n n = false)
  /\ (forall a b c, node_name.ltb key_ltb a b = true -> node_name.ltb key_ltb b c = true ->
        node_name.ltb key_ltb a c = true)
  /\ (forall a b, (length a < length b)%nat -> node_name.ltb key_ltb a b = true).
Proof.
  unfold node_name.ltb. split; [|split].
  - intros n. rewrite Nat.eqb_refl. simpl. apply keys_less_irrefl.
  - intros a b c.
    destruct (Nat.eqb_spec (length a) (length b)) as [Hab|Hab];
      destruct (Nat.eqb_spec (length b) (length c)) as [Hbc|Hbc];
      destruct (Nat.eqb_spec (length a) (length c)) as [Hac|Hac]; simpl;
      rewrite ?Nat.ltb_lt; try lia.
    apply keys_less_trans.
  - intros a b Hlt. destruct (Nat.eqb_spec (length a) (length b)); simpl; [lia|].
    apply Nat.ltb_lt, Hlt.
Qed.

(** X12.  Two node names neither of which is less than the other are equal: the
    names that [operator<] does not tell apart are those for which
    [operator==] holds. *)
Theorem node_name_ltb_total (a b : node_name.t) :
  (node_name.ltb key_ltb a b = false /\ node_name.ltb key_ltb b a = false)
  <-> node_name.eqb a b = true.
Proof.
  rewrite (node_name_eqb_eq a b). split.
  - unfold node_name.ltb. intros [Hab Hba].
    destruct (Nat.eqb_spec (length a) (length b)) as [Hlen|Hlen]; simpl in *.
    + rewrite <- Hlen, Nat.eqb_refl in Hba. simpl in Hba.
      apply keys_less_total; assumption.
    + destruct (Nat.eqb_spec (length b) (length a)); [lia|]. simpl in Hba.
      apply Nat.ltb_ge in Hab, Hba. lia.
  - intros ->. unfold node_name.ltb. rewrite Nat.eqb_refl. simpl.
    split; apply keys_less_irrefl.
Qed.

End node_name_order.

Section key_order.
Import pubsub.

Lemma key_ltb_irrefl (k : key.t) : key.ltb k k = false.
Proof.
  unfold key.ltb. rewrite String.eqb_refl.
  pose proof (domain_ltb_irrefl (key.domain k)) as Hd.
  pose proof (domain_ltb_irrefl (key.value k)) as Hv.
  unfold key.domain_ltb in *. rewrite Hd, Hv. reflexivity.
Qed.

Lemma key_ltb_trans (a b c : key.t) :
  key.ltb a b = true -> key.ltb b c = true -> key.ltb a c = true.
Proof.
  unfold key.ltb. rewrite !orb_true_iff, !andb_true_iff, !String.eqb_eq.
  intros [Hab|[Hab Hvab]] [Hbc|[Hbc Hvbc]].
  - left. exact (domain_ltb_trans _ _ _ Hab Hbc).
  - left. rewrite <- Hbc. exact Hab.
  - left. rewrite Hab. exact Hbc.
  - right. split; [congruence|]. exact (domain_ltb_trans _ _ _ Hvab Hvbc).
Qed.

Lemma key_ltb_total (a b : key.t) :
  key.ltb a b = false -> key.ltb b a = false -> a = b.
Proof.
  unfold key.ltb. rewrite !orb_false_iff, !andb_false_iff.
  intros [Hab Hvab] [Hba Hvba].
  assert (Hd : key.domain a = key.domain b) by (apply domain_ltb_total; assumption).
  rewrite Hd, String.eqb_refl in Hvab, Hvba.
  destruct Hvab as [|Hvab]; [discriminate|]. destruct Hvba as [|Hvba]; [discriminate|].
  assert (Hv : key.value a = key.value b) by (apply domain_ltb_total; assumption).
  destruct a, b; simpl in *. congruence.
Qed.

End key_order.

Lemma node_name_ltb_strict_order_witness :
  let a := [{| pubsub.key.domain := "a"; pubsub.key.value := "1" |}] in
  let b := [{| pubsub.key.domain := "a"; pubsub.key.value := "2" |}] in
  let c := [{| pubsub.key.domain := "a"; pubsub.key.value := "1" |};
            {| pubsub.key.domain := "b"; pubsub.key.value := "0" |}] in
  pubsub.node_name.ltb pubsub.key.ltb a a = false
  /\ pubsub.node_name.ltb pubsub.key.ltb a c = true.
Proof.
  intros a b c.
  destruct (node_name_ltb_strict_order pubsub.key.ltb key_ltb_irrefl key_ltb_trans
              key_ltb_total) as (Hirrefl & Htrans & _).
  split; [apply Hirrefl|].
  apply (Htrans a b c); reflexivity.
Defined.

Lemma node_name_ltb_total_witness :
  let a := [{| pubsub.key.domain := "a"; pubsub.key.value := "1" |}] in
  pubsub.node_name.eqb a a = true.
Proof.
  intros a.
  apply (node_name_ltb_total pubsub.key.ltb key_ltb_irrefl key_ltb_total a a).
  split; reflexivity.
Defined.

(* ===================================================================== *)
(** * Node versions: [++], [+] and [-] *)
(* ===================================================================== *)

Section node_version_arithmetic.
Import cxx pubsub.
Context `{platform}.


(** The conversions to the signed 64 bit type in [operator-] keep the
    difference of the counters modulo 2^64. *)
Lemma static_cast_int_fast64_sub (a b : Z) :
  static_cast_int_fast64 (static_cast_int_fast64 a - static_cast_int_fast64 b)
  = static_cast_int_fast64 (a - b).
Proof.
  unfold static_cast_int_fast64, wrap_signed. f_equal.
  rewrite <- (Zplus_mod_idemp_l
                ((a + 2 ^ (64 - 1)) mod 2 ^ 64 - 2 ^ (64 - 1)
                 - ((b + 2 ^ (64 - 1)) mod 2 ^ 64 - 2 ^ (64 - 1)))).
  replace ((a + 2 ^ (64 - 1)) mod 2 ^ 64 - 2 ^ (64 - 1)
           - ((b + 2 ^ (64 - 1)) mod 2 ^ 64 - 2 ^ (64 - 1)))
    with ((a + 2 ^ (64 - 1)) mod 2 ^ 64 - (b + 2 ^ (64 - 1)) mod 2 ^ 64) by lia.
  rewrite <- Zminus_mod, Zplus_mod_idemp_l. f_equal. lia.
Qed.

(** Two counters whose difference is [d] modulo 2^64, for a [d] that
    [int] holds, are [d] apart. *)
Lemma distance_of_difference (a b d : Z) :
  (2 ^ 64 | a - b - d) -> int_min <= d <= int_max ->
  node_version.distance a b = d.
Proof.
  intros [k Hk] Hd. unfold node_version.distance.
  rewrite static_cast_int_fast64_sub.
  assert (Hcast : static_cast_int_fast64 (a - b) = d).
  { replace (a - b) with (d + k * 2 ^ 64) by lia.
    unfold static_cast_int_fast64, wrap_signed.
    replace (d + k * 2 ^ 64 + 2 ^ (64 - 1)) with (d + 2 ^ (64 - 1) + k * 2 ^ 64) by lia.
    rewrite Z_mod_plus_full.
    unfold int_min, int_max in Hd. rewrite Z.mod_small; lia. }
  rewrite Hcast.
  destruct (Z.gtb_spec d int_max); [lia|]. rewrite andb_false_r.
  destruct (Z.ltb_spec d int_min); [lia|]. rewrite andb_false_r.
  apply static_cast_int_small. exact Hd.
Qed.

(** A counter of at least 64 bits wraps by a multiple of 2^64. *)
Lemma wrap_unsigned_divide (bits x : Z) :
  64 <= bits -> (2 ^ 64 | wrap_unsigned bits x - x).
Proof.
  intros Hbits. unfold wrap_unsigned.
  exists (- (2 ^ (bits - 64) * (x / 2 ^ bits))).
  assert (Hpow : 2 ^ bits = 2 ^ (bits - 64) * 2 ^ 64).
  { rewrite <- Z.pow_add_r by lia. f_equal. lia. }
  pose proof (Z_div_mod_eq_full x (2 ^ bits)) as Hx.
  rewrite Hpow in Hx at 1. lia.
Qed.

(** The version after [v] is one step ahead of it, unless a counter of
    fewer than 64 bits wrapped. *)
Lemma increment_distance (v : node_version.t) :
  node_version.in_range v -> v + 1 < 2 ^ version_bits \/ 64 <= version_bits ->
  node_version.distance (node_version.increment v) v = 1.
Proof.
  unfold node_version.in_range. intros Hv Hnext.
  apply distance_of_difference; [|unfold int_min, int_max; lia].
  unfold node_version.increment. destruct Hnext as [Hnext|Hbits].
  - unfold wrap_unsigned. rewrite Z.mod_small by lia. exists 0. lia.
  - destruct (wrap_unsigned_divide version_bits (v + 1) Hbits) as [k Hk].
    exists k. lia.
Qed.

(** The version after the last one of a counter of fewer than 64 bits is
    not ahead of it. *)
Lemma increment_wrapped_distance (v : node_version.t) :
  node_version.in_range v -> v + 1 = 2 ^ version_bits -> version_bits < 64 ->
  node_version.increment v = 0
  /\ node_version.distance (node_version.increment v) v <= 0.
Proof.
  unfold node_version.in_range. intros Hv Hlast Hbits.
  assert (Hzero : node_version.increment v = 0).
  { unfold node_version.increment, wrap_unsigned. rewrite Hlast. apply Z.mod_same. lia. }
  split; [exact Hzero|]. rewrite Hzero.
  assert (Hfits : 2 ^ version_bits <= 2 ^ 63).
  { destruct (Z.le_gt_cases 0 version_bits).
    - apply Z.pow_le_mono_r; lia.
    - rewrite Z.pow_neg_r in Hlast by lia. lia. }
  rewrite distance_cases by lia.
  destruct (Z.gtb_spec (0 - v) int_max) as [Hgt|_]; [unfold int_max in Hgt; lia|].
  destruct (Z.ltb_spec (0 - v) int_min); [unfold int_min|]; lia.
Qed.

(** X13.  [++version], for every width of the counter.  A counter below
    its maximum becomes [v + 1]; a counter at its maximum starts again at
    0; and the new version is one step ahead of the old one, that is
    [new - old = 1], exactly when the counter did not wrap or has at
    least 64 bits. *)
Theorem increment_is_one_step (v : node_version.t) :
  node_version.in_range v ->
  (v + 1 < 2 ^ version_bits -> node_version.increment v = v + 1)
  /\ (v + 1 = 2 ^ version_bits -> node_version.increment v = 0)
  /\ (node_version.distance (node_version.increment v) v = 1
      <-> v + 1 < 2 ^ version_bits \/ 64 <= version_bits).
Proof.
  intros Hv. split; [|split].
  - intros Hnext. unfold node_version.in_range in Hv.
    unfold node_version.increment, wrap_unsigned. apply Z.mod_small. lia.
  - intros Hlast. unfold node_version.increment, wrap_unsigned.
    rewrite Hlast. apply Z.mod_same. unfold node_version.in_range in Hv. lia.
  - split; [|apply increment_distance, Hv].
    intros Hone.
    destruct (Z.lt_ge_cases (v + 1) (2 ^ version_bits)) as [Hnext|Hlast]; [left; exact Hnext|].
    destruct (Z.le_gt_cases 64 version_bits) as [Hbits|Hbits]; [right; exact Hbits|].
    exfalso. unfold node_version.in_range in Hv.
    destruct (increment_wrapped_distance v Hv) as [_ Hbehind]; lia.
Qed.

Lemma to_unsigned_small (x : Z) : 0 <= x < 2 ^ 32 -> to_unsigned x = x.
Proof. intros Hx. unfold to_unsigned, wrap_unsigned. apply Z.mod_small. exact Hx. Qed.

Lemma to_unsigned_opp (n : Z) : 0 < n < 2 ^ 32 -> to_unsigned (- n) = 2 ^ 32 - n.
Proof.
  intros Hn. unfold to_unsigned, wrap_unsigned.
  symmetry. apply (Z.mod_unique (- n) (2 ^ 32) (-1)); lia.
Qed.

(** X14.  [version + n] subtracts the [unsigned] value [-n]: the counter moves by
    [n - 2^32], modulo its range.  Where the counter has 32 bits this is the
    sum modulo 2^32, and [(version + n) - n] is the version. *)
Theorem plus_moves_by_unsigned_negation (v : node_version.t) (n : Z) :
  0 < n < 2 ^ 32 ->
  node_version.plus v n = (v + n - 2 ^ 32) mod 2 ^ version_bits
  /\ (version_bits = 32 ->
      node_version.plus v n = (v + n) mod 2 ^ 32
      /\ (node_version.in_range v ->
          node_version.minus (node_version.plus v n) n = v)).
Proof.
  intros Hn.
  assert (Hplus : node_version.plus v n = (v + n - 2 ^ 32) mod 2 ^ version_bits).
  { unfold node_version.plus, node_version.minus, node_version.decrement, wrap_unsigned.
    rewrite (to_unsigned_opp n Hn).
    rewrite (to_unsigned_small (2 ^ 32 - n)) by lia. f_equal. lia. }
  split; [exact Hplus|]. intros Hbits.
  assert (Hsum : node_version.plus v n = (v + n) mod 2 ^ 32).
  { rewrite Hplus, Hbits.
    replace (v + n - 2 ^ 32) with (v + n + (-1) * 2 ^ 32) by lia.
    apply Z_mod_plus_full. }
  split; [exact Hsum|].
  unfold node_version.in_range. rewrite Hbits. intros Hv.
  unfold node_version.minus, node_version.decrement, wrap_unsigned.
  rewrite Hsum, Hbits, (to_unsigned_small n) by lia.
  rewrite Zminus_mod_idemp_l. replace (v + n - n) with v by lia.
  apply Z.mod_small. exact Hv.
Qed.

End node_version_arithmetic.

Lemma increment_is_one_step_witness :
  pubsub.node_version.increment (H := reference.ilp32) 41 = 42
  /\ pubsub.node_version.distance (pubsub.node_version.increment (H := reference.ilp32) 41) 41
     = 1
  /\ pubsub.node_version.increment (H := reference.ilp32) (2 ^ 32 - 1) = 0
  /\ pubsub.node_version.distance
       (pubsub.node_version.increment (H := reference.lp64) (2 ^ 64 - 1)) (2 ^ 64 - 1)
     = 1.
Proof.
  destruct (increment_is_one_step (H := reference.ilp32) 41) as (Hnext & _ & Hstep).
  { unfold pubsub.node_version.in_range. simpl. lia. }
  destruct (increment_is_one_step (H := reference.ilp32) (2 ^ 32 - 1)) as (_ & Hwrap & _).
  { unfold pubsub.node_version.in_range. simpl. lia. }
  destruct (increment_is_one_step (H := reference.lp64) (2 ^ 64 - 1)) as (_ & _ & Hwide).
  { unfold pubsub.node_version.in_range. simpl. lia. }
  split; [apply Hnext; simpl; lia|].
  split; [apply Hstep; left; simpl; lia|].
  split; [apply Hwrap; simpl; lia|].
  apply Hwide. right. simpl. lia.
Defined.

Lemma plus_moves_by_unsigned_negation_witness :
  pubsub.node_version.plus (H := reference.ilp32) 41 1 = 42
  /\ pubsub.node_version.plus (H := reference.lp64) (2 ^ 32) 1 = 1.
Proof.
  destruct (plus_moves_by_unsigned_negation (H := reference.ilp32) 41 1) as [_ H32]; [lia|].
  destruct (plus_moves_by_unsigned_negation (H := reference.lp64) (2 ^ 32) 1) as [H64 _];
    [lia|].
  split.
  - destruct H32 as [Hsum _]; [reflexivity|]. rewrite Hsum. reflexivity.
  - rewrite H64. reflexivity.
Defined.

(* ===================================================================== *)
(** * Nodes: updates and what later readers get *)
(* ===================================================================== *)

Section node_updates.
Import cxx json pubsub.
Context `{implementation} `{platform}.

(** What [get_update_from] gives for a known version that is [d] steps
    behind, [d] being positive and at most the length of the ring. *)
Lemma get_update_from_behind (n : node.t) (known_version : node_version.t) (d : nat) :
  node_version.distance (node.version_ n) known_version = Z.of_nat d ->
  (0 < d <= length (node.updates_ n))%nat ->
  Z.of_nat (length (node.updates_ n)) <= int_max ->
  node.get_update_from n known_version
  = (true, array (drop (length (node.updates_ n) - d) (node.updates_ n))).
Proof.
  intros Hd Hrange Hlen. unfold node.get_update_from. rewrite Hd.
  rewrite static_cast_int_small by (unfold int_min; lia).
  destruct (Z.leb_spec (Z.of_nat d) 0); [lia|].
  destruct (Z.gtb_spec (Z.of_nat d) (Z.of_nat (length (node.updates_ n)))); [lia|].
  cbn [orb]. rewrite Nat2Z.id.
  destruct (array_copy_last (node.updates_ n) d) as [-> _]; [lia|]. reflexivity.
Qed.


(** X16.  The oldest version of a node whose ring is not empty and has at
    most [INT_MAX] updates is the current version minus the length of the
    ring, modulo the range of the counter; and a reader at the oldest
    version is sent the whole ring, when the counter has not wrapped
    within the ring or has at least 64 bits. *)
Theorem get_update_from_oldest_version (n : node.t) :
  node_version.in_range (node.current_version n) ->
  node.updates_ n <> [] ->
  Z.of_nat (length (node.updates_ n)) <= int_max ->
  Z.of_nat (length (node.updates_ n)) <= node.current_version n \/ 64 <= version_bits ->
  node.oldest_version n
  = (node.current_version n - Z.of_nat (length (node.updates_ n))) mod 2 ^ version_bits
  /\ node.get_update_from n (node.oldest_version n) = (true, array (node.updates_ n)).
Proof.
  intros Hv Hring Hlen Hwrap.
  unfold node.current_version, node_version.in_range in *.
  assert (Hpos : (0 < length (node.updates_ n))%nat).
  { destruct (node.updates_ n); [contradiction|simpl; lia]. }
  assert (Holdest : node.oldest_version n
                    = wrap_unsigned version_bits
                        (node.version_ n - Z.of_nat (length (node.updates_ n)))).
  { unfold node.oldest_version, node_version.decrement.
    rewrite to_unsigned_small by (unfold int_max in Hlen; lia). reflexivity. }
  split; [exact Holdest|].
  rewrite (get_update_from_behind n _ (length (node.updates_ n))).
  - rewrite Nat.sub_diag. reflexivity.
  - apply distance_of_difference; [|unfold int_min; lia].
    rewrite Holdest. destruct Hwrap as [Hwrap|Hbits].
    + unfold wrap_unsigned. rewrite Z.mod_small by lia. exists 0. lia.
    + destruct (wrap_unsigned_divide version_bits
                  (node.version_ n - Z.of_nat (length (node.updates_ n))) Hbits)
        as [k Hk].
      exists (- k). lia.
  - lia.
  - exact Hlen.
Qed.

(** What [remove_old_versions] leaves of a ring whose last update fits the
    budget by itself ends with that update. *)
Lemma remove_old_versions_keeps_last (max_size : Z) (ring : list value) (d : value) :
  size_exceeds (array [d]) max_size = false ->
  exists kept, node.remove_old_versions max_size (ring ++ [d]) = kept ++ [d]
               /\ kept `suffix_of` ring.
Proof.
  intros Hd. induction ring as [|u ring IH].
  - exists []. simpl. rewrite Hd. split; reflexivity.
  - change ((u :: ring) ++ [d]) with (u :: (ring ++ [d])).
    cbn [node.remove_old_versions].
    destruct (size_exceeds (array (u :: ring ++ [d])) max_size).
    + destruct IH as (kept & -> & Hkept). exists kept. split; [reflexivity|].
      apply suffix_cons_r, Hkept.
    + exists (u :: ring). split; reflexivity.
Qed.

Lemma remove_old_versions_fixed (max_size : Z) (ring : list value) :
  size_exceeds (array ring) max_size = false ->
  node.remove_old_versions max_size ring = ring.
Proof.
  destruct ring as [|u ring]; [reflexivity|]. simpl. intros ->. reflexivity.
Qed.

(** The budget of an update: [new_data.size() * percent / 100]. *)
Lemma update_changed (n : node.t) (new_data : value) (percent : Z) :
  value_eqb new_data (node.data_ n) = false ->
  let max_size :=
    wrap_unsigned size_t_bits (Z.of_nat (size new_data) * percent) / 100 in
  node.update n new_data percent
  = (true,
     {| node.data_ := new_data;
        node.version_ := node_version.increment (node.version_ n);
        node.updates_ :=
          node.remove_old_versions max_size
            (if negb (max_size =? 0) then
               if (delta (node.data_ n) new_data max_size).1
               then insert (node.updates_ n) (length (node.updates_ n))
                      (delta (node.data_ n) new_data max_size).2
               else node.updates_ n
             else node.updates_ n) |}).
Proof. intros Hne. unfold node.update. rewrite Hne. reflexivity. Qed.

Lemma insert_at_end (ring : list value) (d : value) :
  insert ring (length ring) d = ring ++ [d].
Proof. unfold insert. rewrite take_ge, drop_ge by lia. reflexivity. Qed.

(** The node after an update that changes the value and stores no
    delta. *)
Lemma update_without_delta (n : node.t) (new_data : value) (percent : Z) :
  let max_size :=
    wrap_unsigned size_t_bits (Z.of_nat (size new_data) * percent) / 100 in
  value_eqb new_data (node.data_ n) = false ->
  max_size <> 0 ->
  (delta (node.data_ n) new_data max_size).1 = false ->
  size_exceeds (array (node.updates_ n)) max_size = false ->
  node.update n new_data percent
  = (true,
     {| node.data_ := new_data;
        node.version_ := node_version.increment (node.version_ n);
        node.updates_ := node.updates_ n |}).
Proof.
  intros max_size Hne Hmax Hnone Hring.
  rewrite (update_changed n new_data percent Hne). fold max_size.
  destruct (Z.eqb_spec max_size 0) as [|_]; [contradiction|]. cbn [negb].
  rewrite Hnone, (remove_old_versions_fixed _ _ Hring). reflexivity.
Qed.

(** The node after an update that stores a delta which fits the budget by
    itself: the ring ends with that delta. *)
Lemma update_with_delta (n : node.t) (new_data d : value) (percent : Z) :
  let max_size :=
    wrap_unsigned size_t_bits (Z.of_nat (size new_data) * percent) / 100 in
  value_eqb new_data (node.data_ n) = false ->
  max_size <> 0 ->
  delta (node.data_ n) new_data max_size = (true, d) ->
  size_exceeds (array [d]) max_size = false ->
  exists kept,
    kept `suffix_of` node.updates_ n
    /\ node.update n new_data percent
       = (true,
          {| node.data_ := new_data;
             node.version_ := node_version.increment (node.version_ n);
             node.updates_ := kept ++ [d] |}).
Proof.
  intros max_size Hne Hmax Hdelta Hfits.
  rewrite (update_changed n new_data percent Hne). fold max_size.
  destruct (Z.eqb_spec max_size 0) as [|_]; [contradiction|]. cbn [negb].
  rewrite Hdelta. cbn [fst snd]. rewrite insert_at_end.
  destruct (remove_old_versions_keeps_last max_size (node.updates_ n) d Hfits)
    as (kept & -> & Hsuffix).
  exists kept. split; [exact Hsuffix|reflexivity].
Qed.

(** A reader one step behind a node is sent the last update of its
    ring. *)
Lemma get_update_from_one_behind (n : node.t) (known_version : node_version.t)
    (front : list value) (last : value) :
  node_version.distance (node.version_ n) known_version = 1 ->
  node.updates_ n = front ++ [last] ->
  Z.of_nat (length (node.updates_ n)) <= int_max ->
  node.get_update_from n known_version = (true, array [last]).
Proof.
  intros Hdistance Hring Hlen.
  rewrite (get_update_from_behind n known_version 1).
  - rewrite Hring, length_app. simpl.
    replace (length front + 1 - 1)%nat with (length front) by lia.
    rewrite drop_app_length. reflexivity.
  - exact Hdistance.
  - rewrite Hring, length_app. simpl. lia.
  - exact Hlen.
Qed.

(** A reader that is not behind a node is sent the value. *)
Lemma get_update_from_not_behind (n : node.t) (known_version : node_version.t) :
  node_version.distance (node.version_ n) known_version <= 0 ->
  node.get_update_from n known_version = (false, node.data_ n).
Proof.
  intros Hdistance. unfold node.get_update_from.
  destruct (Z.leb_spec (node_version.distance (node.version_ n) known_version) 0);
    [reflexivity|lia].
Qed.

(** X17.  An update of a node whose ring has fewer than [INT_MAX]
    updates, with a value that differs, for which [delta] gives an update
    instruction [d] that is within the budget by itself.  A reader that
    knows the version before the update is then sent exactly [[d]], when
    the counter did not wrap at this update or has at least 64 bits; when
    a counter of fewer than 64 bits wrapped, the reader is sent the new
    value. *)
Theorem update_delta_for_previous_version (n : node.t) (new_data d : value) (percent : Z) :
  let max_size :=
    wrap_unsigned size_t_bits (Z.of_nat (size new_data) * percent) / 100 in
  let after := (node.update n new_data percent).2 in
  node_version.in_range (node.current_version n) ->
  Z.of_nat (length (node.updates_ n)) < int_max ->
  value_eqb new_data (node.data n) = false ->
  max_size <> 0 ->
  delta (node.data n) new_data max_size = (true, d) ->
  size_exceeds (array [d]) max_size = false ->
  (node.current_version n + 1 < 2 ^ version_bits \/ 64 <= version_bits ->
     node.get_update_from after (node.current_version n) = (true, array [d]))
  /\ (node.current_version n + 1 = 2 ^ version_bits -> version_bits < 64 ->
      node.get_update_from after (node.current_version n) = (false, new_data)).
Proof.
  intros max_size after Hv Hlen Hne Hmax Hdelta Hfits.
  unfold node.current_version, node.data in *.
  destruct (update_with_delta n new_data d percent Hne Hmax Hdelta Hfits)
    as (kept & Hsuffix & Hupdate).
  subst after. rewrite Hupdate. cbn [snd].
  pose proof (suffix_length _ _ Hsuffix) as Hshorter.
  split.
  - intros Hnext. apply (get_update_from_one_behind _ _ kept d).
    + apply increment_distance; assumption.
    + reflexivity.
    + cbn [node.updates_]. rewrite length_app. simpl. lia.
  - intros Hlast Hbits.
    destruct (increment_wrapped_distance (node.version_ n) Hv Hlast Hbits) as [_ Hbehind].
    apply get_update_from_not_behind. exact Hbehind.
Qed.

(** X18.  An update with a value that differs, for which [delta] gives no
    update instruction while the budget is not 0, on a node whose ring is
    within that budget and has at most [INT_MAX] updates.  The update
    returns [true], stores the value and increments the version, and the
    ring is left as it is.  A reader that knows the version before the
    update is then sent the last delta of the ring, the one that led to
    the version it knows (when the counter did not wrap at this update or
    has at least 64 bits). *)
Theorem update_without_delta_keeps_ring (n : node.t) (new_data last : value)
    (percent : Z) :
  let max_size :=
    wrap_unsigned size_t_bits (Z.of_nat (size new_data) * percent) / 100 in
  node_version.in_range (node.current_version n) ->
  node.current_version n + 1 < 2 ^ version_bits \/ 64 <= version_bits ->
  Z.of_nat (length (node.updates_ n)) <= int_max ->
  value_eqb new_data (node.data n) = false ->
  max_size <> 0 ->
  (delta (node.data n) new_data max_size).1 = false ->
  size_exceeds (array (node.updates_ n)) max_size = false ->
  list.last (node.updates_ n) = Some last ->
  node.update n new_data percent
  = (true,
     {| node.data_ := new_data;
        node.version_ := node_version.increment (node.current_version n);
        node.updates_ := node.updates_ n |})
  /\ node.get_update_from (node.update n new_data percent).2 (node.current_version n)
     = (true, array [last]).
Proof.
  intros max_size Hv Hnext Hlen Hne Hmax Hnone Hring Hlast.
  unfold node.current_version, node.data in *.
  rewrite (update_without_delta n new_data percent Hne Hmax Hnone Hring). cbn [snd].
  split; [reflexivity|].
  apply last_Some in Hlast as (front & Hfront).
  apply (get_update_from_one_behind _ _ front last).
  - apply increment_distance; assumption.
  - exact Hfront.
  - exact Hlen.
Qed.

(** No suffix of the ring that is longer than what [remove_old_versions]
    leaves is within the budget. *)
Lemma remove_old_versions_longest (max_size : Z) (ring kept : list value) :
  kept `suffix_of` ring ->
  (length (node.remove_old_versions max_size ring) < length kept)%nat ->
  size_exceeds (array kept) max_size = true.
Proof.
  induction ring as [|u ring IH]; intros Hsuffix Hlonger.
  - apply suffix_nil_inv in Hsuffix. subst kept. simpl in Hlonger. lia.
  - cbn [node.remove_old_versions] in Hlonger.
    destruct (size_exceeds (array (u :: ring)) max_size) eqn:Hexceeds.
    + destruct kept as [|k kept]; [simpl in Hlonger; lia|].
      apply suffix_cons_inv in Hsuffix as [Heq|Hsuffix].
      * rewrite Heq. exact Hexceeds.
      * apply IH; assumption.
    + apply suffix_length in Hsuffix. lia.
Qed.

(** With a budget of 0 nothing is left of the ring, where every array
    that is not empty has a serialized form that is not. *)
Lemma remove_old_versions_zero (ring : list value) :
  (forall l, l <> [] -> (0 < size (array l))%nat) ->
  node.remove_old_versions 0 ring = [].
Proof.
  intros Hsize. induction ring as [|u ring IH]; [reflexivity|].
  cbn [node.remove_old_versions]. unfold size_exceeds.
  specialize (Hsize (u :: ring)).
  destruct (Z.gtb_spec (Z.of_nat (size (array (u :: ring)))) 0) as [_|Hzero];
    [exact IH|].
  assert (0 < size (array (u :: ring)))%nat by (apply Hsize; discriminate). lia.
Qed.

(** X19.  The ring after an update that changes the value.  The updates
    that are stored are those of the ring before, with the update
    instruction of [delta] at their end exactly when the budget
    [max_size = new_data.size() * percent / 100] is not 0 and [delta]
    gave one.  The ring is the longest suffix of the stored updates that
    is empty or has a serialized size within the budget: the oldest
    updates were dropped, and every longer suffix exceeds the budget.
    With a budget of 0 the ring is empty, where the serialized form of
    every array that is not empty has a size. *)
Theorem update_ring_within_budget (n : node.t) (new_data : value) (percent : Z) :
  let max_size :=
    wrap_unsigned size_t_bits (Z.of_nat (size new_data) * percent) / 100 in
  let instruction := delta (node.data n) new_data max_size in
  let stored :=
    if negb (max_size =? 0) && instruction.1
    then node.updates_ n ++ [instruction.2]
    else node.updates_ n in
  let ring := node.updates_ (node.update n new_data percent).2 in
  value_eqb new_data (node.data n) = false ->
  ring `suffix_of` stored
  /\ (ring = [] \/ Z.of_nat (size (array ring)) <= max_size)
  /\ (forall kept, kept `suffix_of` stored -> (length ring < length kept)%nat ->
        size_exceeds (array kept) max_size = true)
  /\ (max_size = 0 -> (forall l, l <> [] -> (0 < size (array l))%nat) -> ring = []).
Proof.
  intros max_size instruction stored ring Hne. unfold node.data in *.
  assert (Hring : ring = node.remove_old_versions max_size stored).
  { subst ring stored instruction.
    rewrite (update_changed n new_data percent Hne). cbn [snd node.updates_].
    fold max_size. destruct (negb (max_size =? 0)); [|reflexivity].
    destruct (delta (node.data_ n) new_data max_size) as [[|] d]; cbn [fst snd andb];
      [rewrite insert_at_end|]; reflexivity. }
  rewrite Hring.
  split; [apply remove_old_versions_suffix|].
  split; [apply remove_old_versions_budget|].
  split; [intros kept; apply remove_old_versions_longest|].
  intros Hzero Hsize. rewrite Hzero. apply remove_old_versions_zero, Hsize.
Qed.

(** C3.  A node is created with the value [a] and updated twice: to [b],
    where [delta] gives the update instruction [d] and [d] is within the
    budget, and to [c], where [delta] gives no update instruction while
    the budget is not 0 and admits the ring.  After the first update a
    reader that knows the first version is sent [[d]], the delta that
    leads from [a] to [b].  After the second update the ring is still
    [[d]], its oldest version is the second version, and a reader that
    knows the second version, whose value is [b], is sent
    [(true, [d])]: the delta that led to the version it knows, as if it
    led from there to the current version, whose value is [c]. *)
Theorem get_update_from_after_update_without_delta (v : node_version.t)
    (a b c d : value) (p q : Z) :
  let budget new_data percent :=
    wrap_unsigned size_t_bits (Z.of_nat (size new_data) * percent) / 100 in
  let n1 := (node.update (node.create v a) b p).2 in
  let n2 := (node.update n1 c q).2 in
  0 <= v -> v + 2 < 2 ^ version_bits ->
  value_eqb b a = false -> budget b p <> 0 ->
  delta a b (budget b p) = (true, d) ->
  size_exceeds (array [d]) (budget b p) = false ->
  value_eqb c b = false -> budget c q <> 0 ->
  (delta b c (budget c q)).1 = false ->
  size_exceeds (array [d]) (budget c q) = false ->
  (node.current_version n1 = v + 1 /\ node.data n1 = b
   /\ node.get_update_from n1 v = (true, array [d]))
  /\ (node.current_version n2 = v + 2 /\ node.data n2 = c
      /\ node.updates_ n2 = [d]
      /\ node.oldest_version n2 = v + 1
      /\ node.get_update_from n2 (v + 1) = (true, array [d])).
Proof.
  intros budget n1 n2 Hv Hnext Hab Hp Hdelta Hfits Hbc Hq Hnone Hkept.
  assert (Hfirst : node_version.increment v = v + 1).
  { unfold node_version.increment, wrap_unsigned. apply Z.mod_small. lia. }
  assert (Hsecond : node_version.increment (v + 1) = v + 2).
  { unfold node_version.increment, wrap_unsigned.
    replace (v + 1 + 1) with (v + 2) by lia. apply Z.mod_small. lia. }
  assert (Hn1 : n1 = {| node.data_ := b; node.version_ := v + 1; node.updates_ := [d] |}).
  { subst n1.
    destruct (update_with_delta (node.create v a) b d p Hab Hp Hdelta Hfits)
      as (kept & Hsuffix & ->).
    apply suffix_nil_inv in Hsuffix. subst kept. cbn [snd node.create node.version_].
    rewrite Hfirst. reflexivity. }
  assert (Hn2 : n2 = {| node.data_ := c; node.version_ := v + 2; node.updates_ := [d] |}).
  { subst n2. rewrite Hn1.
    rewrite update_without_delta; cbn [node.data_ node.version_ node.updates_ snd];
      [rewrite Hsecond; reflexivity|assumption..]. }
  rewrite Hn1, Hn2. unfold node.current_version, node.data. cbn [node.version_ node.data_ node.updates_].
  assert (Hstep : forall w, node_version.distance (w + 1) w = 1).
  { intros w. apply distance_of_difference; [exists 0; lia|unfold int_min, int_max; lia]. }
  assert (Hone : Z.of_nat (length [d]) <= int_max) by (unfold int_max; simpl; lia).
  split; [|split; [reflexivity|split; [reflexivity|split; [reflexivity|split]]]].
  - split; [reflexivity|]. split; [reflexivity|].
    apply (get_update_from_one_behind _ _ [] d); [apply Hstep|reflexivity|exact Hone].
  - unfold node.oldest_version, node_version.decrement. cbn [node.version_ node.updates_].
    rewrite to_unsigned_small by (simpl; lia).
    unfold wrap_unsigned. simpl length. rewrite Z.mod_small by lia. lia.
  - apply (get_update_from_one_behind _ _ [] d); [|reflexivity|exact Hone].
    replace (v + 2) with (v + 1 + 1) by lia. apply Hstep.
Qed.

End node_updates.


Lemma get_update_from_oldest_version_witness :
  let n := {| pubsub.node.data_ := json.number 3; pubsub.node.version_ := 12;
              pubsub.node.updates_ := [json.number 2; json.number 3] |} in
  let wrapped := {| pubsub.node.data_ := json.number 3; pubsub.node.version_ := 1;
                    pubsub.node.updates_ := [json.number 2; json.number 3] |} in
  pubsub.node.oldest_version (H := reference.ilp32) n = 10
  /\ pubsub.node.get_update_from n 10 = (true, json.array [json.number 2; json.number 3])
  /\ pubsub.node.oldest_version (H := reference.lp64) wrapped = 2 ^ 64 - 1
  /\ pubsub.node.get_update_from wrapped (2 ^ 64 - 1)
     = (true, json.array [json.number 2; json.number 3]).
Proof.
  intros n wrapped.
  destruct (get_update_from_oldest_version (H0 := reference.ilp32) n) as [Holdest Hring].
  { unfold pubsub.node_version.in_range. simpl. lia. }
  { discriminate. }
  { unfold cxx.int_max. simpl. lia. }
  { left. simpl. lia. }
  destruct (get_update_from_oldest_version (H0 := reference.lp64) wrapped)
    as [Hbefore Hwhole].
  { unfold pubsub.node_version.in_range. simpl. lia. }
  { discriminate. }
  { unfold cxx.int_max. simpl. lia. }
  { right. simpl. lia. }
  assert (Hten : pubsub.node.oldest_version (H := reference.ilp32) n = 10)
    by (rewrite Holdest; reflexivity).
  assert (Hlast : pubsub.node.oldest_version (H := reference.lp64) wrapped = 2 ^ 64 - 1)
    by (rewrite Hbefore; reflexivity).
  rewrite Hten in Hring. rewrite Hlast in Hwhole.
  split; [exact Hten|]. split; [exact Hring|]. split; [exact Hlast|exact Hwhole].
Defined.

Lemma update_delta_for_previous_version_witness :
  let n := pubsub.node.create 7 (json.number 1) in
  let last := pubsub.node.create (2 ^ 32 - 1) (json.number 1) in
  pubsub.node.get_update_from
    (pubsub.node.update (H := reference.compact) (H0 := reference.ilp32)
       n (json.number 22) 200).2 7
  = (true, json.array [json.number 22])
  /\ pubsub.node.get_update_from
       (pubsub.node.update (H := reference.compact) (H0 := reference.ilp32)
          last (json.number 22) 200).2 (2 ^ 32 - 1)
     = (false, json.number 22).
Proof.
  intros n last. split.
  - apply (update_delta_for_previous_version (H := reference.compact)
             (H0 := reference.ilp32) n (json.number 22) (json.number 22) 200).
    + unfold pubsub.node_version.in_range. simpl. lia.
    + unfold cxx.int_max. simpl. lia.
    + reflexivity.
    + vm_compute. discriminate.
    + reflexivity.
    + reflexivity.
    + left. simpl. lia.
  - apply (update_delta_for_previous_version (H := reference.compact)
             (H0 := reference.ilp32) last (json.number 22) (json.number 22) 200).
    + unfold pubsub.node_version.in_range. simpl. lia.
    + unfold cxx.int_max. simpl. lia.
    + reflexivity.
    + vm_compute. discriminate.
    + reflexivity.
    + reflexivity.
    + simpl. lia.
    + simpl. lia.
Defined.

Lemma update_without_delta_keeps_ring_witness :
  let n := {| pubsub.node.data_ := json.number 1; pubsub.node.version_ := 8;
              pubsub.node.updates_ := [json.number 1] |} in
  let updated := pubsub.node.update (H := reference.compact) (H0 := reference.ilp32)
                   n (json.number 333333) 99 in
  updated
  = (true,
     {| pubsub.node.data_ := json.number 333333; pubsub.node.version_ := 9;
        pubsub.node.updates_ := [json.number 1] |})
  /\ pubsub.node.get_update_from updated.2 8 = (true, json.array [json.number 1]).
Proof.
  intros n updated.
  apply (update_without_delta_keeps_ring (H := reference.compact)
           (H0 := reference.ilp32) n (json.number 333333) (json.number 1) 99).
  - unfold pubsub.node_version.in_range. simpl. lia.
  - left. simpl. lia.
  - unfold cxx.int_max. simpl. lia.
  - reflexivity.
  - vm_compute. discriminate.
  - reflexivity.
  - reflexivity.
  - reflexivity.
Defined.

Lemma update_ring_within_budget_witness :
  let n := {| pubsub.node.data_ := json.number 1; pubsub.node.version_ := 8;
              pubsub.node.updates_ := [json.number 55555; json.number 1] |} in
  let ring := pubsub.node.updates_
                (pubsub.node.update (H := reference.compact) (H0 := reference.ilp32)
                   n (json.number 22) 300).2 in
  ring = [json.number 1; json.number 22]
  /\ ring `suffix_of` [json.number 55555; json.number 1; json.number 22]
  /\ (ring = []
      \/ Z.of_nat (json.size (implementation := reference.compact) (json.array ring)) <= 6)
  /\ json.size_exceeds (H := reference.compact)
       (json.array [json.number 55555; json.number 1; json.number 22]) 6 = true
  /\ pubsub.node.updates_
       (pubsub.node.update (H := reference.compact) (H0 := reference.ilp32)
          n (json.number 22) 0).2 = [].
Proof.
  intros n ring.
  destruct (update_ring_within_budget (H := reference.compact) (H0 := reference.ilp32)
              n (json.number 22) 300) as (Hsuffix & Hbudget & Hlongest & _);
    [reflexivity|].
  destruct (update_ring_within_budget (H := reference.compact) (H0 := reference.ilp32)
              n (json.number 22) 0) as (_ & _ & _ & Hzero);
    [reflexivity|].
  split; [reflexivity|]. split; [exact Hsuffix|]. split; [exact Hbudget|].
  split.
  - apply Hlongest; [reflexivity|]. simpl. lia.
  - apply Hzero; [reflexivity|].
    intros l _. simpl. lia.
Defined.

Lemma get_update_from_after_update_without_delta_witness :
  let n1 := (pubsub.node.update (H := reference.compact) (H0 := reference.ilp32)
               (pubsub.node.create 7 (json.number 1)) (json.number 2) 300).2 in
  let n2 := (pubsub.node.update (H := reference.compact) (H0 := reference.ilp32)
               n1 (json.number 333333) 99).2 in
  (pubsub.node.current_version n1 = 8 /\ pubsub.node.data n1 = json.number 2
   /\ pubsub.node.get_update_from n1 7 = (true, json.array [json.number 2]))
  /\ (pubsub.node.current_version n2 = 9 /\ pubsub.node.data n2 = json.number 333333
      /\ pubsub.node.updates_ n2 = [json.number 2]
      /\ pubsub.node.oldest_version (H := reference.ilp32) n2 = 8
      /\ pubsub.node.get_update_from n2 8 = (true, json.array [json.number 2])).
Proof.
  intros n1 n2.
  apply (get_update_from_after_update_without_delta (H := reference.compact)
           (H0 := reference.ilp32) 7 (json.number 1) (json.number 2) (json.number 333333)
           (json.number 2) 300 99).
  - lia.
  - simpl. lia.
  - reflexivity.
  - vm_compute. discriminate.
  - reflexivity.
  - reflexivity.
  - reflexivity.
  - vm_compute. discriminate.
  - reflexivity.
  - reflexivity.
Defined.

(* ===================================================================== *)
(** * The session connector: histories of calls *)
(* ===================================================================== *)

Section connector_histories.
Import cxx bayeux bayeux.connector.

(** The condition of [assert( sessions_.size() == index_.size() )]. *)
Lemma update_session_sizes (c : connector.t) (session_id : string) (d d' : session_data) :
  sessions_ c !! session_id = Some d ->
  size (<[session_id := d']> (sessions_ c)) = size (sessions_ c).
Proof. intros Hd. apply map_size_insert_Some. rewrite Hd. eauto. Qed.

Lemma remove_session_sizes (c : connector.t) (session_id : string) (d : session_data) :
  consistent c -> size (sessions_ c) = size (index_ c) ->
  sessions_ c !! session_id = Some d ->
  size (delete session_id (sessions_ c)) = size (delete (session_ d) (index_ c)).
Proof.
  intros (Hsessions & _) Hsize Hd.
  rewrite !map_size_delete_Some; [lia| |].
  - rewrite (Hsessions _ _ Hd). eauto.
  - rewrite Hd. eauto.
Qed.

Lemma perform_sizes (c c' : connector.t) (o : operation) :
  consistent c -> size (sessions_ c) = size (index_ c) ->
  perform c o = Some c' ->
  size (sessions_ c') = size (index_ c').
Proof.
  intros Hc Hsize. destruct o as [id|generated|s|id|s ec]; simpl.
  - intros Hc'. injection Hc' as <-. unfold find_session.
    destruct (sessions_ c !! id) as [d|] eqn:Hd; simpl; [|exact Hsize].
    rewrite (update_session_sizes c id d) by exact Hd. exact Hsize.
  - destruct (create_session c generated) as [[s created]|] eqn:Hcreate;
      simpl; [|discriminate].
    intros Hc'. injection Hc' as <-.
    induction generated as [|id later IH]; simpl in Hcreate; [discriminate|].
    destruct (sessions_ c !! id) as [d|] eqn:Hd; [exact (IH Hcreate)|].
    injection Hcreate as <- <-. simpl.
    rewrite (map_size_insert_None id) by exact Hd.
    rewrite map_size_insert_None; [lia|].
    destruct (index_ c !! allocated_ c) as [taken|] eqn:Hindex; [|exact Hindex].
    destruct Hc as (_ & _ & Halloc). pose proof (Halloc _ _ Hindex). lia.
  - unfold idle_session.
    destruct (index_ c !! s) as [pos|]; simpl; [|discriminate].
    destruct (sessions_ c !! pos) as [d|] eqn:Hd; simpl; [|discriminate].
    destruct (use_count_ d >? 0); [|discriminate]. intros Hc'. injection Hc' as <-.
    simpl. rewrite (update_session_sizes c pos d) by exact Hd. exact Hsize.
  - intros Hc'. injection Hc' as <-. unfold drop_session.
    destruct (sessions_ c !! id) as [d|] eqn:Hd; [|exact Hsize].
    destruct (use_count_ d =? 0); [|exact Hsize]. simpl.
    apply remove_session_sizes; assumption.
  - intros Hc'. injection Hc' as <-. unfold session_timeout_reached.
    destruct ec; [exact Hsize|].
    destruct (index_ c !! s) as [pos|] eqn:Hs; [|exact Hsize].
    destruct (sessions_ c !! pos) as [d|] eqn:Hd; [|exact Hsize].
    destruct (use_count_ d =? 0); [|exact Hsize]. simpl.
    assert (Hsame : session_ d = s).
    { destruct Hc as (_ & Hindex & _). destruct (Hindex s pos Hs) as (e & He & <-).
      congruence. }
    rewrite <- Hsame. apply remove_session_sizes; assumption.
Qed.

(** X20.  In every state a connector reaches, the two maps are consistent, and
    they have the same number of entries: the assertions [sessions_.size()
    == index_.size()] of [drop_session] and [session_timeout_reached]
    hold. *)
Theorem run_keeps_maps_consistent (history : list operation) (c : connector.t) :
  run connector.create history = Some c ->
  consistent c /\ size (sessions_ c) = size (index_ c).
Proof.
  assert (Hgen : forall c0, consistent c0 -> size (sessions_ c0) = size (index_ c0) ->
                   run c0 history = Some c ->
                   consistent c /\ size (sessions_ c) = size (index_ c)).
  { induction history as [|o history IH]; intros c0 Hc0 Hsize0; simpl.
    - intros Hc. injection Hc as <-. tauto.
    - destruct (perform c0 o) as [c1|] eqn:Hperform; simpl; [|discriminate].
      apply IH.
      + destruct o as [id|generated|s|id|s ec]; simpl in Hperform.
        * injection Hperform as <-. apply find_session_consistent, Hc0.
        * destruct (create_session c0 generated) as [[s created]|] eqn:Hcreate;
            simpl in Hperform; [|discriminate].
          injection Hperform as <-.
          exact (create_session_consistent generated c0 created s Hc0 Hcreate).
        * exact (idle_session_consistent c0 c1 s Hc0 Hperform).
        * injection Hperform as <-. apply drop_session_consistent, Hc0.
        * injection Hperform as <-. apply session_timeout_reached_consistent, Hc0.
      + exact (perform_sizes c0 c1 o Hc0 Hsize0 Hperform). }
  apply Hgen; [apply create_consistent|reflexivity].
Qed.

Lemma run_keeps_maps_consistent_witness :
  let history :=
    [call_create_session ["s1"]; call_find_session "s1"; call_idle_session 0%nat;
     call_drop_session "s1"; call_idle_session 0%nat; wait_completed 0%nat true;
     call_create_session ["s1"; "s2"]; call_drop_session "s1";
     wait_completed 0%nat false] in
  exists c, run connector.create history = Some c
            /\ consistent c /\ size (sessions_ c) = size (index_ c).
Proof.
  intros history. eexists. split; [reflexivity|].
  apply (run_keeps_maps_consistent history). reflexivity.
Defined.

(** X21.  [create_session] takes the first id of the generator that no session
    has: the ids in front of it are all in use; the new session gets that
    id, a use count of 1 and a new address, and every other session is as
    it was.  The loop ends as soon as the generator gives an id that is
    free. *)
Theorem create_session_takes_first_free_id (c : connector.t) (generated : list string) :
  (forall s c', create_session c generated = Some (s, c') ->
     exists taken session_id later,
       generated = taken ++ session_id :: later
       /\ Forall (fun id => is_Some (sessions_ c !! id)) taken
       /\ sessions_ c !! session_id = None
       /\ s = allocated_ c
       /\ sessions_ c' = <[session_id := new_session_data s]> (sessions_ c)
       /\ index_ c' = <[s := session_id]> (index_ c))
  /\ ((exists session_id, session_id ∈ generated /\ sessions_ c !! session_id = None) ->
      is_Some (create_session c generated)).
Proof.
  split.
  - induction generated as [|id later IH]; intros s c'; simpl; [discriminate|].
    destruct (sessions_ c !! id) as [d|] eqn:Hd.
    + intros Hcreate. destruct (IH s c' Hcreate) as (taken & sid & rest & -> & Htaken & Hrest).
      exists (id :: taken), sid, rest. split; [reflexivity|].
      split; [|exact Hrest]. constructor; [rewrite Hd; eauto|exact Htaken].
    + intros Hcreate. injection Hcreate as <- <-.
      exists [], id, later. simpl. repeat split; [constructor|exact Hd].
  - intros (sid & Hin & Hfree).
    induction generated as [|id later IH]; [inversion Hin|]. simpl.
    destruct (sessions_ c !! id) as [d|] eqn:Hd; [|eauto].
    apply IH. apply elem_of_cons in Hin as [->|Hin]; [congruence|exact Hin].
Qed.

Lemma create_session_takes_first_free_id_witness :
  let c := {| sessions_ := {[ "s1" := new_session_data 0%nat ]};
              index_ := {[ 0%nat := "s1" ]}; allocated_ := 1%nat |} in
  let generated := ["s1"; "s2"; "s3"] in
  exists s c', create_session c generated = Some (s, c')
    /\ exists taken session_id later,
         generated = taken ++ session_id :: later
         /\ Forall (fun id => is_Some (sessions_ c !! id)) taken
         /\ sessions_ c !! session_id = None
         /\ s = allocated_ c
         /\ sessions_ c' = <[session_id := new_session_data s]> (sessions_ c)
         /\ index_ c' = <[s := session_id]> (index_ c).
Proof.
  intros c generated. eexists _, _. split; [reflexivity|].
  apply (proj1 (create_session_takes_first_free_id c generated)). reflexivity.
Defined.

(** X22.  A session that was created is found under its id: [find_session]
    returns the address [create_session] returned, and the use count of
    the session is 2 then. *)
Theorem created_session_is_found (c c' : connector.t) (generated : list string)
    (s : session_ptr) :
  create_session c generated = Some (s, c') ->
  exists session_id,
    session_id ∈ generated
    /\ (find_session c' session_id).1 = Some s
    /\ use_count_ <$> sessions_ (find_session c' session_id).2 !! session_id = Some 2.
Proof.
  induction generated as [|id later IH]; simpl; [discriminate|].
  destruct (sessions_ c !! id) as [d|] eqn:Hd.
  - intros Hcreate. destruct (IH Hcreate) as (sid & Hin & Hfound).
    exists sid. split; [apply elem_of_cons; tauto|exact Hfound].
  - intros Hcreate. injection Hcreate as <- <-. exists id.
    split; [apply elem_of_cons; tauto|].
    unfold find_session. simpl. rewrite lookup_insert_eq. simpl.
    rewrite lookup_insert_eq. split; reflexivity.
Qed.

Lemma created_session_is_found_witness :
  let c := {| sessions_ := {[ "s1" := new_session_data 0%nat ]};
              index_ := {[ 0%nat := "s1" ]}; allocated_ := 1%nat |} in
  let generated := ["s1"; "s2"] in
  exists s c', create_session c generated = Some (s, c')
    /\ exists session_id,
         session_id ∈ generated
         /\ (find_session c' session_id).1 = Some s
         /\ use_count_ <$> sessions_ (find_session c' session_id).2 !! session_id
            = Some 2.
Proof.
  intros c generated. eexists _, _. split; [reflexivity|].
  apply (created_session_is_found c _ generated). reflexivity.
Defined.

(** X23.  [find_session] and [idle_session] balance: after the two calls the
    session has the use count it had; where that is 0, the wait for the
    session timeout has been started; nothing else has changed. *)
Theorem find_then_idle_restores_use_count (c : connector.t) (session_id : string)
    (d : session_data) :
  sessions_ c !! session_id = Some d ->
  index_ c !! session_ d = Some session_id ->
  0 <= use_count_ d < 2 ^ 32 - 1 ->
  (find_session c session_id).1 = Some (session_ d)
  /\ idle_session (find_session c session_id).2 (session_ d)
     = Some {| sessions_ :=
                 <[session_id := if use_count_ d =? 0 then with_timer d true else d]>
                   (sessions_ c);
               index_ := index_ c;
               allocated_ := allocated_ c |}.
Proof.
  intros Hd Hindex Hcount. unfold find_session. rewrite Hd. simpl.
  split; [reflexivity|].
  unfold idle_session. simpl. rewrite Hindex. simpl. rewrite lookup_insert_eq. simpl.
  rewrite to_unsigned_small by lia.
  destruct (Z.gtb_spec (use_count_ d + 1) 0); [|lia].
  replace (use_count_ d + 1 - 1) with (use_count_ d) by lia.
  rewrite to_unsigned_small by lia.
  rewrite insert_insert_eq. do 3 f_equal.
  destruct d as [count remove session timer]. simpl.
  destruct (count =? 0); reflexivity.
Qed.

Lemma find_then_idle_restores_use_count_witness :
  let d := {| use_count_ := 0; remove_ := false; session_ := 0%nat; timer_ := false |} in
  let c := {| sessions_ := {[ "s1" := d ]}; index_ := {[ 0%nat := "s1" ]};
              allocated_ := 1%nat |} in
  (find_session c "s1").1 = Some 0%nat
  /\ idle_session (find_session c "s1").2 0%nat
     = Some {| sessions_ := <[ "s1" := with_timer d true ]> (sessions_ c);
               index_ := index_ c; allocated_ := allocated_ c |}.
Proof.
  intros d c.
  apply (find_then_idle_restores_use_count c "s1" d); [reflexivity|reflexivity|].
  simpl. lia.
Defined.

(** X24.  A session that is in use is removed neither by [drop_session] nor by
    the end of the wait for the session timeout. *)
Theorem session_in_use_is_kept (c : connector.t) (session_id : string)
    (d : session_data) :
  sessions_ c !! session_id = Some d ->
  index_ c !! session_ d = Some session_id ->
  use_count_ d <> 0 ->
  drop_session c session_id = c
  /\ (forall ec, session_timeout_reached c (session_ d) ec = c).
Proof.
  intros Hd Hindex Hused. split.
  - unfold drop_session. rewrite Hd.
    destruct (Z.eqb_spec (use_count_ d) 0); [contradiction|reflexivity].
  - intros ec. unfold session_timeout_reached. rewrite Hindex, Hd.
    destruct ec; [reflexivity|].
    destruct (Z.eqb_spec (use_count_ d) 0); [contradiction|reflexivity].
Qed.

Lemma session_in_use_is_kept_witness :
  let d := new_session_data 0%nat in
  let c := {| sessions_ := {[ "s1" := d ]}; index_ := {[ 0%nat := "s1" ]};
              allocated_ := 1%nat |} in
  drop_session c "s1" = c
  /\ (forall ec, session_timeout_reached c 0%nat ec = c).
Proof.
  intros d c.
  apply (session_in_use_is_kept c "s1" d); [reflexivity|reflexivity|].
  simpl. lia.
Defined.

(** X25.  The end of the wait for the session timeout removes the session from
    both maps exactly when the wait was not cancelled and the session is
    not in use. *)
Theorem session_timeout_removes_iff (c : connector.t) (s : session_ptr)
    (session_id : string) (d : session_data) (ec : bool) :
  index_ c !! s = Some session_id ->
  sessions_ c !! session_id = Some d ->
  (sessions_ (session_timeout_reached c s ec) !! session_id = None
   <-> ec = false /\ use_count_ d = 0)
  /\ (index_ (session_timeout_reached c s ec) !! s = None
      <-> ec = false /\ use_count_ d = 0).
Proof.
  intros Hindex Hd. unfold session_timeout_reached. rewrite Hindex, Hd.
  destruct ec.
  - rewrite Hindex, Hd. split; split; try discriminate; intros [? _]; discriminate.
  - destruct (Z.eqb_spec (use_count_ d) 0) as [Hzero|Hused]; simpl.
    + rewrite !lookup_delete_eq. tauto.
    + rewrite Hindex, Hd. split; split; try discriminate; intros [_ ?]; contradiction.
Qed.

Lemma session_timeout_removes_iff_witness :
  let d := {| use_count_ := 0; remove_ := false; session_ := 0%nat; timer_ := true |} in
  let c := {| sessions_ := {[ "s1" := d ]}; index_ := {[ 0%nat := "s1" ]};
              allocated_ := 1%nat |} in
  (sessions_ (session_timeout_reached c 0%nat false) !! "s1" = None
   <-> false = false /\ use_count_ d = 0)
  /\ (index_ (session_timeout_reached c 0%nat false) !! 0%nat = None
      <-> false = false /\ use_count_ d = 0).
Proof.
  intros d c.
  apply (session_timeout_removes_iff c 0%nat "s1" d false); reflexivity.
Defined.

(** X26.  [drop_session]: an id that no session has changes nothing; a session
    leaves the map exactly when its use count is 0; the other sessions stay
    as they are; and a second call changes nothing more. *)
Theorem drop_session_spec (c : connector.t) (session_id : string) :
  (sessions_ c !! session_id = None -> drop_session c session_id = c)
  /\ (forall d, sessions_ c !! session_id = Some d ->
        (sessions_ (drop_session c session_id) !! session_id = None
         <-> use_count_ d = 0))
  /\ (forall other, other <> session_id ->
        sessions_ (drop_session c session_id) !! other = sessions_ c !! other)
  /\ drop_session (drop_session c session_id) session_id = drop_session c session_id.
Proof.
  destruct (sessions_ c !! session_id) as [d|] eqn:Hd.
  - split; [discriminate|].
    destruct (Z.eqb_spec (use_count_ d) 0) as [Hzero|Hused].
    + assert (Hdrop : drop_session c session_id
                      = {| sessions_ := delete session_id (sessions_ c);
                           index_ := delete (session_ d) (index_ c);
                           allocated_ := allocated_ c |}).
      { unfold drop_session. rewrite Hd.
        destruct (Z.eqb_spec (use_count_ d) 0); [reflexivity|contradiction]. }
      rewrite Hdrop. simpl. split; [|split].
      * intros e He. injection He as <-. rewrite lookup_delete_eq. tauto.
      * intros other Hne. apply lookup_delete_ne. congruence.
      * unfold drop_session. simpl. rewrite lookup_delete_eq. reflexivity.
    + assert (Hdrop : drop_session c session_id = c).
      { unfold drop_session. rewrite Hd.
        destruct (Z.eqb_spec (use_count_ d) 0); [contradiction|reflexivity]. }
      rewrite !Hdrop. split; [|split].
      * intros e He. injection He as <-. rewrite Hd. split; [discriminate|contradiction].
      * reflexivity.
      * reflexivity.
  - assert (Hdrop : drop_session c session_id = c).
    { unfold drop_session. rewrite Hd. reflexivity. }
    rewrite !Hdrop. split; [reflexivity|]. split; [discriminate|]. split; reflexivity.
Qed.

Lemma drop_session_spec_witness :
  let d := {| use_count_ := 0; remove_ := false; session_ := 0%nat; timer_ := true |} in
  let c := {| sessions_ := {[ "s1" := d; "s2" := new_session_data 1%nat ]};
              index_ := {[ 0%nat := "s1"; 1%nat := "s2" ]}; allocated_ := 2%nat |} in
  drop_session c "s3" = c
  /\ (sessions_ (drop_session c "s1") !! "s1" = None <-> use_count_ d = 0)
  /\ sessions_ (drop_session c "s1") !! "s2" = sessions_ c !! "s2"
  /\ drop_session (drop_session c "s1") "s1" = drop_session c "s1".
Proof.
  intros d c.
  split; [apply (drop_session_spec c "s3"); reflexivity|].
  split; [apply (drop_session_spec c "s1"); reflexivity|].
  split; [apply (drop_session_spec c "s1"); discriminate|].
  apply (drop_session_spec c "s1").
Defined.

End connector_histories.

(* ===================================================================== *)
(** * The checks of the tests ([bayeux/bayeux_test.cpp]) *)
(* ===================================================================== *)

Section response_checks.
Import cxx json bayeux_test.

Variables (field_name : string) (value : json.value).

Lemma matching_cases (element : json.value) :
  (exists members value_found, element = object members
     /\ find field_name members = Some value_found
     /\ value_eqb value_found value = true)
  \/ (forall members value_found, element = object members ->
        find field_name members = Some value_found ->
        value_eqb value_found value = false).
Proof.
  destruct element as [text|n|members|elements| | |];
    try (right; intros members value_found Hobject; discriminate).
  destruct (find field_name members) as [value_found|] eqn:Hfind.
  - destruct (value_eqb value_found value) eqn:Hequal.
    + left. exists members, value_found. tauto.
    + right. intros ms vf Hobject Hfound. injection Hobject as <-.
      rewrite Hfind in Hfound. injection Hfound as <-. exact Hequal.
  - right. intros ms vf Hobject Hfound. injection Hobject as <-.
    rewrite Hfind in Hfound. discriminate.
Qed.

Lemma matching_list_cases (list : list json.value) :
  Exists (fun element => exists members value_found,
            element = object members
            /\ find field_name members = Some value_found
            /\ value_eqb value_found value = true) list
  \/ Forall (fun element => forall members value_found,
               element = object members ->
               find field_name members = Some value_found ->
               value_eqb value_found value = false) list.
Proof.
  induction list as [|element later IH]; [right; constructor|].
  destruct (matching_cases element) as [Hmatch|Hother].
  - left. apply Exists_cons_hd. exact Hmatch.
  - destruct IH as [Hlater|Hnone].
    + left. apply Exists_cons_tl. exact Hlater.
    + right. constructor; [exact Hother|exact Hnone].
Qed.

Lemma count_fields_from_spec (list : list json.value) :
  forall result : Z,
    0 <= result -> result + Z.of_nat (length list) < 2 ^ 32 ->
    result <= count_fields_from result list field_name value
           <= result + Z.of_nat (length list)
    /\ (count_fields_from result list field_name value = result
        <-> Forall (fun element => forall members value_found,
                      element = object members ->
                      find field_name members = Some value_found ->
                      value_eqb value_found value = false) list).
Proof.
  induction list as [|element later IH]; intros result Hresult Hlength; simpl.
  - split; [simpl; lia|]. split; [constructor|reflexivity].
  - simpl length in Hlength. rewrite Nat2Z.inj_succ in Hlength.
    rewrite Nat2Z.inj_succ.
    destruct (matching_cases element)
      as [(members & value_found & -> & Hfind & Hequal) | Hother].
    + rewrite Hfind, Hequal. rewrite to_unsigned_small by lia.
      destruct (IH (result + 1)) as [Hbounds _]; [lia|lia|].
      split; [lia|]. split.
      * intros Hcount. lia.
      * intros Hall. apply Forall_cons in Hall as [Hnone _].
        rewrite (Hnone members value_found eq_refl Hfind) in Hequal. discriminate.
    + assert (Hskip :
        match element with
        | object members =>
            match find field_name members with
            | Some value_found =>
                if value_eqb value_found value then to_unsigned (result + 1) else result
            | None => result
            end
        | _ => result
        end = result).
      { destruct element as [text|n|members|elements| | |]; try reflexivity.
        destruct (find field_name members) as [value_found|] eqn:Hfind; [|reflexivity].
        rewrite (Hother members value_found eq_refl Hfind). reflexivity. }
      rewrite Hskip. destruct (IH result) as [Hbounds Hzero]; [lia|lia|].
      split; [lia|]. rewrite Hzero. split.
      * intros Hall. constructor; [exact Hother|exact Hall].
      * intros Hall. apply Forall_cons in Hall as [_ Hall]. exact Hall.
Qed.

Lemma occurences_loop_spec (min max : Z) (response : list (list json.value)) :
  forall result : bool,
    occurences_loop response field_name value min max result
    = result
      && forallb (fun i => (count_fields i field_name value >=? min)
                           && (count_fields i field_name value <=? max)) response.
Proof.
  induction response as [|i later IH]; intros result; simpl.
  - rewrite andb_true_r. reflexivity.
  - destruct result; [|reflexivity]. rewrite IH. reflexivity.
Qed.

Lemma occurences_in_range_iff (min max : Z) (response : list (list json.value)) :
  occurences_in_range response field_name value min max = true
  <-> Forall (fun i => min <= count_fields i field_name value <= max) response.
Proof.
  unfold occurences_in_range. rewrite occurences_loop_spec. simpl.
  rewrite forallb_forall, Forall_forall.
  split; intros Hall i Hi.
  - apply list_elem_of_In, Hall in Hi. apply andb_true_iff in Hi as [Hmin Hmax]. lia.
  - apply list_elem_of_In, Hall in Hi. apply andb_true_iff. lia.
Qed.

(** X27.  [contains_not] holds exactly when no message of any response is an
    object whose field [field_name] has the value: for responses of less
    than 2^32 messages, the range of the counter. *)
Theorem contains_not_iff (response : list (list json.value)) :
  Forall (fun i => Z.of_nat (length i) < 2 ^ 32) response ->
  contains_not response field_name value = true
  <-> Forall (fun i =>
        Forall (fun element => forall members value_found,
                  element = object members ->
                  find field_name members = Some value_found ->
                  value_eqb value_found value = false) i) response.
Proof.
  intros Hlength. unfold contains_not. rewrite occurences_in_range_iff.
  rewrite !Forall_forall in *. split; intros Hall i Hi.
  - destruct (count_fields_from_spec i 0) as [_ Hzero]; [lia|specialize (Hlength i Hi); lia|].
    apply Hzero. specialize (Hall i Hi). unfold count_fields in Hall. lia.
  - destruct (count_fields_from_spec i 0) as [_ Hzero]; [lia|specialize (Hlength i Hi); lia|].
    unfold count_fields. apply Hzero in Hall; [|exact Hi]. lia.
Qed.

(** X28.  [contains_at_least_once] asks for the field in every response, not in
    one of them: it holds exactly when each response has a message that is
    an object whose field [field_name] has the value (for responses of at
    most 100000000 messages).  So it holds for no responses at all. *)
Theorem contains_at_least_once_iff (response : list (list json.value)) :
  Forall (fun i => Z.of_nat (length i) <= 100000000) response ->
  contains_at_least_once response field_name value = true
  <-> Forall (fun i =>
        Exists (fun element => exists members value_found,
                  element = object members
                  /\ find field_name members = Some value_found
                  /\ value_eqb value_found value = true) i) response.
Proof.
  intros Hlength. unfold contains_at_least_once. rewrite occurences_in_range_iff.
  rewrite !Forall_forall in *. split; intros Hall i Hi.
  - specialize (Hall i Hi). specialize (Hlength i Hi). unfold count_fields in Hall.
    destruct (count_fields_from_spec i 0) as [_ Hzero]; [lia|lia|].
    destruct (matching_list_cases i) as [Hsome|Hnone]; [exact Hsome|].
    apply Hzero in Hnone. lia.
  - specialize (Hall i Hi). specialize (Hlength i Hi). unfold count_fields.
    destruct (count_fields_from_spec i 0) as [Hbounds Hzero]; [lia|lia|].
    split; [|lia].
    destruct (Z.eq_dec (count_fields_from 0 i field_name value) 0) as [Hnone|]; [|lia].
    apply Hzero in Hnone. exfalso.
    apply Exists_exists in Hall as (element & Hin & members & value_found & -> & Hfound & Htrue).
    rewrite Forall_forall in Hnone.
    rewrite (Hnone _ Hin members value_found eq_refl Hfound) in Htrue. discriminate.
Qed.

End response_checks.

Lemma contains_not_iff_witness :
  let response :=
    [[json.object [("channel", json.jstring "/meta/connect")]; json.number 1]; []] in
  bayeux_test.contains_not response "channel" (json.jstring "/foo/bar") = true
  <-> Forall (fun i =>
        Forall (fun element => forall members value_found,
                  element = json.object members ->
                  json.find "channel" members = Some value_found ->
                  json.value_eqb value_found (json.jstring "/foo/bar") = false) i)
        response.
Proof.
  intros response.
  apply (contains_not_iff "channel" (json.jstring "/foo/bar") response).
  repeat (constructor; try (simpl; lia)).
Defined.

Lemma contains_at_least_once_iff_witness :
  let response :=
    [[json.object [("channel", json.jstring "/meta/connect")]; json.number 1]; []] in
  bayeux_test.contains_at_least_once response "channel" (json.jstring "/meta/connect")
  = true
  <-> Forall (fun i =>
        Exists (fun element => exists members value_found,
                  element = json.object members
                  /\ json.find "channel" members = Some value_found
                  /\ json.value_eqb value_found (json.jstring "/meta/connect") = true) i)
        response.
Proof.
  intros response.
  apply (contains_at_least_once_iff "channel" (json.jstring "/meta/connect") response).
  repeat (constructor; try (simpl; lia)).
Defined.
